(** * Photon Maze: the ray tracer and the maze generator

  A shallow embedding of [src/js/vec2.js], [src/js/maze.js] and the ray
  physics of [src/js/config.js] (class [PhotonGame]), with the properties
  of the design document proved about it.

  Numbers.  JavaScript numbers that hold coordinates, directions and
  distances are modelled as real numbers ([R]): [Math.hypot] is the
  Euclidean norm, [Math.sqrt] is [sqrt], [Infinity] is the absence of a
  bound.  Rounding is not modelled there.  Loop counters and grid sizes
  are integers ([Z]); the draws of [Math.random] are rationals ([Q]),
  which every double is.

  Doubles.  The module [Double] holds the ray physics a second time, on
  binary64 floating-point numbers, for the facts that depend on
  rounding. *)

From Stdlib Require Import Reals Lra Psatz ZArith Lia List String Bool.
From Stdlib Require Import QArith Qreals Qround.
From stdpp Require Import base list list_numbers.
Import ListNotations.

(* ====================================================================== *)
(** * Comparisons on real numbers, as booleans *)

Definition Rltb (a b : R) : bool := if Rlt_dec a b then true else false.
Definition Rleb (a b : R) : bool := if Rle_dec a b then true else false.
Definition Reqb (a b : R) : bool := if Req_dec_T a b then true else false.

(* ====================================================================== *)
(** * vec2.js *)

Module Vec2.
Local Open Scope R_scope.

Record t : Type := mk { x : R; y : R }.

(** [Math.hypot(a, b)] *)
Definition hypot (a b : R) : R := sqrt (a * a + b * b).

Definition add (a b : t) : t := mk (x a + x b) (y a + y b).
Definition sub (a b : t) : t := mk (x a - x b) (y a - y b).
Definition mult (v : t) (n : R) : t := mk (x v * n) (y v * n).
Definition dot (a b : t) : R := x a * x b + y a * y b.
Definition mag (v : t) : R := hypot (x v) (y v).

(** [m ? {x: v.x/m, y: v.y/m} : {x:0, y:0}]: a number is falsy when it
    is zero. *)
Definition normalize (v : t) : t :=
  let m := hypot (x v) (y v) in
  if Reqb m 0 then mk 0 0 else mk (x v / m) (y v / m).

Definition dist (a b : t) : R := hypot (x a - x b) (y a - y b).
End Vec2.

(* ====================================================================== *)
(** * config.js: the data of the engine *)

Module CONFIG.
Local Open Scope R_scope.
Definition defaultMaxBounces : Z := 20%Z.
Definition complexMaxBounces : Z := 150%Z.
Definition refractiveIndex : R := 15 / 10.
Definition airIndex : R := 1.
Definition colors_wall : string := "#00ccff"%string.
End CONFIG.

(** A wall as [addWall] stores it.  The [type] is the JavaScript string. *)
Module Wall.
Record t : Type := mk {
  a : Vec2.t;
  b : Vec2.t;
  type : string;
  normal : Vec2.t
}.
End Wall.

(** The target circle [{x, y, r}]. *)
Module Circle.
Record t : Type := mk { x : R; y : R; r : R }.

(** Where the code hands the circle to [Vec2.dist], only its [x] and
    [y] are read. *)
Definition pos (c : t) : Vec2.t := Vec2.mk (x c) (y c).
End Circle.

Module Particle.
Record t : Type := mk {
  x : R; y : R; vx : R; vy : R; life : R; color : string
}.
End Particle.

(** The source of [Math.random]: the draws to come, and how many were
  taken. *)
Record Rng : Type := mkRng { draws : nat -> Q; cursor : nat }.

Definition nextDraw (g : Rng) : Q * Rng :=
(draws g (cursor g), mkRng (draws g) (S (cursor g))).

(** The fields of a [PhotonGame] object that the ray physics reads or
  writes, and the fields a shot is made from. *)
Record PhotonGame : Type := mkGame {
maxBounces : Z;
walls : list Wall.t;
particles : list Particle.t;
emitter : Vec2.t;
target : Circle.t;
attempts : Z
}.

(** The state a method runs in: the object [this] and the random source. *)
Record World : Type := mkWorld { this : PhotonGame; random : Rng }.

(* ====================================================================== *)
(** * A state monad for the methods of [PhotonGame] *)

Definition M (A : Type) : Type := World -> A * World.

Definition ret {A} (v : A) : M A := fun w => (v, w).
Definition bind {A B} (m : M A) (k : A -> M B) : M B :=
fun w => let (v, w') := m w in k v w'.
Definition gets {A} (f : PhotonGame -> A) : M A := fun w => (f (this w), w).

Declare Scope game_scope.
Delimit Scope game_scope with game.
Notation "'let*' x ':=' m 'in' k" := (bind m (fun x => k))
(at level 10, x name, m at level 200, k at level 200) : game_scope.

Definition Math_random : M R :=
fun w => let (q, g) := nextDraw (random w) in (Q2R q, mkWorld (this w) g).

Definition pushParticle (p : Particle.t) : M unit :=
fun w =>
  let g := this w in
  (tt, mkWorld (mkGame (maxBounces g) (walls g) (particles g ++ [p])
                       (emitter g) (target g) (attempts g))
               (random w)).

(** [for (let i = 0; i < n; i++) body] for a body that does not read [i]. *)
Fixpoint times (n : nat) (body : M unit) : M unit :=
match n with
| O => ret tt
| S n' => bind body (fun _ => times n' body)
end.

Module Game.
Local Open Scope R_scope.
Local Open Scope game_scope.

(** [calculateNormal(a, b)] *)
Definition calculateNormal (a b : Vec2.t) : Vec2.t :=
  let dx := Vec2.x b - Vec2.x a in
  let dy := Vec2.y b - Vec2.y a in
  Vec2.normalize (Vec2.mk (- dy) dx).

(** The wall object [addWall(x1, y1, x2, y2, type)] pushes. *)
Definition newWall (x1 y1 x2 y2 : R) (ty : string) : Wall.t :=
  Wall.mk (Vec2.mk x1 y1) (Vec2.mk x2 y2) ty
         (calculateNormal (Vec2.mk x1 y1) (Vec2.mk x2 y2)).

Definition addWall (x1 y1 x2 y2 : R) (ty : string) : M unit :=
  fun w =>
    let g := this w in
    (tt, mkWorld (mkGame (maxBounces g) (walls g ++ [newWall x1 y1 x2 y2 ty])
                         (particles g) (emitter g) (target g) (attempts g))
                 (random w)).

(** [spawnParticles(pos, color, speedScale)] *)
Definition spawnParticles (pos : Vec2.t) (color : string) (speedScale : R)
  : M unit :=
  times 3
    (let* u1 := Math_random in
     let angle := u1 * PI * 2 in
     let* u2 := Math_random in
     let speed := u2 * speedScale + 1 in
     pushParticle (Particle.mk (Vec2.x pos) (Vec2.y pos)
                              (cos angle * speed) (sin angle * speed)
                              1 color)).

(** What [getLineIntersection] returns when it is not [null]. *)
Record Hit : Type := mkHit { t : R; point : Vec2.t }.

(** [getLineIntersection(p, d, a, b)] *)
Definition getLineIntersection (p d a b : Vec2.t) : option Hit :=
  let v1 := Vec2.mk (Vec2.x p - Vec2.x a) (Vec2.y p - Vec2.y a) in
  let v2 := Vec2.mk (Vec2.x b - Vec2.x a) (Vec2.y b - Vec2.y a) in
  let v3 := Vec2.mk (- Vec2.y d) (Vec2.x d) in
  let dot := Vec2.dot v2 v3 in
  if Rltb (Rabs dot) (1 / 100000) then None
  else
    let t1 := (Vec2.x v2 * Vec2.y v1 - Vec2.y v2 * Vec2.x v1) / dot in
    let t2 := Vec2.dot v1 v3 / dot in
    if Rleb 0 t1 && Rleb 0 t2 && Rleb t2 1
    then Some (mkHit t1 (Vec2.mk (Vec2.x p + t1 * Vec2.x d)
                                 (Vec2.y p + t1 * Vec2.y d)))
    else None.

(** [segmentCircleIntersect(p1, p2, circle)] *)
Definition segmentCircleIntersect (p1 p2 : Vec2.t) (circle : Circle.t) : bool :=
  let L2 := Vec2.dist p1 p2 * Vec2.dist p1 p2 in
  if Reqb L2 0 then Rltb (Vec2.dist p1 (Circle.pos circle)) (Circle.r circle)
  else
    let t := ((Circle.x circle - Vec2.x p1) * (Vec2.x p2 - Vec2.x p1)
              + (Circle.y circle - Vec2.y p1) * (Vec2.y p2 - Vec2.y p1)) / L2 in
    let t := Rmax 0 (Rmin 1 t) in
    let proj := Vec2.mk (Vec2.x p1 + t * (Vec2.x p2 - Vec2.x p1))
                        (Vec2.y p1 + t * (Vec2.y p2 - Vec2.y p1)) in
    Rltb (Vec2.dist (Circle.pos circle) proj) (Circle.r circle).

Definition epsilon : R := 1 / 100.

(** The three locals [minT], [closest], [hitWall] of the wall scan are
    assigned together; [None] stands for their initial values
    [Infinity], [null], [null]. *)
Record Nearest : Type := mkNearest {
  minT : R; closest : Vec2.t; hitWall : Wall.t
}.

(** The body of [for (let wall of this.walls)]. *)
Definition scanWall (currPos currDir : Vec2.t) (acc : option Nearest)
           (wall : Wall.t) : option Nearest :=
  match getLineIntersection currPos currDir (Wall.a wall) (Wall.b wall) with
  | Some hit =>
      if Rltb epsilon (t hit)
         && match acc with
            | None => true
            | Some n => Rltb (t hit) (minT n)
            end
      then Some (mkNearest (t hit) (point hit) wall)
      else acc
  | None => acc
  end.

Definition nearestHit (ws : list Wall.t) (currPos currDir : Vec2.t)
  : option Nearest :=
  fold_left (scanWall currPos currDir) ws None.

(** The locals of [traceRay] that live across iterations. *)
Record Ray : Type := mkRay {
  points : list Vec2.t;
  currPos : Vec2.t;
  currDir : Vec2.t;
  hitTarget : bool
}.

(** The three [break] statements of the loop. *)
Inductive BreakSite : Type := AtAbsorb | AtEscape | AtTarget.

Inductive Flow : Type := Next | Break (site : BreakSite).

(** [Vec2.sub(currDir, Vec2.mult(normal, 2 * Vec2.dot(currDir, normal)))],
    the expression bound to [reflect] in the mirror branch and in the
    total-internal-reflection branch. *)
Definition reflect (currDir normal : Vec2.t) : Vec2.t :=
  Vec2.sub currDir (Vec2.mult normal (2 * Vec2.dot currDir normal)).

(** The normal the mirror branch uses. *)
Definition mirrorNormal (currDir normal : Vec2.t) : Vec2.t :=
  if Rltb 0 (Vec2.dot currDir normal) then Vec2.mult normal (-1) else normal.

(** The new [currDir] of the mirror branch. *)
Definition mirrorDir (currDir normal : Vec2.t) : Vec2.t :=
  Vec2.normalize (reflect currDir (mirrorNormal currDir normal)).

(** The locals [normal], [n1], [n2] of the glass branch after the
    optional swap. *)
Definition glassOrient (currDir normal : Vec2.t) : Vec2.t * R * R :=
  let n1 := CONFIG.airIndex in
  let n2 := CONFIG.refractiveIndex in
  let entering := Rltb (Vec2.dot currDir normal) 0 in
  if negb entering then (Vec2.mult normal (-1), n2, n1)
  else (normal, n1, n2).

(** The new [currDir] of the glass branch. *)
Definition glassDir (currDir normal0 : Vec2.t) : Vec2.t :=
  let '(normal, n1, n2) := glassOrient currDir normal0 in
  let n := n1 / n2 in
  let cosI := - Vec2.dot normal currDir in
  let sinT2 := n * n * (1 - cosI * cosI) in
  if Rltb 1 sinT2 then Vec2.normalize (reflect currDir normal)
  else
    let cosT := sqrt (1 - sinT2) in
    let term1 := Vec2.mult currDir n in
    let term2 := Vec2.mult normal (n * cosI - cosT) in
    Vec2.add term1 term2.

(** One execution of the body of [for (let i = 0; i < this.maxBounces; i++)]. *)
Definition bounceStep (st : Ray) : M (Ray * Flow) :=
  let* ws := gets walls in
  let* tg := gets target in
  match nearestHit ws (currPos st) (currDir st) with
  | Some n =>
      let hitTarget' :=
        if segmentCircleIntersect (currPos st) (closest n) tg
        then true else hitTarget st in
      let points' := points st ++ [closest n] in
      if String.eqb (Wall.type (hitWall n)) "absorb"
      then ret (mkRay points' (currPos st) (currDir st) hitTarget',
                Break AtAbsorb)
      else
        let* st' :=
          (if String.eqb (Wall.type (hitWall n)) "mirror" then
             let* _ := spawnParticles (closest n) CONFIG.colors_wall 2 in
             ret (mkRay points' (closest n)
                        (mirrorDir (currDir st) (Wall.normal (hitWall n)))
                        hitTarget')
           else if String.eqb (Wall.type (hitWall n)) "glass" then
             let* _ := spawnParticles (closest n) "#fff" 1 in
             ret (mkRay points' (closest n)
                        (glassDir (currDir st) (Wall.normal (hitWall n)))
                        hitTarget')
           else ret (mkRay points' (currPos st) (currDir st) hitTarget'))
        in
        ret (st', if hitTarget' then Break AtTarget else Next)
  | None =>
      ret (mkRay (points st
                    ++ [Vec2.mk (Vec2.x (currPos st) + Vec2.x (currDir st) * 2000)
                                (Vec2.y (currPos st) + Vec2.y (currDir st) * 2000)])
                 (currPos st) (currDir st) (hitTarget st),
           Break AtEscape)
  end.

(** How the loop ended: the condition [i < this.maxBounces] failed, or
    one of the [break]s ran. *)
Inductive Exit : Type := Exhausted | Broke (site : BreakSite).

(** The locals at the end of the loop, with the number of times the body
    ran. *)
Record LoopEnd : Type := mkLoopEnd {
  final : Ray;
  iterations : nat;
  exit : Exit
}.

(** The loop, with [n] iterations left and [i] done. *)
Fixpoint bounceLoop (n : nat) (i : nat) (st : Ray) : M LoopEnd :=
  match n with
  | O => ret (mkLoopEnd st i Exhausted)
  | S n' =>
      let* r := bounceStep st in
      match snd r with
      | Break site => ret (mkLoopEnd (fst r) (S i) (Broke site))
      | Next => bounceLoop n' (S i) (fst r)
      end
  end.

Record TraceResult : Type := mkResult { path : list Vec2.t; success : bool }.

(** [traceRay(start, dir)] up to its [return]. *)
Definition traceLoop (start dir : Vec2.t) : M LoopEnd :=
  let* mb := gets maxBounces in
  bounceLoop (Z.to_nat mb) 0
             (mkRay [start] start (Vec2.normalize dir) false).

(** [traceRay(start, dir)] *)
Definition traceRay (start dir : Vec2.t) : M TraceResult :=
  let* e := traceLoop start dir in
  ret (mkResult (points (final e)) (hitTarget (final e))).

End Game.

(* ====================================================================== *)
(** * maze.js *)

Module MazeGenerator.
Local Open Scope Z_scope.

(** How a call ends: with a value; with the [TypeError] JavaScript
    raises when a property of [undefined] is read or written; with an
    exception raised by a [throw] statement, of which [maze.js] has
    none; or with the loop budget of the model used up. *)
Inductive Outcome (A : Type) : Type :=
| Ok (v : A)
| TypeError
| Thrown (reason : string)
| OutOfFuel.
Arguments Ok {A} v.
Arguments TypeError {A}.
Arguments Thrown {A} reason.
Arguments OutOfFuel {A}.

(** Computations that draw from [Math.random] and may throw. *)
Definition G (A : Type) : Type := Rng -> Outcome (A * Rng).

Definition gret {A} (v : A) : G A := fun g => Ok (v, g).
Definition gbind {A B} (m : G A) (k : A -> G B) : G B :=
  fun g => match m g with
           | Ok (v, g') => k v g'
           | TypeError => TypeError
           | Thrown reason => Thrown reason
           | OutOfFuel => OutOfFuel
           end.
Definition throwTypeError {A} : G A := fun _ => TypeError.
Definition outOfFuel {A} : G A := fun _ => OutOfFuel.
Definition Math_random : G Q := fun g => Ok (nextDraw g).

Declare Scope maze_scope.
Delimit Scope maze_scope with maze.
Notation "'let*' x ':=' m 'in' k" := (gbind m (fun x => k))
  (at level 10, x name, m at level 200, k at level 200) : maze_scope.
Local Open Scope maze_scope.

Record CellWalls : Type := mkWalls {
  top : bool; right : bool; bottom : bool; left : bool
}.

Record Cell : Type := mkCell {
  x : Z; y : Z; visited : bool; walls : CellWalls
}.

Abbreviation Grid := (list (list Cell)).

(** A reference to a cell object: the place [(row, column)] of the grid
    that holds it.  The stack and the neighbour list hold references,
    and a write through one is seen through every other. *)
Abbreviation Ref := (Z * Z)%type.

(** The nested [for] loops that build the grid. *)
Definition newGrid (cols rows : Z) : Grid :=
  (fun r => (fun c => mkCell c r false (mkWalls true true true true))
              <$> seqZ 0 cols)
    <$> seqZ 0 rows.

(** [arr[i]]: [undefined] outside the array. *)
Definition index {A} (arr : list A) (i : Z) : option A :=
  if i <? 0 then None else arr !! Z.to_nat i.

(** [grid[row][col]] where the code goes on to read or write a property
    of the cell: a missing row or a missing cell ends in [TypeError]. *)
Definition cellAt (grid : Grid) (p : Ref) : G Cell :=
  match index grid (fst p) with
  | None => throwTypeError
  | Some row =>
      match index row (snd p) with
      | None => throwTypeError
      | Some c => gret c
      end
  end.

(** A write to properties of the cell object behind a reference. *)
Definition setCell (grid : Grid) (p : Ref) (f : Cell -> Cell) : Grid :=
  alter (alter f (Z.to_nat (snd p))) (Z.to_nat (fst p)) grid.

Definition setVisited (c : Cell) : Cell :=
  mkCell (x c) (y c) true (walls c).
Definition clearTop (c : Cell) : Cell :=
  mkCell (x c) (y c) (visited c)
         (mkWalls false (right (walls c)) (bottom (walls c)) (left (walls c))).
Definition clearRight (c : Cell) : Cell :=
  mkCell (x c) (y c) (visited c)
         (mkWalls (top (walls c)) false (bottom (walls c)) (left (walls c))).
Definition clearBottom (c : Cell) : Cell :=
  mkCell (x c) (y c) (visited c)
         (mkWalls (top (walls c)) (right (walls c)) false (left (walls c))).
Definition clearLeft (c : Cell) : Cell :=
  mkCell (x c) (y c) (visited c)
         (mkWalls (top (walls c)) (right (walls c)) (bottom (walls c)) false).

(** [if (cond && !grid[row][col].visited) N.push(grid[row][col])] *)
Definition pushUnvisited (grid : Grid) (cond : bool) (p : Ref)
           (N : list Ref) : G (list Ref) :=
  if cond then
    let* c := cellAt grid p in
    gret (if negb (visited c) then N ++ [p] else N)
  else gret N.

(** The four tests that fill [N], for the cell with fields [x], [y]. *)
Definition unvisitedNeighbors (cols rows : Z) (grid : Grid) (x y : Z)
  : G (list Ref) :=
  let* N := pushUnvisited grid (0 <? y) (y - 1, x) [] in
  let* N := pushUnvisited grid (x <? cols - 1) (y, x + 1) N in
  let* N := pushUnvisited grid (y <? rows - 1) (y + 1, x) N in
  pushUnvisited grid (0 <? x) (y, x - 1) N.

(** [v|0]: truncation to a 32-bit integer. *)
Definition toInt32 (q : Q) : Z :=
  let z := if Qle_bool 0 q then Qfloor q else Qceiling q in
  (z + 2 ^ 31) mod 2 ^ 32 - 2 ^ 31.

(** [N[Math.random()*N.length|0]] *)
Definition pick (N : list Ref) : G (option Ref) :=
  let* u := Math_random in
  gret (index N (toInt32 (u * inject_Z (Z.of_nat (length N))))).

(** The chain that removes the wall shared by [cur] and [nxt], then
    [nxt.visited=true]. *)
Definition removeWall (grid : Grid) (cur nxt : Ref) : G Grid :=
  let* c := cellAt grid cur in
  let* n := cellAt grid nxt in
  let grid :=
    if x c <? x n then setCell (setCell grid cur clearRight) nxt clearLeft
    else if x n <? x c then setCell (setCell grid cur clearLeft) nxt clearRight
    else if y c <? y n then setCell (setCell grid cur clearBottom) nxt clearTop
    else setCell (setCell grid cur clearTop) nxt clearBottom in
  gret (setCell grid nxt setVisited).

(** [while (stack.length) { ... }].  The head of the list is the top of
    the stack, the last element of the JavaScript array. *)
Fixpoint carveLoop (fuel : nat) (cols rows : Z) (grid : Grid)
         (stack : list Ref) : G Grid :=
  match stack with
  | [] => gret grid
  | cur :: rest =>
      match fuel with
      | O => outOfFuel
      | S fuel' =>
          let* c := cellAt grid cur in
          let* N := unvisitedNeighbors cols rows grid (x c) (y c) in
          match N with
          | [] => carveLoop fuel' cols rows grid rest
          | _ :: _ =>
              let* picked := pick N in
              match picked with
              | None => throwTypeError
              | Some nxt =>
                  let* grid' := removeWall grid cur nxt in
                  carveLoop fuel' cols rows grid' (nxt :: stack)
              end
          end
      end
  end.

(** The carve phase of [generate]: the grid, the stack with
    [grid[0][0]] marked visited, and the loop. *)
Definition carve (fuel : nat) (cols rows : Z) : G Grid :=
  let grid := newGrid cols rows in
  let* _ := cellAt grid (0, 0) in
  let grid := setCell grid (0, 0) setVisited in
  carveLoop fuel cols rows grid [(0, 0)].

(** A line of the output. *)
Record Line : Type := mkLine {
  x1 : Q; y1 : Q; x2 : Q; y2 : Q; type : string
}.

Definition breakChance : Q := 35 # 100.

Definition div (n d : Z) : Q := (inject_Z n / inject_Z d)%Q.

(** [if (cond && Math.random()>breakChance) walls.push({..., type:
    Math.random()>0.9?'glass':'mirror'})] *)
Definition pushLine (cond : bool) (line : string -> Line)
           (walls : list Line) : G (list Line) :=
  if cond then
    let* u := Math_random in
    if negb (Qle_bool u breakChance) then
      let* v := Math_random in
      gret (walls ++ [line (if negb (Qle_bool v (9 # 10))
                            then "glass" else "mirror")%string])
    else gret walls
  else gret walls.

(** The body of the inner conversion loop. *)
Definition convertCell (cols rows : Z) (grid : Grid) (r c : Z)
           (walls0 : list Line) : G (list Line) :=
  let* cell := cellAt grid (r, c) in
  let* walls1 :=
    pushLine ((c <? cols - 1) && right (walls cell))
             (mkLine (div (c + 1) cols) (div r rows)
                     (div (c + 1) cols) (div (r + 1) rows))
             walls0 in
  pushLine ((r <? rows - 1) && bottom (walls cell))
           (mkLine (div c cols) (div (r + 1) rows)
                   (div (c + 1) cols) (div (r + 1) rows))
           walls1.

(** [for (...) acc = body(i, acc)] over the listed values of [i]. *)
Fixpoint forEach {A} (l : list Z) (body : Z -> A -> G A) (acc : A) : G A :=
  match l with
  | [] => gret acc
  | i :: l' => let* acc' := body i acc in forEach l' body acc'
  end.

(** The conversion of the grid into lines. *)
Definition convert (cols rows : Z) (grid : Grid) : G (list Line) :=
  forEach (seqZ 0 rows)
          (fun r => forEach (seqZ 0 cols) (convertCell cols rows grid r))
          [].

(** [MazeGenerator.generate(cols, rows)] *)
Definition generate (fuel : nat) (cols rows : Z) : G (list Line) :=
  let* grid := carve fuel cols rows in
  convert cols rows grid.

End MazeGenerator.

(* ====================================================================== *)
(** * Vocabulary of the statements *)

Module Scene.
Import Game.

(** A game object with another particle list. *)
Definition withParticles (g : PhotonGame) (ps : list Particle.t)
  : PhotonGame :=
  mkGame (maxBounces g) (walls g) ps (emitter g) (target g) (attempts g).

(** [grown k w w']: world [w'] is world [w] after [k] particle bursts,
    that is with [3 * k] more particles at the end of the list and
    [6 * k] more draws taken, and nothing else changed. *)
Definition grown (k : nat) (w w' : World) : Prop :=
  exists new : list Particle.t,
    length new = (3 * k)%nat
    /\ w' = mkWorld (withParticles (this w) (particles (this w) ++ new))
                    (mkRng (draws (random w)) (6 * k + cursor (random w))).

(** A world with the given bounce limit, walls and target, and nothing
    else. *)
Definition bare (mb : Z) (ws : list Wall.t) (tg : Circle.t) : World :=
  mkWorld (mkGame mb ws [] (Vec2.mk 0 0) tg 0)
          (mkRng (fun _ => 0%Q) 0).

(** What one iteration computes, for given walls and target. *)
Definition stepIn (ws : list Wall.t) (tg : Circle.t) (st : Ray)
  : Ray * Flow :=
  fst (bounceStep st (bare 0 ws tg)).

(** What the loop computes, for given walls and target. *)
Definition loopIn (ws : list Wall.t) (tg : Circle.t) (n i : nat) (st : Ray)
  : LoopEnd :=
  fst (bounceLoop n i st (bare 0 ws tg)).

(** The bursts of particles of one iteration: one when the wall that is
    hit is a mirror or glass, none otherwise. *)
Definition burstOf (ws : list Wall.t) (st : Ray) : nat :=
  match nearestHit ws (currPos st) (currDir st) with
  | Some h =>
      if String.eqb (Wall.type (hitWall h)) "mirror"
         || String.eqb (Wall.type (hitWall h)) "glass"
      then 1%nat else 0%nat
  | None => 0%nat
  end.

(** The bursts of the loop: the number of its iterations that hit a
    mirror or glass. *)
Fixpoint burstsIn (ws : list Wall.t) (tg : Circle.t) (n : nat) (st : Ray)
  : nat :=
  match n with
  | O => 0%nat
  | S n' =>
      (burstOf ws st
       + match snd (stepIn ws tg st) with
         | Next => burstsIn ws tg n' (fst (stepIn ws tg st))
         | Break _ => 0
         end)%nat
  end.

(** The far point the escape branch appends. *)
Definition farPoint (pos dir : Vec2.t) : Vec2.t :=
  Vec2.mk (Vec2.x pos + Vec2.x dir * 2000) (Vec2.y pos + Vec2.y dir * 2000).

(** [q] lies on the segment from [p1] to [p2]. *)
Definition onSegment (p1 p2 q : Vec2.t) : Prop :=
  exists s : R,
    (0 <= s <= 1)%R
    /\ q = Vec2.mk (Vec2.x p1 + s * (Vec2.x p2 - Vec2.x p1))
                   (Vec2.y p1 + s * (Vec2.y p2 - Vec2.y p1)).

(** The segment from [p1] to [p2] passes within the circle: some point
    of it is closer to the centre than the radius. *)
Definition passesWithin (p1 p2 : Vec2.t) (c : Circle.t) : Prop :=
  exists q, onSegment p1 p2 q /\ (Vec2.dist (Circle.pos c) q < Circle.r c)%R.
End Scene.

(** The scene of the design document: a vertical mirror from (50,0) to
  (50,100), a ray shot eastwards from (0,50), a target of radius 15. *)
Module MirrorScene.
Import Game.
Local Open Scope R_scope.

Definition wall (ty : string) : Wall.t := newWall 50 0 50 100 ty.
Definition origin : Vec2.t := Vec2.mk 0 50.
Definition east : Vec2.t := Vec2.mk 1 0.
Definition west : Vec2.t := Vec2.mk (-1) 0.
Definition middle : Vec2.t := Vec2.mk 50 50.

(** The world of the scene, with the target at [(tx, 50)]. *)
Definition world (mb : Z) (ty : string) (tx : R) : World :=
  mkWorld (mkGame mb [wall ty] [] origin (Circle.mk tx 50 15) 0)
          (mkRng (fun _ => 0%Q) 0).

(** The same world without the wall. *)
Definition noWall (mb : Z) (tx : R) : World :=
  mkWorld (mkGame mb [] [] origin (Circle.mk tx 50 15) 0)
          (mkRng (fun _ => 0%Q) 0).

(** The state of the ray when the loop starts. *)
Definition start : Ray := mkRay [origin] origin east false.

(** What the wall scan finds for that ray. *)
Definition firstHit (ty : string) : Nearest := mkNearest 50 middle (wall ty).
End MirrorScene.

(** Walks and trees in a graph given by its adjacency relation. *)
Module Graph.
Section Graph.
Context {V : Type} (adj : V -> V -> Prop).

(** [walk a p b]: the list [p] of vertices starts with [a], ends with
    [b], and steps along edges. *)
Inductive walk : V -> list V -> V -> Prop :=
| walk_one (a : V) : walk a [a] a
| walk_step (a b c : V) (p : list V) :
    adj a b -> walk b p c -> walk a (a :: p) c.

(** A simple path: a walk that meets no vertex twice. *)
Definition simplePath (a : V) (p : list V) (b : V) : Prop :=
  walk a p b /\ NoDup p.

(** The graph is a tree on the vertices [vs]: its edges join vertices of
    [vs], in both directions, and between any two vertices of [vs] there
    is one simple path and no other. *)
Definition isTree (vs : list V) : Prop :=
  (forall x y, adj x y -> x ∈ vs /\ y ∈ vs)
  /\ (forall x y, adj x y -> adj y x)
  /\ (forall a b, a ∈ vs -> b ∈ vs -> exists p, simplePath a p b)
  /\ (forall a b p q, simplePath a p b -> simplePath a q b -> p = q).
End Graph.
End Graph.

(** The maze as a graph on the grid. *)
Module MazeSpec.
Import MazeGenerator.
Local Open Scope Z_scope.

(** The cell object behind a reference, if there is one. *)
Definition deref (grid : Grid) (p : Ref) : option Cell :=
  match index grid (fst p) with
  | Some row => index row (snd p)
  | None => None
  end.

(** The reference is a place of the [rows] by [cols] grid. *)
Definition inGrid (cols rows : Z) (p : Ref) : Prop :=
  0 <= fst p < rows /\ 0 <= snd p < cols.

Inductive Side : Type := Top | Right | Bottom | Left.

#[global] Instance Side_eq_dec : EqDecision Side.
Proof. solve_decision. Defined.

Definition sides : list Side := [Top; Right; Bottom; Left].

(** The place across a side of a cell. *)
Definition across (s : Side) (p : Ref) : Ref :=
  match s with
  | Top => (fst p - 1, snd p)
  | Right => (fst p, snd p + 1)
  | Bottom => (fst p + 1, snd p)
  | Left => (fst p, snd p - 1)
  end.

Definition opposite (s : Side) : Side :=
  match s with
  | Top => Bottom
  | Right => Left
  | Bottom => Top
  | Left => Right
  end.

Definition wallFlag (s : Side) (c : Cell) : bool :=
  match s with
  | Top => top (walls c)
  | Right => right (walls c)
  | Bottom => bottom (walls c)
  | Left => left (walls c)
  end.

Definition clearFlag (s : Side) : Cell -> Cell :=
  match s with
  | Top => clearTop
  | Right => clearRight
  | Bottom => clearBottom
  | Left => clearLeft
  end.

(** The wall on side [s] of the cell at [p] is removed: there is a cell
    across it, and both cells have their flag for the shared wall
    cleared. *)
Definition passageOn (grid : Grid) (p : Ref) (s : Side) : bool :=
  match deref grid p, deref grid (across s p) with
  | Some cp, Some cq => negb (wallFlag s cp) && negb (wallFlag (opposite s) cq)
  | _, _ => false
  end.

(** The cells at [p] and [q] are neighbours with the wall between them
    removed. *)
Definition passage (grid : Grid) (p q : Ref) : bool :=
  existsb (fun s => bool_decide (q = across s p) && passageOn grid p s) sides.

Definition open (grid : Grid) (p q : Ref) : Prop := passage grid p q = true.

(** The grid has a cell at every place of the [rows] by [cols] grid and
    nowhere else, and each cell carries its place in [x] and [y]. *)
Definition wfGrid (cols rows : Z) (grid : Grid) : Prop :=
  (forall p, inGrid cols rows p ->
             exists c, deref grid p = Some c /\ x c = snd p /\ y c = fst p)
  /\ (forall p c, deref grid p = Some c -> inGrid cols rows p).

Definition visitedAt (grid : Grid) (p : Ref) : Prop :=
  exists c, deref grid p = Some c /\ visited c = true.

Definition unvisitedb (grid : Grid) (p : Ref) : bool :=
  match deref grid p with
  | Some c => negb (visited c)
  | None => false
  end.

(** The grid after the wall on side [s] of the cell at [cur] is removed
    and the cell across it is marked visited. *)
Definition carved (grid : Grid) (cur : Ref) (s : Side) : Grid :=
  setCell (setCell (setCell grid cur (clearFlag s))
                   (across s cur) (clearFlag (opposite s)))
          (across s cur) setVisited.

(** What each of the four tests contributes to [N]. *)
Definition candidate (cols rows : Z) (grid : Grid) (cur : Ref) (s : Side)
  : list Ref :=
  if bool_decide (inGrid cols rows (across s cur))
     && unvisitedb grid (across s cur)
  then [across s cur] else [].

(** Every place of the grid, row by row. *)
Definition places (cols rows : Z) : list Ref :=
  list_prod (seqZ 0 rows) (seqZ 0 cols).

(** What holds of the grid and the stack whenever the loop tests its
    condition; [vs] lists the visited places. *)
Record Inv (cols rows : Z) (grid : Grid) (stack vs : list Ref) : Prop := {
  inv_wf : wfGrid cols rows grid;
  inv_visited : forall p, p ∈ vs <-> visitedAt grid p;
  inv_nodup : NoDup vs;
  inv_root : (0, 0) ∈ vs;
  inv_tree : Graph.isTree (open grid) vs;
  inv_stack : forall p, p ∈ stack -> p ∈ vs;
  inv_closed : forall p s, p ∈ vs -> p ∉ stack ->
                           inGrid cols rows (across s p) -> across s p ∈ vs
}.

(** The draws the source still has to give lie in [0, 1), as those of
    [Math.random] do. *)
Definition unitDraws (rng : Rng) : Prop :=
  forall k, (cursor rng <= k)%nat -> (0 <= draws rng k)%Q /\ (draws rng k < 1)%Q.
End MazeSpec.

(** More vocabulary: rays, cross products, consecutive points. *)
Module Plane.
Local Open Scope R_scope.

(** The cross product of two vectors of the plane. *)
Definition cross (u v : Vec2.t) : R :=
  Vec2.x u * Vec2.y v - Vec2.y u * Vec2.x v.

(** The point of the ray from [p] along [d] at parameter [t]. *)
Definition pointAt (p d : Vec2.t) (t : R) : Vec2.t :=
  Vec2.mk (Vec2.x p + t * Vec2.x d) (Vec2.y p + t * Vec2.y d).

(** The refracted vector of the glass branch, for the normal [N] it uses
    and the ratio [n] of the two indices. *)
Definition snell (d N : Vec2.t) (n : R) : Vec2.t :=
  let cosI := - Vec2.dot N d in
  let sinT2 := n * n * (1 - cosI * cosI) in
  let cosT := sqrt (1 - sinT2) in
  Vec2.add (Vec2.mult d n) (Vec2.mult N (n * cosI - cosT)).

(** The pairs of consecutive elements of a list. *)
Fixpoint segments {A : Type} (l : list A) : list (A * A) :=
  match l with
  | a :: (b :: _) as l' => (a, b) :: segments l'
  | _ => []
  end.

(** The wall is one of the three kinds the tracer knows. *)
Definition knownType (w : Wall.t) : Prop :=
  Wall.type w = "mirror"%string \/ Wall.type w = "glass"%string
  \/ Wall.type w = "absorb"%string.

(** The wall is a mirror or an absorber: not glass. *)
Definition opaque (w : Wall.t) : Prop :=
  Wall.type w = "mirror"%string \/ Wall.type w = "absorb"%string.

(** The wall carries the normal [addWall] computes for it. *)
Definition builtByAddWall (w : Wall.t) : Prop :=
  Wall.normal w = Game.calculateNormal (Wall.a w) (Wall.b w).

(** The list ends with the given element. *)
Definition endsWith {A : Type} (l : list A) (a : A) : Prop :=
  exists l', l = l' ++ [a].

(** The ray stands at the last point of its path, has not seen the
    target, and no segment of its path passes within the target. *)
Definition onTrack (tg : Circle.t) (st : Game.Ray) : Prop :=
  endsWith (Game.points st) (Game.currPos st)
  /\ Game.hitTarget st = false
  /\ forall p q, In (p, q) (segments (Game.points st)) ->
                 ~ Scene.passesWithin p q tg.

(** The ray stands at the last point of its path, its direction has
    length one, and every segment of its path is longer than
    [epsilon]. *)
Definition steady (st : Game.Ray) : Prop :=
  endsWith (Game.points st) (Game.currPos st)
  /\ Vec2.mag (Game.currDir st) = 1%R
  /\ forall p q, In (p, q) (segments (Game.points st)) ->
                 (Game.epsilon < Vec2.dist p q)%R.
End Plane.


(** More vocabulary: the walls of the maze and the lines drawn for them. *)
Module Lines.
Import MazeGenerator MazeSpec.
Local Open Scope Z_scope.

(** The wall on side [s] of the cell at [p] stands: the cell has its
    flag for that side set. *)
Definition standing (grid : Grid) (p : Ref) (s : Side) : bool :=
  match deref grid p with
  | Some c => wallFlag s c
  | None => false
  end.

(** The flags follow the passages: a flag is cleared only where the wall
    is removed on both of its sides. *)
Definition inStep (grid : Grid) : Prop :=
  forall p c s, deref grid p = Some c -> wallFlag s c = false ->
                passageOn grid p s = true.

(** How many of the right and bottom walls of the cell at [p] are
    removed. *)
Definition gone (grid : Grid) (p : Ref) : nat :=
  (Nat.b2n (passageOn grid p Right) + Nat.b2n (passageOn grid p Bottom))%nat.

(** How many lines the conversion can draw for the cell at [p]: one for
    a standing right wall off the last column, one for a standing bottom
    wall off the last row. *)
Definition kept (cols rows : Z) (grid : Grid) (p : Ref) : nat :=
  (Nat.b2n ((snd p <? cols - 1)%Z && standing grid p Right)
   + Nat.b2n ((fst p <? rows - 1)%Z && standing grid p Bottom))%nat.

(** The line the conversion draws for the wall on the right or bottom
    side of the cell at [p]. *)
Definition lineOn (cols rows : Z) (p : Ref) (s : Side) (ty : string) : Line :=
  match s with
  | Right => mkLine (div (snd p + 1) cols) (div (fst p) rows)
                    (div (snd p + 1) cols) (div (fst p + 1) rows) ty
  | _ => mkLine (div (snd p) cols) (div (fst p + 1) rows)
                (div (snd p + 1) cols) (div (fst p + 1) rows) ty
  end.

(** The line is drawn for a standing right or bottom wall between two
    cells of the grid, as a mirror or as glass. *)
Definition onWall (cols rows : Z) (grid : Grid) (l : Line) : Prop :=
  exists p s ty,
    (s = Right \/ s = Bottom)
    /\ inGrid cols rows p /\ inGrid cols rows (across s p)
    /\ standing grid p s = true
    /\ (ty = "mirror"%string \/ ty = "glass"%string)
    /\ l = lineOn cols rows p s ty.

(** Every draw breaks no wall and makes no glass: it lies above
    [breakChance] and not above 0.9. *)
Definition keen (rng : Rng) : Prop :=
  forall k, (breakChance < draws rng k)%Q /\ (draws rng k <= 9 # 10)%Q.

(** The step of a loop appends at most [n] lines to the list, each with
    [Q], and draws from the source; on keen draws it appends [n] lines,
    all mirrors. *)
Definition adds (Q : Line -> Prop) (n : nat)
           (m : list Line -> G (list Line)) : Prop :=
  forall acc rng,
  exists ext rng',
    m acc rng = Ok (acc ++ ext, rng')
    /\ draws rng' = draws rng
    /\ Forall Q ext
    /\ (length ext <= n)%nat
    /\ (keen rng -> length ext = n
                    /\ Forall (fun l => type l = "mirror"%string) ext).
End Lines.

From stdpp Require Import gmap.

(* ====================================================================== *)
(** * config.js: the length of a path *)

Module Score.
Local Open Scope R_scope.

(** [for (let i = 0; i < points.length - 1; i++)
       L += Vec2.dist(points[i], points[i + 1])], from the point at [i]
    on. *)
Fixpoint lengthLoop (points : list Vec2.t) (L : R) : R :=
  match points with
  | a :: (b :: _) as rest => lengthLoop rest (L + Vec2.dist a b)
  | _ => L
  end.

(** [calculatePathLength(points)] *)
Definition calculatePathLength (points : list Vec2.t) : Z :=
  Zfloor (lengthLoop points 0).
End Score.


(* ====================================================================== *)
(** * config.js: levels and shots

    [loadLevel] and [shootRay] with the fields of the object they read
    and write.  The writes to the page ([this.ui], [alert], timers) are
    left out; [Date.now()] and the size of the canvas are arguments. *)

(** A wall of a level, in fractions of the canvas. *)
Module Spec.
Record t : Type := mk { x1 : R; y1 : R; x2 : R; y2 : R; type : string }.
End Spec.

(** An entry of [this.staticLevels]. *)
Module Static.
Record t : Type := mk {
  name : string;
  emitter : Vec2.t;
  target : Vec2.t;
  walls : list Spec.t
}.
End Static.

(** An entry of [this.history]. *)
Module Shot.
Record t : Type := mk {
  path : list Vec2.t;
  timestamp : Z;
  success : bool;
  color : string
}.
End Shot.

Module Session.
Local Open Scope R_scope.
Local Open Scope game_scope.

(** The object: the fields of [PhotonGame] above with the random source,
    and the fields of the level and of the score.  [None] stands for
    [Infinity] in [currentLevelBest]. *)
Record t : Type := mk {
  world : World;
  levelIndex : Z;
  history : list Shot.t;
  mouse : Vec2.t;
  totalSessionDistance : Z;
  currentLevelBest : option Z;
  levelRecords : gmap Z Z
}.

Definition colors_shot1 : string := "#ffd400"%string.

(** The fields as the constructor sets them, before it calls
    [loadLevel(0)]. *)
Definition initial (rng : Rng) : t :=
  mk (mkWorld (mkGame CONFIG.defaultMaxBounces [] [] (Vec2.mk 0 0)
                      (Circle.mk 0 0 15) 0)
              rng)
     0 [] (Vec2.mk 0 0) 0 None ∅.

(** [initLevels()] *)
Definition staticLevels : list Static.t :=
  [ Static.mk "RICOCHET" (Vec2.mk (1 / 10) (5 / 10)) (Vec2.mk (9 / 10) (5 / 10))
      [ Spec.mk (5 / 10) (4 / 10) (5 / 10) (6 / 10) "mirror";
        Spec.mk (3 / 10) (1 / 10) (7 / 10) (1 / 10) "mirror";
        Spec.mk (3 / 10) (9 / 10) (7 / 10) (9 / 10) "mirror" ];
    Static.mk "REFRACTION" (Vec2.mk (1 / 10) (5 / 10))
      (Vec2.mk (9 / 10) (4 / 10))
      [ Spec.mk (4 / 10) (2 / 10) (6 / 10) (2 / 10) "glass";
        Spec.mk (6 / 10) (2 / 10) (6 / 10) (8 / 10) "glass";
        Spec.mk (6 / 10) (8 / 10) (4 / 10) (8 / 10) "glass";
        Spec.mk (4 / 10) (8 / 10) (4 / 10) (2 / 10) "glass";
        Spec.mk (8 / 10) (5 / 10) (8 / 10) 1 "mirror" ];
    Static.mk "PRISM" (Vec2.mk (1 / 10) (8 / 10)) (Vec2.mk (9 / 10) (2 / 10))
      [ Spec.mk (3 / 10) (3 / 10) (7 / 10) (3 / 10) "glass";
        Spec.mk (7 / 10) (3 / 10) (5 / 10) (7 / 10) "glass";
        Spec.mk (5 / 10) (7 / 10) (3 / 10) (3 / 10) "glass" ] ].

(** Assignments to fields of [this]. *)
Definition setWalls (ws : list Wall.t) : M unit :=
  fun w =>
    let g := this w in
    (tt, mkWorld (mkGame (maxBounces g) ws (particles g) (emitter g)
                         (target g) (attempts g))
                 (random w)).

Definition setMaxBounces (mb : Z) : M unit :=
  fun w =>
    let g := this w in
    (tt, mkWorld (mkGame mb (walls g) (particles g) (emitter g)
                         (target g) (attempts g))
                 (random w)).

Definition setEmitter (e : Vec2.t) : M unit :=
  fun w =>
    let g := this w in
    (tt, mkWorld (mkGame (maxBounces g) (walls g) (particles g) e
                         (target g) (attempts g))
                 (random w)).

Definition setTarget (c : Circle.t) : M unit :=
  fun w =>
    let g := this w in
    (tt, mkWorld (mkGame (maxBounces g) (walls g) (particles g) (emitter g)
                         c (attempts g))
                 (random w)).

Definition setParticles (ps : list Particle.t) : M unit :=
  fun w =>
    let g := this w in
    (tt, mkWorld (mkGame (maxBounces g) (walls g) ps (emitter g)
                         (target g) (attempts g))
                 (random w)).

Definition setAttempts (n : Z) : M unit :=
  fun w =>
    let g := this w in
    (tt, mkWorld (mkGame (maxBounces g) (walls g) (particles g) (emitter g)
                         (target g) n)
                 (random w)).

Definition setRandom (g : Rng) : M unit :=
  fun w => (tt, mkWorld (this w) g).

(** [list.forEach(f)] for a callback that acts on [this]. *)
Fixpoint forEach {A} (l : list A) (f : A -> M unit) : M unit :=
  match l with
  | [] => ret tt
  | a :: l' => let* _ := f a in forEach l' f
  end.

(** [wl => this.addWall(wl.x1 * w, wl.y1 * h, wl.x2 * w, wl.y2 * h,
    wl.type)] *)
Definition addScaled (w h : R) (wl : Spec.t) : M unit :=
  Game.addWall (Spec.x1 wl * w) (Spec.y1 wl * h)
               (Spec.x2 wl * w) (Spec.y2 wl * h) (Spec.type wl).

(** A line of the maze generator as the callback reads it. *)
Definition ofLine (l : MazeGenerator.Line) : Spec.t :=
  Spec.mk (Q2R (MazeGenerator.x1 l)) (Q2R (MazeGenerator.y1 l))
          (Q2R (MazeGenerator.x2 l)) (Q2R (MazeGenerator.y2 l))
          (MazeGenerator.type l).

(** The four mirrors along the border of the canvas. *)
Definition addBorder (w h : R) : M unit :=
  let border := "mirror"%string in
  let* _ := Game.addWall 0 0 w 0 border in
  let* _ := Game.addWall w 0 w h border in
  let* _ := Game.addWall w h 0 h border in
  Game.addWall 0 h 0 0 border.

(** The sizes of the maze: [cols = 10, rows = 6], then the two [if]s. *)
Definition mazeSize (complexity : Z) : Z * Z :=
  let size := (10, 6)%Z in
  let size := if (1 <=? complexity)%Z then (16, 9)%Z else size in
  if (2 <=? complexity)%Z then (22, 14)%Z else size.

(** The branch of [loadLevel] for a level of the campaign. *)
Definition loadStatic (w h : R) (L : Static.t) : M unit :=
  let* _ := setMaxBounces CONFIG.defaultMaxBounces in
  let* _ := setEmitter (Vec2.mk (Vec2.x (Static.emitter L) * w)
                                (Vec2.y (Static.emitter L) * h)) in
  let* _ := setTarget (Circle.mk (Vec2.x (Static.target L) * w)
                                 (Vec2.y (Static.target L) * h) 15) in
  forEach (Static.walls L) (addScaled w h).

(** The branch of [loadLevel] for a maze, after [generate] has
    returned. *)
Definition loadMaze (w h : R) (cols rows : Z)
           (maze : list MazeGenerator.Line) : M unit :=
  let cellW := w / IZR cols in
  let cellH := h / IZR rows in
  let* _ := setEmitter (Vec2.mk (cellW * (5 / 10)) (cellH * (5 / 10))) in
  let* _ := setTarget (Circle.mk (w - cellW * (5 / 10)) (h - cellH * (5 / 10))
                                 (Rmin cellW cellH * (3 / 10))) in
  forEach maze (fun wl => addScaled w h (ofLine wl)).

(** [if (!keepMap) { ... }]: the walls, the emitter and the target of
    the level. *)
Definition buildMap (fuel : nat) (w h : R) (index : Z) (wld : World)
  : MazeGenerator.Outcome World :=
  let wld := snd ((let* _ := setWalls [] in addBorder w h) wld) in
  if (index <? Z.of_nat (length staticLevels))%Z then
    match MazeGenerator.index staticLevels index with
    | Some L => MazeGenerator.Ok (snd (loadStatic w h L wld))
    | None => MazeGenerator.TypeError
    end
  else
    let complexity := (index - Z.of_nat (length staticLevels))%Z in
    let (cols, rows) := mazeSize complexity in
    let wld := snd (setMaxBounces CONFIG.complexMaxBounces wld) in
    match MazeGenerator.generate fuel cols rows (random wld) with
    | MazeGenerator.Ok (maze, rng) =>
        MazeGenerator.Ok
          (snd ((let* _ := setRandom rng in loadMaze w h cols rows maze) wld))
    | MazeGenerator.TypeError => MazeGenerator.TypeError
    | MazeGenerator.Thrown reason => MazeGenerator.Thrown reason
    | MazeGenerator.OutOfFuel => MazeGenerator.OutOfFuel
    end.

(** [this.levelRecords[index] || Infinity]: a record of zero counts as
    none. *)
Definition recordOf (records : gmap Z Z) (index : Z) : option Z :=
  match records !! index with
  | Some v => if (v =? 0)%Z then None else Some v
  | None => None
  end.

(** [loadLevel(index, keepMap)] for a canvas of [w] by [h]. *)
Definition loadLevel (fuel : nat) (w h : R) (index : Z) (keepMap : bool)
           (s : t) : MazeGenerator.Outcome t :=
  let wld := snd ((let* _ := setAttempts 0 in setParticles []) (world s)) in
  let s := mk wld index [] (mouse s) (totalSessionDistance s)
              (recordOf (levelRecords s) index) (levelRecords s) in
  if keepMap then MazeGenerator.Ok s
  else
    match buildMap fuel w h index wld with
    | MazeGenerator.Ok wld' =>
        MazeGenerator.Ok (mk wld' (levelIndex s) (history s) (mouse s)
                             (totalSessionDistance s) (currentLevelBest s)
                             (levelRecords s))
    | MazeGenerator.TypeError => MazeGenerator.TypeError
    | MazeGenerator.Thrown reason => MazeGenerator.Thrown reason
    | MazeGenerator.OutOfFuel => MazeGenerator.OutOfFuel
    end.

(** The particles of [handleWin(rayLen)]. *)
Definition handleWin : M unit :=
  times 50 (let* tg := gets target in
            Game.spawnParticles (Circle.pos tg) "#0f0" 15).

(** [rayLen < this.currentLevelBest] *)
Definition beats (rayLen : Z) (best : option Z) : bool :=
  match best with
  | Some b => (rayLen <? b)%Z
  | None => true
  end.

(** [shootRay()], with the value [now] of [Date.now()].  The boolean
    tells whether the page is left for [button.html]. *)
Definition shootRay (now : Z) (s : t) : bool * t :=
  let wld := world s in
  let wld := snd (setAttempts (attempts (this wld) + 1) wld) in
  let dir := Vec2.sub (mouse s) (emitter (this wld)) in
  let dir := if Reqb (Vec2.mag dir) 0 then Vec2.mk 1 0 else dir in
  let (result, wld) := Game.traceRay (emitter (this wld)) dir wld in
  let rayLen := Score.calculatePathLength (Game.path result) in
  let total := (totalSessionDistance s + rayLen)%Z in
  let improved := Game.success result && beats rayLen (currentLevelBest s) in
  let best := if improved then Some rayLen else currentLevelBest s in
  let records :=
    if improved then <[levelIndex s := rayLen]> (levelRecords s)
    else levelRecords s in
  let history :=
    Shot.mk (Game.path result) now (Game.success result)
            (if Game.success result then "#0f0"%string else colors_shot1)
    :: history s in
  let history :=
    if (10 <? length history)%nat then removelast history else history in
  let wld := if Game.success result then snd (handleWin wld) else wld in
  (negb (Game.success result) && (10 <=? attempts (this wld))%Z,
   mk wld (levelIndex s) history (mouse s) total best records).

(** [nextLevel()], [resetLevel()] and [retryLevel()] *)
Definition nextLevel (fuel : nat) (w h : R) (s : t) : MazeGenerator.Outcome t :=
  loadLevel fuel w h (levelIndex s + 1) false s.
Definition resetLevel (fuel : nat) (w h : R) (s : t) : MazeGenerator.Outcome t :=
  loadLevel fuel w h (levelIndex s) false s.
Definition retryLevel (fuel : nat) (w h : R) (s : t) : MazeGenerator.Outcome t :=
  loadLevel fuel w h (levelIndex s) true s.

(** [clearHistory()] *)
Definition clearHistory (s : t) : t :=
  mk (world s) (levelIndex s) [] (mouse s) (totalSessionDistance s)
     (currentLevelBest s) (levelRecords s).
End Session.
(** More vocabulary: levels and sessions. *)
Module Levels.
Import Plane.
Local Open Scope R_scope.

(** The four walls [loadLevel] puts along the border of a canvas of [w]
    by [h]. *)
Definition border (w h : R) : list Wall.t :=
  [ Game.newWall 0 0 w 0 "mirror"; Game.newWall w 0 w h "mirror";
    Game.newWall w h 0 h "mirror"; Game.newWall 0 h 0 0 "mirror" ].

(** The wall is a mirror or glass. *)
Definition optical (wl : Wall.t) : Prop :=
  Wall.type wl = "mirror"%string \/ Wall.type wl = "glass"%string.

(** The point is on the canvas of [w] by [h], more than [m] away from
    its border. *)
Definition inside (w h m : R) (p : Vec2.t) : Prop :=
  m < Vec2.x p < w - m /\ m < Vec2.y p < h - m.

(** The wall [addWall] builds for a wall of a level, on a canvas of [w]
    by [h]. *)
Definition scaled (w h : R) (wl : Spec.t) : Wall.t :=
  Game.newWall (Spec.x1 wl * w) (Spec.y1 wl * h)
               (Spec.x2 wl * w) (Spec.y2 wl * h) (Spec.type wl).

(** A game object with another list of walls. *)
Definition withWalls (g : PhotonGame) (ws : list Wall.t) : PhotonGame :=
  mkGame (maxBounces g) ws (particles g) (emitter g) (target g) (attempts g).

(** The direction [shootRay] hands to [traceRay]. *)
Definition aim (s : Session.t) : Vec2.t :=
  let dir := Vec2.sub (Session.mouse s) (emitter (this (Session.world s))) in
  if Reqb (Vec2.mag dir) 0 then Vec2.mk 1 0 else dir.

(** The result of the trace of a shot. *)
Definition shot (s : Session.t) : Game.TraceResult :=
  fst (Game.traceRay (emitter (this (Session.world s))) (aim s)
                     (Session.world s)).

(** The entry a shot puts at the head of the history. *)
Definition entry (now : Z) (s : Session.t) : Shot.t :=
  Shot.mk (Game.path (shot s)) now (Game.success (shot s))
          (if Game.success (shot s) then "#0f0"%string
           else Session.colors_shot1).

(** The session is in order: the history holds at most ten shots and no
    more than were made since the level was loaded, and a best score,
    when there is one, is the record stored for the level. *)
Definition tidy (s : Session.t) : Prop :=
  (length (Session.history s) <= 10)%nat
  /\ (Z.of_nat (length (Session.history s))
      <= attempts (this (Session.world s)))%Z
  /\ forall b, Session.currentLevelBest s = Some b ->
               Session.levelRecords s !! Session.levelIndex s = Some b.
End Levels.

From Stdlib Require Floats.

(* ====================================================================== *)
(** * The ray tracer on doubles

    The code of [vec2.js] and of the ray physics of [config.js] once
    more, with JavaScript numbers as what they are at run time: IEEE 754
    binary64 values, every operation rounded to nearest.  [Math.sqrt] is
    the correctly rounded square root.  [Math.hypot(a, b)] is taken as
    the rounded square root of the rounded [a * a + b * b], and
    [x ** 2] as [x * x].  The particle bursts, which the result of a
    trace does not depend on, are left out. *)

Module Double.
Import PrimFloat FloatOps SpecFloat.
Local Open Scope float_scope.
#[local] Set Warnings "-inexact-float".

(** A number in a condition: zero and [NaN] are falsy. *)
Definition truthy (m : float) : bool := negb (is_zero m || is_nan m).

(** The value of a double as a rational, and as a real number; zero for
    what is not finite. *)
Definition toQ (f : float) : Q :=
  match Prim2SF f with
  | S754_finite s m e =>
      let n := if s then Z.neg m else Z.pos m in
      match e with
      | Z.neg k => Qmake n (2 ^ k)
      | _ => inject_Z (n * 2 ^ e)
      end
  | _ => 0%Q
  end.

Definition toR (f : float) : R := Q2R (toQ f).

Module Vec2.
Record t : Type := mk { x : float; y : float }.

Definition hypot (a b : float) : float := sqrt (a * a + b * b).

Definition add (a b : t) : t := mk (x a + x b) (y a + y b).
Definition sub (a b : t) : t := mk (x a - x b) (y a - y b).
Definition mult (v : t) (n : float) : t := mk (x v * n) (y v * n).
Definition dot (a b : t) : float := x a * x b + y a * y b.
Definition mag (v : t) : float := hypot (x v) (y v).
Definition normalize (v : t) : t :=
  let m := hypot (x v) (y v) in
  if truthy m then mk (x v / m) (y v / m) else mk 0 0.
Definition dist (a b : t) : float := hypot (x a - x b) (y a - y b).
End Vec2.

Module Wall.
Record t : Type := mk {
  a : Vec2.t;
  b : Vec2.t;
  type : string;
  normal : Vec2.t
}.
End Wall.

Module Circle.
Record t : Type := mk { x : float; y : float; r : float }.
Definition pos (c : t) : Vec2.t := Vec2.mk (x c) (y c).
End Circle.

Module CONFIG.
Definition defaultMaxBounces : nat := 20.
Definition refractiveIndex : float := 1.5.
Definition airIndex : float := 1.0.
End CONFIG.

Module Game.

(** [calculateNormal(a, b)] *)
Definition calculateNormal (a b : Vec2.t) : Vec2.t :=
  let dx := Vec2.x b - Vec2.x a in
  let dy := Vec2.y b - Vec2.y a in
  Vec2.normalize (Vec2.mk (- dy) dx).

(** The wall object [addWall(x1, y1, x2, y2, type)] pushes. *)
Definition newWall (x1 y1 x2 y2 : float) (ty : string) : Wall.t :=
  Wall.mk (Vec2.mk x1 y1) (Vec2.mk x2 y2) ty
          (calculateNormal (Vec2.mk x1 y1) (Vec2.mk x2 y2)).

Record Hit : Type := mkHit { t : float; point : Vec2.t }.

(** [getLineIntersection(p, d, a, b)] *)
Definition getLineIntersection (p d a b : Vec2.t) : option Hit :=
  let v1 := Vec2.mk (Vec2.x p - Vec2.x a) (Vec2.y p - Vec2.y a) in
  let v2 := Vec2.mk (Vec2.x b - Vec2.x a) (Vec2.y b - Vec2.y a) in
  let v3 := Vec2.mk (- Vec2.y d) (Vec2.x d) in
  let dot := Vec2.dot v2 v3 in
  if abs dot <? 0.00001 then None
  else
    let t1 := (Vec2.x v2 * Vec2.y v1 - Vec2.y v2 * Vec2.x v1) / dot in
    let t2 := Vec2.dot v1 v3 / dot in
    if (0 <=? t1) && (0 <=? t2) && (t2 <=? 1)
    then Some (mkHit t1 (Vec2.mk (Vec2.x p + t1 * Vec2.x d)
                                 (Vec2.y p + t1 * Vec2.y d)))
    else None.

(** [Math.min] and [Math.max], up to the sign of a zero result. *)
Definition Math_min (a b : float) : float :=
  if is_nan a || is_nan b then nan else if b <? a then b else a.
Definition Math_max (a b : float) : float :=
  if is_nan a || is_nan b then nan else if a <? b then b else a.

(** [segmentCircleIntersect(p1, p2, circle)] *)
Definition segmentCircleIntersect (p1 p2 : Vec2.t) (circle : Circle.t) : bool :=
  let L2 := Vec2.dist p1 p2 * Vec2.dist p1 p2 in
  if L2 =? 0 then Vec2.dist p1 (Circle.pos circle) <? Circle.r circle
  else
    let t := ((Circle.x circle - Vec2.x p1) * (Vec2.x p2 - Vec2.x p1)
              + (Circle.y circle - Vec2.y p1) * (Vec2.y p2 - Vec2.y p1)) / L2 in
    let t := Math_max 0 (Math_min 1 t) in
    let proj := Vec2.mk (Vec2.x p1 + t * (Vec2.x p2 - Vec2.x p1))
                        (Vec2.y p1 + t * (Vec2.y p2 - Vec2.y p1)) in
    Vec2.dist (Circle.pos circle) proj <? Circle.r circle.

Definition epsilon : float := 0.01.

Record Nearest : Type := mkNearest {
  minT : float; closest : Vec2.t; hitWall : Wall.t
}.

(** The body of [for (let wall of this.walls)]; [None] stands for the
    initial values [Infinity], [null], [null]. *)
Definition scanWall (currPos currDir : Vec2.t) (acc : option Nearest)
           (wall : Wall.t) : option Nearest :=
  match getLineIntersection currPos currDir (Wall.a wall) (Wall.b wall) with
  | Some hit =>
      if (epsilon <? t hit)
         && (t hit <? match acc with
                      | None => infinity
                      | Some n => minT n
                      end)
      then Some (mkNearest (t hit) (point hit) wall)
      else acc
  | None => acc
  end.

Definition nearestHit (ws : list Wall.t) (currPos currDir : Vec2.t)
  : option Nearest :=
  fold_left (scanWall currPos currDir) ws None.

Record Ray : Type := mkRay {
  points : list Vec2.t;
  currPos : Vec2.t;
  currDir : Vec2.t;
  hitTarget : bool
}.

Definition reflect (currDir normal : Vec2.t) : Vec2.t :=
  Vec2.sub currDir (Vec2.mult normal (2 * Vec2.dot currDir normal)).

(** The new [currDir] of the mirror branch. *)
Definition mirrorDir (currDir normal0 : Vec2.t) : Vec2.t :=
  let normal :=
    if 0 <? Vec2.dot currDir normal0 then Vec2.mult normal0 (-1)
    else normal0 in
  Vec2.normalize (reflect currDir normal).

(** The new [currDir] of the glass branch. *)
Definition glassDir (currDir normal0 : Vec2.t) : Vec2.t :=
  let entering := Vec2.dot currDir normal0 <? 0 in
  let normal := if entering then normal0 else Vec2.mult normal0 (-1) in
  let n1 := if entering then CONFIG.airIndex else CONFIG.refractiveIndex in
  let n2 := if entering then CONFIG.refractiveIndex else CONFIG.airIndex in
  let n := n1 / n2 in
  let cosI := - Vec2.dot normal currDir in
  let sinT2 := n * n * (1 - cosI * cosI) in
  if 1.0 <? sinT2 then Vec2.normalize (reflect currDir normal)
  else
    let cosT := sqrt (1 - sinT2) in
    let term1 := Vec2.mult currDir n in
    let term2 := Vec2.mult normal (n * cosI - cosT) in
    Vec2.add term1 term2.

(** One execution of the body of the loop of [traceRay]: the locals
    after it, and whether the loop goes on. *)
Definition bounceStep (ws : list Wall.t) (tg : Circle.t) (st : Ray)
  : Ray * bool :=
  match nearestHit ws (currPos st) (currDir st) with
  | Some n =>
      let hitTarget' :=
        if segmentCircleIntersect (currPos st) (closest n) tg
        then true else hitTarget st in
      let points' := points st ++ [closest n] in
      if String.eqb (Wall.type (hitWall n)) "absorb"
      then (mkRay points' (currPos st) (currDir st) hitTarget', false)
      else
        let st' :=
          if String.eqb (Wall.type (hitWall n)) "mirror" then
            mkRay points' (closest n)
                  (mirrorDir (currDir st) (Wall.normal (hitWall n)))
                  hitTarget'
          else if String.eqb (Wall.type (hitWall n)) "glass" then
            mkRay points' (closest n)
                  (glassDir (currDir st) (Wall.normal (hitWall n)))
                  hitTarget'
          else mkRay points' (currPos st) (currDir st) hitTarget' in
        (st', negb hitTarget')
  | None =>
      (mkRay (points st
                ++ [Vec2.mk (Vec2.x (currPos st) + Vec2.x (currDir st) * 2000)
                            (Vec2.y (currPos st) + Vec2.y (currDir st) * 2000)])
             (currPos st) (currDir st) (hitTarget st),
       false)
  end.

(** The loop, with [n] iterations left. *)
Fixpoint bounceLoop (n : nat) (ws : list Wall.t) (tg : Circle.t) (st : Ray)
  : Ray :=
  match n with
  | O => st
  | S n' =>
      let r := bounceStep ws tg st in
      if snd r then bounceLoop n' ws tg (fst r) else fst r
  end.

Record TraceResult : Type := mkResult { path : list Vec2.t; success : bool }.

(** The locals of [traceRay(start, dir)] when its loop is left. *)
Definition traceLoop (maxBounces : nat) (ws : list Wall.t) (tg : Circle.t)
           (start dir : Vec2.t) : Ray :=
  bounceLoop maxBounces ws tg (mkRay [start] start (Vec2.normalize dir) false).

(** [traceRay(start, dir)] *)
Definition traceRay (maxBounces : nat) (ws : list Wall.t) (tg : Circle.t)
           (start dir : Vec2.t) : TraceResult :=
  let e := traceLoop maxBounces ws tg start dir in
  mkResult (points e) (hitTarget e).
End Game.

(** A level of the campaign, as [loadLevel] builds it. *)
Module Level.

(** A wall of an entry of [this.staticLevels]. *)
Record Spec : Type := mkSpec {
  x1 : float; y1 : float; x2 : float; y2 : float; type : string
}.

(** An entry of [this.staticLevels]. *)
Record t : Type := mk {
  name : string;
  emitter : Vec2.t;
  target : Vec2.t;
  walls : list Spec
}.

(** The first entry. *)
Definition RICOCHET : t :=
  mk "RICOCHET" (Vec2.mk 0.1 0.5) (Vec2.mk 0.9 0.5)
     [ mkSpec 0.5 0.4 0.5 0.6 "mirror";
       mkSpec 0.3 0.1 0.7 0.1 "mirror";
       mkSpec 0.3 0.9 0.7 0.9 "mirror" ].

(** The fields of the game a trace reads. *)
Record Map : Type := mkMap {
  maxBounces : nat;
  mapWalls : list Wall.t;
  mapEmitter : Vec2.t;
  mapTarget : Circle.t
}.

(** The four mirrors along the border of a canvas of [w] by [h]. *)
Definition border (w h : float) : list Wall.t :=
  [ Game.newWall 0 0 w 0 "mirror"; Game.newWall w 0 w h "mirror";
    Game.newWall w h 0 h "mirror"; Game.newWall 0 h 0 0 "mirror" ].

(** The branch [index < this.staticLevels.length] of [loadLevel], for
    the entry [L] on a canvas of [w] by [h]. *)
Definition loadLevel (w h : float) (L : t) : Map :=
  mkMap CONFIG.defaultMaxBounces
        (border w h
         ++ List.map (fun wl => Game.newWall (x1 wl * w) (y1 wl * h)
                                             (x2 wl * w) (y2 wl * h)
                                             (type wl))
                     (walls L))
        (Vec2.mk (Vec2.x (emitter L) * w) (Vec2.y (emitter L) * h))
        (Circle.mk (Vec2.x (target L) * w) (Vec2.y (target L) * h) 15).

(** The first wall scan of a trace from the emitter. *)
Definition firstScan (m : Map) (dir : Vec2.t) : option Game.Nearest :=
  Game.nearestHit (mapWalls m) (mapEmitter m) (Vec2.normalize dir).

(** [traceRay(this.emitter, dir)] *)
Definition shot (m : Map) (dir : Vec2.t) : Game.TraceResult :=
  Game.traceRay (maxBounces m) (mapWalls m) (mapTarget m) (mapEmitter m) dir.
End Level.

(** A row of [k] glass walls, upright, ten apart, each built by
    [addWall(x, 1000, x, -1000, 'glass')], so that its stored normal is
    (1, 0). *)
Module GlassRow.
Fixpoint walls (k : nat) (x : float) : list Wall.t :=
  match k with
  | O => []
  | S k' => Game.newWall x 1000 x (-1000) "glass" :: walls k' (x + 10)
  end.
Definition target : Circle.t := Circle.mk 0 5000 15.
End GlassRow.
End Double.

(** The point with the same coordinates in the model over the reals. *)
Module Exact.
Definition real (v : Double.Vec2.t) : Vec2.t :=
  Vec2.mk (Double.toR (Double.Vec2.x v)) (Double.toR (Double.Vec2.y v)).
End Exact.
(* ====================================================================== *)
(** * Facts about the comparisons and about [Vec2] *)

Section Comparisons.
Local Open Scope R_scope.

Lemma Rltb_true a b : Rltb a b = true <-> a < b.
Proof. unfold Rltb. destruct (Rlt_dec a b); split; intros; try easy. Qed.

Lemma Rltb_false a b : Rltb a b = false <-> b <= a.
Proof.
  unfold Rltb. destruct (Rlt_dec a b); split; intros; try easy; lra.
Qed.

Lemma Rleb_true a b : Rleb a b = true <-> a <= b.
Proof. unfold Rleb. destruct (Rle_dec a b); split; intros; try easy. Qed.

Lemma Rleb_false a b : Rleb a b = false <-> b < a.
Proof.
  unfold Rleb. destruct (Rle_dec a b); split; intros; try easy; lra.
Qed.

Lemma Reqb_true a b : Reqb a b = true <-> a = b.
Proof. unfold Reqb. destruct (Req_dec_T a b); split; intros; try easy. Qed.

Lemma Reqb_false a b : Reqb a b = false <-> a <> b.
Proof. unfold Reqb. destruct (Req_dec_T a b); split; intros; try easy. Qed.
End Comparisons.

(** Decide a comparison whose two sides are known numbers or follow from
  the hypotheses. *)
Ltac Rdecide :=
repeat match goal with
  | |- context [Rltb ?a ?b] =>
      first [ replace (Rltb a b) with true
                by (symmetry; apply Rltb_true; lra)
            | replace (Rltb a b) with false
                by (symmetry; apply Rltb_false; lra) ]
  | |- context [Rleb ?a ?b] =>
      first [ replace (Rleb a b) with true
                by (symmetry; apply Rleb_true; lra)
            | replace (Rleb a b) with false
                by (symmetry; apply Rleb_false; lra) ]
  | |- context [Reqb ?a ?b] =>
      first [ replace (Reqb a b) with true
                by (symmetry; apply Reqb_true; lra)
            | replace (Reqb a b) with false
                by (symmetry; apply Reqb_false; lra) ]
  end.

Module Vec2Facts.
Local Open Scope R_scope.
Import Vec2.

Lemma vec_eq a b c d : a = c -> b = d -> mk a b = mk c d.
Proof. intros -> ->; reflexivity. Qed.

Lemma hypot_nonneg a b : 0 <= hypot a b.
Proof. apply sqrt_pos. Qed.

Lemma hypot_sqr a b : hypot a b * hypot a b = a * a + b * b.
Proof. unfold hypot. apply sqrt_sqrt. nra. Qed.

Lemma hypot_zero a b : hypot a b = 0 <-> a = 0 /\ b = 0.
Proof.
  split.
  - intros H. pose proof (hypot_sqr a b) as E. rewrite H in E. nra.
  - intros [-> ->]. unfold hypot.
    replace (0 * 0 + 0 * 0) with 0 by ring. apply sqrt_0.
Qed.

(** A length from its square. *)
Lemma hypot_of_square a b m : 0 <= m -> a * a + b * b = m * m -> hypot a b = m.
Proof. intros Hm E. unfold hypot. rewrite E. apply sqrt_square, Hm. Qed.

Lemma hypot_lt a b m : hypot a b < m <-> 0 < m /\ a * a + b * b < m * m.
Proof.
  pose proof (hypot_nonneg a b) as Hn. pose proof (hypot_sqr a b) as Hs.
  split.
  - intros H. split; nra.
  - intros [Hm H]. destruct (Rlt_dec (hypot a b) m) as [|Hge]; [assumption|].
    exfalso. apply Rnot_lt_le in Hge. nra.
Qed.

Lemma hypot_le_mono a b c d :
  a * a + b * b <= c * c + d * d -> hypot a b <= hypot c d.
Proof. intros H. unfold hypot. apply sqrt_le_1_alt, H. Qed.

Lemma mag_one_dot v : mag v = 1 <-> dot v v = 1.
Proof.
  unfold mag, dot. pose proof (hypot_sqr (x v) (y v)) as Hs.
  pose proof (hypot_nonneg (x v) (y v)) as Hn. split.
  - intros H. rewrite H in Hs. lra.
  - intros H. apply hypot_of_square; lra.
Qed.

(** A unit vector is its own normalization. *)
Lemma normalize_unit v : mag v = 1 -> normalize v = v.
Proof.
  unfold mag, normalize. intros ->. Rdecide. destruct v as [a b]; simpl.
  apply vec_eq; field.
Qed.

(** The normalization of a vector other than zero has length one. *)
Lemma normalize_mag v : mag v <> 0 -> mag (normalize v) = 1.
Proof.
  unfold mag, normalize. intros Hm.
  pose proof (proj2 (Reqb_false _ _) Hm) as ->. simpl.
  pose proof (hypot_sqr (x v) (y v)) as Hs.
  pose proof (hypot_nonneg (x v) (y v)) as Hn.
  apply hypot_of_square; [lra|].
  set (m := hypot (x v) (y v)) in *.
  replace (x v / m * (x v / m) + y v / m * (y v / m))
    with ((x v * x v + y v * y v) / (m * m)) by (field; assumption).
  rewrite <- Hs. field. assumption.
Qed.
End Vec2Facts.

(* ====================================================================== *)
(** * The loop of [traceRay] *)

Module LoopFacts.
Import Game Scene.
Local Open Scope R_scope.

Lemma grown_refl w : grown 0 w w.
Proof.
  exists []. split; [reflexivity|].
  destruct w as [[] []]; unfold withParticles; simpl.
  rewrite app_nil_r. reflexivity.
Qed.

Lemma grown_trans k1 k2 w1 w2 w3 :
  grown k1 w1 w2 -> grown k2 w2 w3 -> grown (k1 + k2) w1 w3.
Proof.
  intros (n1 & L1 & ->) (n2 & L2 & ->). exists (n1 ++ n2). split.
  - rewrite length_app. lia.
  - unfold withParticles; simpl. rewrite <- app_assoc.
    do 2 f_equal. lia.
Qed.

Lemma grown_scene k w w' :
  grown k w w' ->
  maxBounces (this w') = maxBounces (this w)
  /\ walls (this w') = walls (this w)
  /\ target (this w') = target (this w)
  /\ emitter (this w') = emitter (this w)
  /\ attempts (this w') = attempts (this w).
Proof. intros (new & _ & ->). simpl. repeat split. Qed.

(** A burst pushes three particles and takes six draws. *)
Lemma spawnParticles_run pos color s w :
  fst (spawnParticles pos color s w) = tt
  /\ grown 1 w (snd (spawnParticles pos color s w)).
Proof.
  split; [destruct (fst _); reflexivity|].
  destruct w as [g rng]. unfold grown.
  cbv [spawnParticles times bind ret Math_random pushParticle nextDraw
       this random snd fst].
  eexists [_; _; _]. split; [reflexivity|].
  unfold withParticles; simpl. rewrite <- !app_assoc. reflexivity.
Qed.

Local Opaque spawnParticles.

(** One iteration: its value depends on the walls and the target only,
    and it leaves the world as it was up to at most one burst. *)
Lemma bounceStep_run st w :
  fst (bounceStep st w) = stepIn (walls (this w)) (target (this w)) st
  /\ exists k, (k <= 1)%nat /\ grown k w (snd (bounceStep st w)).
Proof.
  unfold stepIn, bounceStep, bind, gets, ret; simpl.
  destruct (nearestHit _ _ _) as [n|]; simpl.
  2:{ split; [reflexivity|]. exists 0%nat. split; [lia|apply grown_refl]. }
  destruct (String.eqb (Wall.type (hitWall n)) "absorb"); simpl.
  { split; [reflexivity|]. exists 0%nat. split; [lia|apply grown_refl]. }
  destruct (String.eqb (Wall.type (hitWall n)) "mirror"); simpl.
  { destruct (spawnParticles_run (closest n) CONFIG.colors_wall 2 w)
      as [_ Hg].
    destruct (spawnParticles _ _ _ w) as [u w'].
    destruct (spawnParticles _ _ _ _) as [u0 w0]. simpl.
    split; [reflexivity|]. exists 1%nat. split; [lia|exact Hg]. }
  destruct (String.eqb (Wall.type (hitWall n)) "glass"); simpl.
  { destruct (spawnParticles_run (closest n) "#fff" 1 w) as [_ Hg].
    destruct (spawnParticles _ _ _ w) as [u w'].
    destruct (spawnParticles _ _ _ _) as [u0 w0]. simpl.
    split; [reflexivity|]. exists 1%nat. split; [lia|exact Hg]. }
  split; [reflexivity|]. exists 0%nat. split; [lia|apply grown_refl].
Qed.

(** The value of an iteration that finds no wall. *)
Lemma stepIn_escape ws tg st :
  nearestHit ws (currPos st) (currDir st) = None ->
  stepIn ws tg st
  = (mkRay (points st ++ [farPoint (currPos st) (currDir st)])
           (currPos st) (currDir st) (hitTarget st),
     Break AtEscape).
Proof.
  intros H. unfold stepIn, bounceStep, bind, gets, ret; simpl.
  rewrite H. reflexivity.
Qed.

(** The value of an iteration that finds a wall. *)
Lemma stepIn_hit ws tg st n :
  nearestHit ws (currPos st) (currDir st) = Some n ->
  let hit' := segmentCircleIntersect (currPos st) (closest n) tg
              || hitTarget st in
  let pts' := points st ++ [closest n] in
  let ty := Wall.type (hitWall n) in
  stepIn ws tg st
  = if String.eqb ty "absorb"
    then (mkRay pts' (currPos st) (currDir st) hit', Break AtAbsorb)
    else (if String.eqb ty "mirror"
          then mkRay pts' (closest n)
                     (mirrorDir (currDir st) (Wall.normal (hitWall n))) hit'
          else if String.eqb ty "glass"
          then mkRay pts' (closest n)
                     (glassDir (currDir st) (Wall.normal (hitWall n))) hit'
          else mkRay pts' (currPos st) (currDir st) hit',
          if hit' then Break AtTarget else Next).
Proof.
  intros H. unfold stepIn, bounceStep, bind, gets, ret; simpl.
  rewrite H.
  replace (if segmentCircleIntersect (currPos st) (closest n) tg
           then true else hitTarget st)
    with (segmentCircleIntersect (currPos st) (closest n) tg || hitTarget st)
    by (destruct (segmentCircleIntersect _ _ _); reflexivity).
  destruct (String.eqb _ "absorb"); [reflexivity|].
  destruct (String.eqb _ "mirror").
  { destruct (spawnParticles _ _ _ _) as [u w']. reflexivity. }
  destruct (String.eqb _ "glass").
  { destruct (spawnParticles _ _ _ _) as [u w']. reflexivity. }
  reflexivity.
Qed.

(** Every iteration appends one point. *)
Lemma stepIn_points ws tg st :
  exists p, points (fst (stepIn ws tg st)) = points st ++ [p].
Proof.
  destruct (nearestHit ws (currPos st) (currDir st)) as [n|] eqn:H.
  - rewrite (stepIn_hit ws tg st n H). exists (closest n).
    repeat (destruct (String.eqb _ _)); reflexivity.
  - rewrite (stepIn_escape ws tg st H). eexists; reflexivity.
Qed.

(** An iteration after which the loop goes on has not seen the target. *)
Lemma stepIn_next ws tg st :
  snd (stepIn ws tg st) = Next -> hitTarget (fst (stepIn ws tg st)) = false.
Proof.
  destruct (nearestHit ws (currPos st) (currDir st)) as [n|] eqn:H.
  - rewrite (stepIn_hit ws tg st n H).
    destruct (String.eqb _ "absorb"); simpl; [discriminate|].
    destruct (segmentCircleIntersect _ _ _ || hitTarget st) eqn:E;
      [discriminate|].
    intros _. repeat (destruct (String.eqb _ _)); reflexivity.
  - rewrite (stepIn_escape ws tg st H). discriminate.
Qed.

(** The escape branch leaves [hitTarget] as it found it. *)
Lemma stepIn_at_escape ws tg st :
  snd (stepIn ws tg st) = Break AtEscape ->
  hitTarget (fst (stepIn ws tg st)) = hitTarget st.
Proof.
  destruct (nearestHit ws (currPos st) (currDir st)) as [n|] eqn:H.
  - rewrite (stepIn_hit ws tg st n H).
    destruct (String.eqb _ "absorb"); simpl; [discriminate|].
    destruct (segmentCircleIntersect _ _ _ || hitTarget st); discriminate.
  - rewrite (stepIn_escape ws tg st H). reflexivity.
Qed.

(** The loop: its value depends on the walls and the target only, and it
    leaves the world as it was up to at most one burst an iteration. *)
Lemma bounceLoop_run n : forall i st w,
  fst (bounceLoop n i st w) = loopIn (walls (this w)) (target (this w)) n i st
  /\ exists k, (k <= n)%nat /\ grown k w (snd (bounceLoop n i st w)).
Proof.
  induction n as [|n IH]; intros i st w.
  - split; [reflexivity|]. exists 0%nat. split; [lia|apply grown_refl].
  - unfold loopIn. simpl. unfold bind.
    destruct (bounceStep_run st w) as [Hv (k & Hk & Hg)].
    pose proof (bounceStep_run st (bare 0 (walls (this w)) (target (this w))))
      as [Hv0 (k0 & Hk0 & Hg0)].
    simpl in Hv0. rewrite <- Hv in Hv0.
    destruct (bounceStep st w) as [r w'].
    destruct (bounceStep st (bare _ _ _)) as [r0 w0].
    simpl in *. subst r0.
    destruct (snd r) as [|site].
    + destruct (IH (S i) (fst r) w') as [Hl (k' & Hk' & Hg')].
      destruct (IH (S i) (fst r) w0) as [Hl0 _].
      destruct (grown_scene _ _ _ Hg) as (_ & Ew & Et & _).
      destruct (grown_scene _ _ _ Hg0) as (_ & Ew0 & Et0 & _).
      simpl in Ew0, Et0.
      rewrite Hl, Hl0, Ew, Et, Ew0, Et0. split; [reflexivity|].
      exists (k + k')%nat. split; [lia|]. eapply grown_trans; eassumption.
    + split; [reflexivity|]. exists k. split; [lia|exact Hg].
Qed.

Lemma loopIn_zero ws tg i st : loopIn ws tg 0 i st = mkLoopEnd st i Exhausted.
Proof. reflexivity. Qed.

(** The loop, one iteration at a time. *)
Lemma loopIn_succ ws tg n i st :
  loopIn ws tg (S n) i st
  = match snd (stepIn ws tg st) with
    | Break site => mkLoopEnd (fst (stepIn ws tg st)) (S i) (Broke site)
    | Next => loopIn ws tg n (S i) (fst (stepIn ws tg st))
    end.
Proof.
  unfold loopIn at 1. simpl. unfold bind, stepIn.
  pose proof (bounceStep_run st (bare 0 ws tg)) as [_ (k & _ & Hg)].
  destruct (bounceStep st (bare 0 ws tg)) as [r w']. simpl in *.
  destruct (snd r); [|reflexivity].
  destruct (bounceLoop_run n (S i) (fst r) w') as [-> _].
  destruct (grown_scene _ _ _ Hg) as (_ & -> & -> & _). reflexivity.
Qed.

(** [traceRay] in terms of the loop. *)
Lemma traceRay_run start dir w :
  let e := loopIn (walls (this w)) (target (this w))
                  (Z.to_nat (maxBounces (this w))) 0
                  (mkRay [start] start (Vec2.normalize dir) false) in
  traceLoop start dir w = (e, snd (traceRay start dir w))
  /\ fst (traceRay start dir w)
     = mkResult (points (final e)) (hitTarget (final e))
  /\ exists k, (k <= Z.to_nat (maxBounces (this w)))%nat
               /\ grown k w (snd (traceRay start dir w)).
Proof.
  intros e. unfold traceRay, traceLoop, bind, gets, ret. cbn [fst snd].
  destruct (bounceLoop_run (Z.to_nat (maxBounces (this w))) 0
              (mkRay [start] start (Vec2.normalize dir) false) w)
    as [Hv Hk].
  destruct (bounceLoop _ _ _ w) as [e' w']. cbn [fst snd] in *.
  subst e'. fold e. repeat split; assumption.
Qed.

(** What the loop guarantees, whatever the scene: the body runs at most
    [n] more times and appends one point each time; a loop that runs to
    its bound, or leaves through the escape branch, without the target
    seen before it started, ends with the target not seen. *)
Lemma loopIn_bounds ws tg n : forall i st,
  let e := loopIn ws tg n i st in
  (i <= iterations e <= i + n)%nat
  /\ length (points (final e)) = (length (points st) + (iterations e - i))%nat
  /\ (exit e = Exhausted -> iterations e = (i + n)%nat)
  /\ (hitTarget st = false ->
      exit e = Exhausted \/ exit e = Broke AtEscape ->
      hitTarget (final e) = false).
Proof.
  induction n as [|n IH]; intros i st; cbn zeta.
  - rewrite loopIn_zero; simpl. repeat split; try lia. auto.
  - rewrite loopIn_succ.
    destruct (stepIn_points ws tg st) as [p Hp].
    pose proof (stepIn_next ws tg st) as Hn.
    pose proof (stepIn_at_escape ws tg st) as He.
    destruct (snd (stepIn ws tg st)) as [|site]; simpl.
    + specialize (IH (S i) (fst (stepIn ws tg st))). cbn zeta in IH.
      destruct IH as (Hi & Hl & Hx & Hh). rewrite Hp, length_app in Hl.
      simpl in Hl. repeat split; try lia.
      * intros E. specialize (Hx E). lia.
      * intros _ E. apply Hh; [apply Hn; reflexivity|exact E].
    + rewrite Hp, length_app; simpl. repeat split; try lia.
      * discriminate.
      * intros H0 [E|E]; [discriminate|]. injection E as ->.
        rewrite He; [exact H0|reflexivity].
Qed.

(** A loop that leaves through the escape branch ends its path with
    the far point of its last position and direction. *)
Lemma loopIn_escape_shape ws tg n : forall i st,
  let e := loopIn ws tg n i st in
  exit e = Broke AtEscape ->
  nearestHit ws (currPos (final e)) (currDir (final e)) = None
  /\ exists pts,
       points (final e)
       = pts ++ [farPoint (currPos (final e)) (currDir (final e))].
Proof.
  induction n as [|n IH]; intros i st; cbn zeta.
  - rewrite loopIn_zero; simpl. discriminate.
  - rewrite loopIn_succ.
    destruct (nearestHit ws (currPos st) (currDir st)) as [h|] eqn:H.
    + pose proof (stepIn_hit ws tg st h H) as E. cbn zeta in E.
      destruct (snd (stepIn ws tg st)) as [|site] eqn:F.
      * apply IH.
      * simpl. intros X. injection X as ->. exfalso.
        rewrite E in F.
        destruct (String.eqb _ "absorb"); simpl in F; [discriminate|].
        destruct (_ || _); discriminate.
    + rewrite (stepIn_escape ws tg st H). simpl. intros _.
      split; [exact H|]. exists (points st). reflexivity.
Qed.

(** The direction after a hit on a mirror or on glass. *)
Lemma stepIn_mirror ws tg st h :
  nearestHit ws (currPos st) (currDir st) = Some h ->
  Wall.type (hitWall h) = "mirror"%string ->
  currDir (fst (stepIn ws tg st))
  = mirrorDir (currDir st) (Wall.normal (hitWall h)).
Proof.
  intros H T. rewrite (stepIn_hit ws tg st h H), T. reflexivity.
Qed.

Lemma stepIn_glass ws tg st h :
  nearestHit ws (currPos st) (currDir st) = Some h ->
  Wall.type (hitWall h) = "glass"%string ->
  currDir (fst (stepIn ws tg st))
  = glassDir (currDir st) (Wall.normal (hitWall h)).
Proof.
  intros H T. rewrite (stepIn_hit ws tg st h H), T. reflexivity.
Qed.

(** A hit on a mirror costs one burst. *)
Lemma bounceStep_mirror_burst st w h :
  nearestHit (walls (this w)) (currPos st) (currDir st) = Some h ->
  Wall.type (hitWall h) = "mirror"%string ->
  grown 1 w (snd (bounceStep st w)).
Proof.
  intros H T. unfold bounceStep, bind, gets, ret. cbn [fst snd].
  rewrite H, T. cbn [String.eqb Ascii.eqb Bool.eqb].
  destruct (spawnParticles_run (closest h) CONFIG.colors_wall 2 w)
    as [_ Hg].
  destruct (spawnParticles _ _ _ w) as [u w']. exact Hg.
Qed.

(** A loop whose first iteration hits a mirror leaves at least one
    burst behind. *)
Lemma bounceLoop_mirror_burst n i st w h :
  nearestHit (walls (this w)) (currPos st) (currDir st) = Some h ->
  Wall.type (hitWall h) = "mirror"%string ->
  exists k, (1 <= k)%nat /\ grown k w (snd (bounceLoop (S n) i st w)).
Proof.
  intros H T. pose proof (bounceStep_mirror_burst st w h H T) as Hg.
  cbn [bounceLoop]. unfold bind.
  destruct (bounceStep st w) as [r w']. cbn [snd] in Hg.
  destruct (snd r).
  - destruct (bounceLoop_run n (S i) (fst r) w') as [_ (k & _ & Hk)].
    exists (1 + k)%nat. split; [lia|]. eapply grown_trans; eassumption.
  - exists 1%nat. split; [lia|exact Hg].
Qed.

(** The bursts of an iteration, exactly. *)
Lemma bounceStep_bursts st w :
  grown (burstOf (walls (this w)) st) w (snd (bounceStep st w)).
Proof.
  unfold burstOf, bounceStep, bind, gets, ret. cbn [fst snd].
  destruct (nearestHit _ _ _) as [h|]; [|apply grown_refl].
  destruct (String.eqb (Wall.type (hitWall h)) "absorb") eqn:Ea.
  { apply String.eqb_eq in Ea. rewrite Ea. apply grown_refl. }
  destruct (String.eqb (Wall.type (hitWall h)) "mirror"); cbn [orb].
  { destruct (spawnParticles_run (closest h) CONFIG.colors_wall 2 w)
      as [_ Hg].
    destruct (spawnParticles _ _ _ w) as [u w']. exact Hg. }
  destruct (String.eqb (Wall.type (hitWall h)) "glass").
  { destruct (spawnParticles_run (closest h) "#fff" 1 w) as [_ Hg].
    destruct (spawnParticles _ _ _ w) as [u w']. exact Hg. }
  apply grown_refl.
Qed.

(** The bursts of the loop, exactly. *)
Lemma bounceLoop_bursts n : forall i st w,
  grown (burstsIn (walls (this w)) (target (this w)) n st) w
        (snd (bounceLoop n i st w)).
Proof.
  induction n as [|n IH]; intros i st w.
  - apply grown_refl.
  - cbn [bounceLoop burstsIn]. unfold bind.
    pose proof (bounceStep_bursts st w) as Hg.
    pose proof (proj1 (bounceStep_run st w)) as Hv.
    destruct (bounceStep st w) as [r w']. cbn [fst snd] in *.
    rewrite <- Hv.
    destruct (grown_scene _ _ _ Hg) as (_ & Ew & Et & _).
    destruct (snd r).
    + eapply grown_trans; [exact Hg|].
      rewrite <- Ew, <- Et. apply IH.
    + rewrite Nat.add_0_r. exact Hg.
Qed.

Lemma burstsIn_le ws tg n : forall st, (burstsIn ws tg n st <= n)%nat.
Proof.
  induction n as [|n IH]; intros st; [reflexivity|].
  cbn [burstsIn].
  assert (burstOf ws st <= 1)%nat.
  { unfold burstOf. destruct (nearestHit _ _ _); [|lia].
    destruct (_ || _); lia. }
  destruct (snd (stepIn ws tg st)); [specialize (IH (fst (stepIn ws tg st)))|];
    lia.
Qed.

(** The world [traceRay] leaves. *)
Lemma traceRay_bursts start dir w :
  grown (burstsIn (walls (this w)) (target (this w))
                  (Z.to_nat (maxBounces (this w)))
                  (mkRay [start] start (Vec2.normalize dir) false))
        w (snd (traceRay start dir w)).
Proof.
  pose proof (bounceLoop_bursts (Z.to_nat (maxBounces (this w))) 0
                (mkRay [start] start (Vec2.normalize dir) false) w) as Hg.
  unfold traceRay, traceLoop, bind, gets, ret. cbn [fst snd].
  destruct (bounceLoop _ _ _ w) as [e w']. exact Hg.
Qed.
End LoopFacts.

(* ====================================================================== *)
(** * Geometry: the target test, reflection, refraction *)

Module Geometry.
Import Game Scene Vec2Facts.
Local Open Scope R_scope.

(** The clamped projection is the point of the segment closest to the
    centre. *)
Lemma clamped_projection_minimal (A B dx dy t0 s : R) :
  0 < dx * dx + dy * dy ->
  t0 * (dx * dx + dy * dy) = A * dx + B * dy ->
  0 <= s <= 1 ->
  let t := Rmax 0 (Rmin 1 t0) in
  (A - t * dx) * (A - t * dx) + (B - t * dy) * (B - t * dy)
  <= (A - s * dx) * (A - s * dx) + (B - s * dy) * (B - s * dy).
Proof.
  intros HL HK Hs t. set (L2 := dx * dx + dy * dy) in *.
  assert (E : forall u,
             (A - u * dx) * (A - u * dx) + (B - u * dy) * (B - u * dy)
             = A * A + B * B - 2 * u * (t0 * L2) + u * u * L2).
  { intros u. rewrite HK. unfold L2. ring. }
  rewrite (E t), (E s). subst t. clearbody L2. clear E HK.
  unfold Rmax, Rmin.
  destruct (Rle_dec 1 t0) as [H1|H1];
    destruct (Rle_dec 0 _) as [H0|H0]; try lra.
  - (* t0 >= 1, clamped to 1 *)
    assert (0 <= (1 - s) * (2 * t0 - s - 1) * L2); [|nra].
    apply Rmult_le_pos; [|lra]. apply Rmult_le_pos; lra.
  - (* 0 <= t0 < 1 *)
    assert (0 <= (s - t0) * (s - t0) * L2); [|nra].
    apply Rmult_le_pos; [exact (Rle_0_sqr (s - t0))|lra].
  - (* t0 < 0, clamped to 0 *)
    assert (0 <= s * (s - 2 * t0) * L2); [|nra].
    apply Rmult_le_pos; [|lra]. apply Rmult_le_pos; lra.
Qed.

Lemma clamp_range t0 : 0 <= Rmax 0 (Rmin 1 t0) <= 1.
Proof.
  unfold Rmax, Rmin.
  destruct (Rle_dec 1 t0); destruct (Rle_dec 0 _); lra.
Qed.

(** The target test holds exactly when the segment passes within the
    circle. *)
Lemma segmentCircleIntersect_iff p1 p2 c :
  segmentCircleIntersect p1 p2 c = true <-> passesWithin p1 p2 c.
Proof.
  unfold segmentCircleIntersect, passesWithin, onSegment.
  destruct p1 as [x1 y1], p2 as [x2 y2], c as [cx cy r].
  unfold Circle.pos, Vec2.dist; simpl.
  rewrite hypot_sqr.
  set (dx := x2 - x1). set (dy := y2 - y1).
  replace ((x1 - x2) * (x1 - x2) + (y1 - y2) * (y1 - y2))
    with (dx * dx + dy * dy) by (unfold dx, dy; ring).
  destruct (Reqb (dx * dx + dy * dy) 0) eqn:EL.
  - apply Reqb_true in EL.
    assert (dx = 0) by nra. assert (dy = 0) by nra.
    rewrite Rltb_true. split.
    + intros H1. exists (Vec2.mk x1 y1). split.
      * exists 0. split; [lra|]. apply vec_eq; ring.
      * simpl. rewrite hypot_lt in *. nra.
    + intros (q & (s & Hs & ->) & Hd). simpl in Hd.
      rewrite hypot_lt in *. subst dx dy.
      replace (x1 + s * (x2 - x1)) with x1 in Hd by nra.
      replace (y1 + s * (y2 - y1)) with y1 in Hd by nra.
      nra.
  - apply Reqb_false in EL.
    assert (HL : 0 < dx * dx + dy * dy) by nra.
    set (t0 := ((cx - x1) * dx + (cy - y1) * dy) / (dx * dx + dy * dy)).
    assert (HK : t0 * (dx * dx + dy * dy) = (cx - x1) * dx + (cy - y1) * dy).
    { unfold t0. field. exact EL. }
    rewrite Rltb_true. split.
    + intros Hd.
      exists (Vec2.mk (x1 + Rmax 0 (Rmin 1 t0) * dx)
                      (y1 + Rmax 0 (Rmin 1 t0) * dy)).
      split; [|exact Hd].
      exists (Rmax 0 (Rmin 1 t0)). split; [apply clamp_range|reflexivity].
    + intros (q & (s & Hs & ->) & Hd). simpl in Hd.
      eapply Rle_lt_trans; [|exact Hd].
      apply hypot_le_mono.
      pose proof (clamped_projection_minimal
                    (cx - x1) (cy - y1) dx dy t0 s HL HK Hs) as Hm.
      cbn zeta in Hm.
      replace (cx - (x1 + Rmax 0 (Rmin 1 t0) * dx))
        with (cx - x1 - Rmax 0 (Rmin 1 t0) * dx) by ring.
      replace (cy - (y1 + Rmax 0 (Rmin 1 t0) * dy))
        with (cy - y1 - Rmax 0 (Rmin 1 t0) * dy) by ring.
      replace (cx - (x1 + s * dx)) with (cx - x1 - s * dx) by ring.
      replace (cy - (y1 + s * dy)) with (cy - y1 - s * dy) by ring.
      exact Hm.
Qed.

(** ** Reflection *)

Lemma reflect_flip d n : reflect d (Vec2.mult n (-1)) = reflect d n.
Proof.
  unfold reflect, Vec2.sub, Vec2.mult, Vec2.dot; simpl.
  apply vec_eq; ring.
Qed.

Lemma reflect_dot_dot d n :
  Vec2.dot n n = 1 ->
  Vec2.dot (reflect d n) (reflect d n) = Vec2.dot d d.
Proof.
  intros Hn. unfold reflect, Vec2.sub, Vec2.mult, Vec2.dot in *; simpl.
  set (k := Vec2.x d * Vec2.x n + Vec2.y d * Vec2.y n).
  replace ((Vec2.x d - Vec2.x n * (2 * k)) * (Vec2.x d - Vec2.x n * (2 * k))
           + (Vec2.y d - Vec2.y n * (2 * k)) * (Vec2.y d - Vec2.y n * (2 * k)))
    with (Vec2.x d * Vec2.x d + Vec2.y d * Vec2.y d
          - 4 * k * k
          + 4 * k * k * (Vec2.x n * Vec2.x n + Vec2.y n * Vec2.y n))
    by (unfold k; ring).
  rewrite Hn. ring.
Qed.

Lemma reflect_dot_normal d n :
  Vec2.dot n n = 1 -> Vec2.dot (reflect d n) n = - Vec2.dot d n.
Proof.
  intros Hn. unfold reflect, Vec2.sub, Vec2.mult, Vec2.dot in *; simpl.
  set (k := Vec2.x d * Vec2.x n + Vec2.y d * Vec2.y n).
  replace ((Vec2.x d - Vec2.x n * (2 * k)) * Vec2.x n
           + (Vec2.y d - Vec2.y n * (2 * k)) * Vec2.y n)
    with (k - 2 * k * (Vec2.x n * Vec2.x n + Vec2.y n * Vec2.y n))
    by (unfold k; ring).
  rewrite Hn. ring.
Qed.

Lemma reflect_mag d n :
  Vec2.mag n = 1 -> Vec2.mag d = 1 -> Vec2.mag (reflect d n) = 1.
Proof.
  rewrite !mag_one_dot. intros Hn Hd. rewrite reflect_dot_dot; assumption.
Qed.

Lemma mult_neg_mag n : Vec2.mag (Vec2.mult n (-1)) = Vec2.mag n.
Proof.
  unfold Vec2.mag, Vec2.mult; simpl.
  apply hypot_of_square; [apply hypot_nonneg|]. rewrite hypot_sqr. ring.
Qed.

Lemma mirrorNormal_spec d n :
  mirrorNormal d n
  = (if Rltb 0 (Vec2.dot d n) then Vec2.mult n (-1) else n)
  /\ Vec2.dot d (mirrorNormal d n) <= 0
  /\ Vec2.mag (mirrorNormal d n) = Vec2.mag n
  /\ reflect d (mirrorNormal d n) = reflect d n.
Proof.
  unfold mirrorNormal. split; [reflexivity|].
  destruct (Rltb 0 (Vec2.dot d n)) eqn:E.
  - apply Rltb_true in E. repeat split.
    + unfold Vec2.dot, Vec2.mult in *; simpl. lra.
    + apply mult_neg_mag.
    + apply reflect_flip.
  - apply Rltb_false in E. repeat split. exact E.
Qed.

(** ** The wall that is hit *)

(** What the wall scan keeps was returned by [getLineIntersection] for a
    wall of the list, farther than [epsilon]. *)
Lemma scan_some ws pos dir : forall acc h,
  fold_left (scanWall pos dir) ws acc = Some h ->
  acc = Some h
  \/ (In (hitWall h) ws
      /\ getLineIntersection pos dir (Wall.a (hitWall h)) (Wall.b (hitWall h))
         = Some (mkHit (minT h) (closest h))
      /\ epsilon < minT h).
Proof.
  induction ws as [|w ws IH]; intros acc h H; simpl in H.
  - left; exact H.
  - destruct (IH _ _ H) as [E|(Hin & Hg & He)].
    + unfold scanWall in E.
      destruct (getLineIntersection pos dir (Wall.a w) (Wall.b w))
        as [hit|] eqn:Eg; [|left; exact E].
      destruct (Rltb epsilon (t hit)) eqn:Ee; simpl in E;
        [|left; exact E].
      destruct (match acc with Some n => Rltb (t hit) (minT n) | None => true end);
        [|left; exact E].
      injection E as <-. right. simpl. repeat split.
      * left; reflexivity.
      * rewrite Eg. destruct hit; reflexivity.
      * apply Rltb_true in Ee. exact Ee.
    + right. repeat split; try assumption. right; exact Hin.
Qed.

Lemma nearestHit_some ws pos dir h :
  nearestHit ws pos dir = Some h ->
  In (hitWall h) ws
  /\ getLineIntersection pos dir (Wall.a (hitWall h)) (Wall.b (hitWall h))
     = Some (mkHit (minT h) (closest h))
  /\ epsilon < minT h.
Proof.
  intros H. destruct (scan_some ws pos dir None h H) as [E|E];
    [discriminate|exact E].
Qed.

(** A segment the ray intersects has two distinct ends, so the normal
    [calculateNormal] gives it has length one, and the ray is not
    parallel to it. *)
Lemma hit_normal_unit pos dir a b hit :
  getLineIntersection pos dir a b = Some hit ->
  Vec2.mag (calculateNormal a b) = 1
  /\ Vec2.dot dir (calculateNormal a b) <> 0.
Proof.
  unfold getLineIntersection, calculateNormal.
  set (dx := Vec2.x b - Vec2.x a). set (dy := Vec2.y b - Vec2.y a).
  unfold Vec2.dot at 1; simpl.
  destruct (Rltb _ _) eqn:E; [discriminate|]. intros _.
  apply Rltb_false in E.
  assert (Hdet : dx * - Vec2.y dir + dy * Vec2.x dir <> 0).
  { intros Z. rewrite Z, Rabs_R0 in E. lra. }
  assert (Hm : Vec2.mag (Vec2.mk (- dy) dx) <> 0).
  { unfold Vec2.mag; simpl. rewrite hypot_zero. intros [H1 H2].
    apply Hdet. rewrite H2. replace dy with 0 by lra. ring. }
  split; [apply normalize_mag, Hm|].
  unfold Vec2.normalize, Vec2.mag in *; simpl in *.
  pose proof (proj2 (Reqb_false _ _) Hm) as ->.
  unfold Vec2.dot; simpl. intros Z. apply Hdet.
  apply (Rmult_eq_compat_r (Vec2.hypot (- dy) dx)) in Z.
  field_simplify in Z; [|exact Hm]. lra.
Qed.

(** ** Refraction *)

Lemma dot_comm u v : Vec2.dot u v = Vec2.dot v u.
Proof. unfold Vec2.dot. ring. Qed.

Lemma dot_mult_neg u v : Vec2.dot u (Vec2.mult v (-1)) = - Vec2.dot u v.
Proof. unfold Vec2.dot, Vec2.mult; simpl. ring. Qed.

(** The vector form of Snell's law gives a vector of length one when
    the two vectors it combines have length one. *)
Lemma snell_unit d N n :
  Vec2.mag d = 1 -> Vec2.mag N = 1 ->
  let cosI := - Vec2.dot N d in
  let sinT2 := n * n * (1 - cosI * cosI) in
  let cosT := sqrt (1 - sinT2) in
  sinT2 <= 1 ->
  Vec2.mag (Vec2.add (Vec2.mult d n) (Vec2.mult N (n * cosI - cosT))) = 1.
Proof.
  intros Hd HN cosI sinT2 cosT Hs. apply mag_one_dot.
  apply mag_one_dot in Hd, HN.
  assert (HT : cosT * cosT = 1 - sinT2) by (apply sqrt_sqrt; lra).
  assert (HI : Vec2.dot d N = - cosI) by (unfold cosI; rewrite dot_comm; ring).
  set (k := n * cosI - cosT).
  replace (Vec2.dot (Vec2.add (Vec2.mult d n) (Vec2.mult N k))
                    (Vec2.add (Vec2.mult d n) (Vec2.mult N k)))
    with (n * n * Vec2.dot d d + 2 * n * k * Vec2.dot d N
          + k * k * Vec2.dot N N)
    by (unfold Vec2.dot, Vec2.add, Vec2.mult; simpl; ring).
  rewrite Hd, HN, HI.
  replace (n * n * 1 + 2 * n * k * - cosI + k * k * 1)
    with (n * n * (1 - cosI * cosI) + cosT * cosT) by (unfold k; ring).
  rewrite HT. unfold sinT2. ring.
Qed.
End Geometry.

(* ====================================================================== *)
(** * One mirror, one ray: the scene of the design document *)

Module Scenario.
Import Game Scene MirrorScene Vec2Facts Geometry LoopFacts.
Local Open Scope R_scope.

(** [getLineIntersection] from the solution of its linear system. *)
Lemma getLineIntersection_value p d a b det t1 t2 :
  det = (Vec2.x b - Vec2.x a) * - Vec2.y d + (Vec2.y b - Vec2.y a) * Vec2.x d ->
  1 / 100000 <= Rabs det ->
  t1 * det = (Vec2.x b - Vec2.x a) * (Vec2.y p - Vec2.y a)
             - (Vec2.y b - Vec2.y a) * (Vec2.x p - Vec2.x a) ->
  t2 * det = (Vec2.x p - Vec2.x a) * - Vec2.y d
             + (Vec2.y p - Vec2.y a) * Vec2.x d ->
  getLineIntersection p d a b
  = if Rleb 0 t1 && Rleb 0 t2 && Rleb t2 1
    then Some (mkHit t1 (Vec2.mk (Vec2.x p + t1 * Vec2.x d)
                                 (Vec2.y p + t1 * Vec2.y d)))
    else None.
Proof.
  intros Hdet Habs H1 H2. unfold getLineIntersection, Vec2.dot; simpl.
  rewrite <- Hdet.
  pose proof (proj2 (Rltb_false _ _) Habs) as ->.
  assert (det <> 0). { intros Z. rewrite Z, Rabs_R0 in Habs. lra. }
  rewrite <- H1, <- H2.
  replace (t1 * det / det) with t1 by (field; assumption).
  replace (t2 * det / det) with t2 by (field; assumption).
  reflexivity.
Qed.

Lemma east_unit : Vec2.mag east = 1.
Proof. unfold Vec2.mag, east; simpl. apply hypot_of_square; lra. Qed.

Lemma west_unit : Vec2.mag west = 1.
Proof. unfold Vec2.mag, west; simpl. apply hypot_of_square; lra. Qed.

Lemma wall_normal ty : Wall.normal (wall ty) = west.
Proof.
  unfold wall, newWall, calculateNormal, Vec2.normalize, west; simpl.
  replace (Vec2.hypot (- (100 - 0)) (50 - 50)) with 100
    by (symmetry; apply hypot_of_square; lra).
  Rdecide. apply vec_eq; lra.
Qed.

(** Shot eastwards from the origin, the ray meets the wall in its
    middle. *)
Lemma first_hit ty :
  nearestHit [wall ty] origin east = Some (mkNearest 50 middle (wall ty)).
Proof.
  unfold nearestHit, origin, east, middle; simpl. unfold scanWall; simpl.
  rewrite (getLineIntersection_value _ _ _ _ 100 50 (1/2)); simpl; try lra.
  2:{ rewrite Rabs_pos_eq; lra. }
  Rdecide. simpl. unfold epsilon. Rdecide. simpl.
  do 2 f_equal. apply vec_eq; lra.
Qed.

(** Leaving the wall westwards, the ray meets nothing: the wall it
    stands on is at distance zero, which is not beyond [epsilon]. *)
Lemma second_miss ty : nearestHit [wall ty] middle west = None.
Proof.
  unfold nearestHit, middle, west; simpl. unfold scanWall; simpl.
  rewrite (getLineIntersection_value _ _ _ _ (-100) 0 (1/2)); simpl; try lra.
  2:{ rewrite Rabs_left; lra. }
  Rdecide. simpl. unfold epsilon. Rdecide. reflexivity.
Qed.

Lemma mirror_turns_back : mirrorDir east west = west.
Proof.
  unfold mirrorDir, mirrorNormal.
  replace (Rltb 0 (Vec2.dot east west)) with false
    by (symmetry; apply Rltb_false; unfold Vec2.dot, east, west; simpl; lra).
  replace (reflect east west) with west
    by (unfold reflect, Vec2.sub, Vec2.mult, Vec2.dot, east, west; simpl;
        apply vec_eq; lra).
  apply normalize_unit, west_unit.
Qed.

(** The segment from the origin to the middle of the wall stays 50 away
    from a target centred at (100,50). *)
Lemma first_segment_misses :
  segmentCircleIntersect origin middle (Circle.mk 100 50 15) = false.
Proof.
  destruct (segmentCircleIntersect _ _ _) eqn:E; [|reflexivity].
  apply segmentCircleIntersect_iff in E.
  destruct E as (q & (s & Hs & ->) & Hd).
  unfold Vec2.dist, Circle.pos, origin, middle in Hd; simpl in Hd.
  apply hypot_lt in Hd. destruct Hd as [_ Hd].
  assert (0 <= (50 - 50 * s) * (150 - 50 * s))
    by (apply Rmult_le_pos; lra).
  pose proof (Rle_0_sqr (50 - (50 + s * (50 - 50)))) as Hq.
  unfold Rsqr in Hq. nra.
Qed.

(** The loop in this scene: one reflection, then the escape. *)
Lemma two_steps n i pts :
  loopIn [wall "mirror"] (Circle.mk 100 50 15) (S (S n)) i
         (mkRay pts origin east false)
  = mkLoopEnd (mkRay (pts ++ [middle; Vec2.mk (-1950) 50]) middle west false)
              (S (S i)) (Broke AtEscape).
Proof.
  rewrite loopIn_succ.
  rewrite (stepIn_hit [wall "mirror"] (Circle.mk 100 50 15)
             (mkRay pts origin east false) _ (first_hit "mirror")).
  cbn zeta.
  cbn [currPos currDir closest hitWall hitTarget points].
  rewrite first_segment_misses, wall_normal, mirror_turns_back.
  cbn [wall newWall Wall.type String.eqb Ascii.eqb Bool.eqb orb fst snd].
  rewrite loopIn_succ.
  rewrite stepIn_escape by apply second_miss.
  cbn [fst snd currPos currDir hitTarget points].
  rewrite <- app_assoc. unfold farPoint, middle, west; simpl.
  repeat f_equal; lra.
Qed.
End Scenario.

(* ====================================================================== *)
(** * The ray tracer: the properties of the design document *)

Module TracerClaims.
Import Game Scene MirrorScene Vec2Facts Geometry LoopFacts Scenario.
Local Open Scope R_scope.

(** The wall a scan returns, when [addWall] built it, has a normal of
    length one that the ray is not parallel to. *)
Lemma hit_wall_normal ws pos dir h :
  nearestHit ws pos dir = Some h ->
  Wall.normal (hitWall h)
  = calculateNormal (Wall.a (hitWall h)) (Wall.b (hitWall h)) ->
  Vec2.mag (Wall.normal (hitWall h)) = 1
  /\ Vec2.dot dir (Wall.normal (hitWall h)) <> 0.
Proof.
  intros H Hn. destruct (nearestHit_some _ _ _ _ H) as (_ & Hg & _).
  rewrite Hn. eapply hit_normal_unit, Hg.
Qed.

(** C2.  A hit on a mirror wall, with an incoming direction [d] of
    length one.  The normal [n] the branch uses is the stored normal,
    flipped when [dot(d, stored) > 0], and it points against the ray.
    The new direction is [normalize (d - 2 dot(d, n) n)]; it has length
    one and obeys the law of reflection, [dot(d, n) = - dot(d', n)]. *)
Theorem mirror_hit_reflection_law (w : World) (st : Ray) (h : Nearest)
  (Hhit : nearestHit (walls (this w)) (currPos st) (currDir st) = Some h)
  (Hty : Wall.type (hitWall h) = "mirror"%string)
  (Hn : Wall.normal (hitWall h)
        = calculateNormal (Wall.a (hitWall h)) (Wall.b (hitWall h)))
  (Hd : Vec2.mag (currDir st) = 1) :
  let d := currDir st in
  let n0 := Wall.normal (hitWall h) in
  let n := if Rltb 0 (Vec2.dot d n0) then Vec2.mult n0 (-1) else n0 in
  let d' := currDir (fst (fst (bounceStep st w))) in
  Vec2.dot d n < 0
  /\ d' = Vec2.normalize (Vec2.sub d (Vec2.mult n (2 * Vec2.dot d n)))
  /\ Vec2.mag d' = 1
  /\ Vec2.dot d n = - Vec2.dot d' n.
Proof.
  intros d n0 n d'.
  destruct (hit_wall_normal _ _ _ _ Hhit Hn) as [Hu Hnz].
  fold d n0 in Hu, Hnz.
  assert (Ed : d' = mirrorDir d n0).
  { unfold d'. rewrite (proj1 (bounceStep_run st w)).
    apply stepIn_mirror; assumption. }
  destruct (mirrorNormal_spec d n0) as (En & Hle & Hm & _).
  fold n in En. rewrite En in Hle, Hm.
  assert (Hn1 : Vec2.mag n = 1) by (rewrite Hm; exact Hu).
  assert (Hlt : Vec2.dot d n < 0).
  { destruct Hle as [Hlt|Hz]; [exact Hlt|]. exfalso. apply Hnz.
    unfold n in Hz. destruct (Rltb 0 (Vec2.dot d n0)); [|exact Hz].
    rewrite dot_mult_neg in Hz. lra. }
  assert (E : d' = Vec2.normalize (reflect d n)).
  { rewrite Ed. unfold mirrorDir. rewrite En. reflexivity. }
  split; [exact Hlt|]. split; [exact E|].
  rewrite E, normalize_unit by (apply reflect_mag; assumption).
  split; [apply reflect_mag; assumption|].
  rewrite reflect_dot_normal by (apply mag_one_dot; exact Hn1). ring.
Qed.

(** The theorem at the mirror of the scene, hit head-on. *)
Lemma mirror_hit_reflection_law_witness :
  Vec2.mag (currDir (fst (fst (bounceStep start (world 20 "mirror" 100))))) = 1.
Proof.
  apply (mirror_hit_reflection_law
           (world 20 "mirror" 100) start (firstHit "mirror")).
  - exact (first_hit "mirror").
  - reflexivity.
  - reflexivity.
  - exact east_unit.
Defined.

(** C3.  With a bounce limit that is not negative, [traceRay] returns,
    and the body of its loop has run at most [maxBounces] times, each
    time appending one point to the path.  When the loop ends because
    the limit is reached, the body has run [maxBounces] times and the
    result is [success = false] with the path built so far. *)
Theorem trace_runs_at_most_maxBounces (w : World) (start dir : Vec2.t)
  (Hmb : (0 <= maxBounces (this w))%Z) :
  exists (e : LoopEnd) (w' : World),
    traceLoop start dir w = (e, w')
    /\ traceRay start dir w
       = (mkResult (points (final e)) (hitTarget (final e)), w')
    /\ (Z.of_nat (iterations e) <= maxBounces (this w))%Z
    /\ length (points (final e)) = S (iterations e)
    /\ (exit e = Exhausted ->
        Z.of_nat (iterations e) = maxBounces (this w)
        /\ hitTarget (final e) = false).
Proof.
  destruct (traceRay_run start dir w) as (Hl & Hr & _). cbn zeta in *.
  set (e := loopIn _ _ _ _ _) in *.
  exists e, (snd (traceRay start dir w)).
  pose proof (loopIn_bounds (walls (this w)) (target (this w))
                (Z.to_nat (maxBounces (this w))) 0
                (mkRay [start] start (Vec2.normalize dir) false))
    as (Hi & Hp & Hx & Hh).
  fold e in Hi, Hp, Hx, Hh. simpl in Hp, Hh.
  split; [exact Hl|]. split.
  { rewrite <- Hr. destruct (traceRay start dir w); reflexivity. }
  split; [lia|]. split; [lia|].
  intros E. split; [specialize (Hx E); lia|]. apply Hh; auto.
Qed.

(** The theorem in the scene of the design document. *)
Lemma trace_runs_at_most_maxBounces_witness :
  exists (e : LoopEnd) (w' : World),
    traceLoop origin east (world 20 "mirror" 100) = (e, w')
    /\ traceRay origin east (world 20 "mirror" 100)
       = (mkResult (points (final e)) (hitTarget (final e)), w')
    /\ (Z.of_nat (iterations e) <= 20)%Z
    /\ length (points (final e)) = S (iterations e)
    /\ (exit e = Exhausted ->
        Z.of_nat (iterations e) = 20%Z /\ hitTarget (final e) = false).
Proof.
  apply (trace_runs_at_most_maxBounces (world 20 "mirror" 100) origin east).
  simpl. lia.
Defined.

(** C7.  With a bounce limit of zero or less the result is the path
    [[start]] and [success = false]; with a positive limit and no wall
    it is the start followed by the far point along the normalized
    direction, and [success = false]. *)
Theorem trace_no_bounces_or_no_walls (w : World) (start dir : Vec2.t)
  (H : (maxBounces (this w) <= 0)%Z \/ walls (this w) = []) :
  fst (traceRay start dir w)
  = mkResult (if (maxBounces (this w) <=? 0)%Z then [start]
              else [start; farPoint start (Vec2.normalize dir)])
             false.
Proof.
  destruct (traceRay_run start dir w) as (_ & -> & _).
  destruct (Z.leb_spec (maxBounces (this w)) 0) as [Hle|Hgt].
  - replace (Z.to_nat (maxBounces (this w))) with 0%nat by lia.
    rewrite loopIn_zero. reflexivity.
  - destruct H as [H|H]; [lia|]. rewrite H.
    destruct (Z.to_nat (maxBounces (this w))) as [|n] eqn:E; [lia|].
    rewrite loopIn_succ, stepIn_escape by reflexivity. reflexivity.
Qed.

(** The theorem with a limit of zero, and with no wall. *)
Lemma trace_no_bounces_or_no_walls_witness :
  fst (traceRay origin east (world 0 "mirror" 100)) = mkResult [origin] false
  /\ fst (traceRay origin east (noWall 20 100))
     = mkResult [origin; farPoint origin (Vec2.normalize east)] false.
Proof.
  split.
  - apply (trace_no_bounces_or_no_walls (world 0 "mirror" 100) origin east).
    left. simpl. lia.
  - apply (trace_no_bounces_or_no_walls (noWall 20 100) origin east).
    right. reflexivity.
Defined.

(** C9.  The scene of the design document: emitter at (0,50), one
    mirror from (50,0) to (50,100), target at (100,50) with radius 15,
    shot in direction (1,0), with a bounce limit of two or more.  The
    ray is reflected once, at (50,50), where its direction becomes
    (-1,0); the next iteration finds no wall and appends the far point
    (-1950,50).  The path is [(0,50); (50,50); (-1950,50)] and
    [success = false]. *)
Theorem single_mirror_scene (w : World)
  (He : emitter (this w) = Vec2.mk 0 50)
  (Hw : walls (this w) = [newWall 50 0 50 100 "mirror"])
  (Ht : target (this w) = Circle.mk 100 50 15)
  (Hmb : (2 <= maxBounces (this w))%Z) :
  fst (traceRay (emitter (this w)) (Vec2.mk 1 0) w)
  = mkResult [Vec2.mk 0 50; Vec2.mk 50 50; Vec2.mk (-1950) 50] false
  /\ fst (traceLoop (emitter (this w)) (Vec2.mk 1 0) w)
     = mkLoopEnd (mkRay [Vec2.mk 0 50; Vec2.mk 50 50; Vec2.mk (-1950) 50]
                        (Vec2.mk 50 50) (Vec2.mk (-1) 0) false)
                 2 (Broke AtEscape).
Proof.
  destruct (traceRay_run (emitter (this w)) (Vec2.mk 1 0) w)
    as (Hl & Hr & _).
  cbn zeta in *. rewrite Hr, Hl. clear Hr Hl.
  rewrite He, Hw, Ht.
  destruct (Z.to_nat (maxBounces (this w))) as [|[|n]] eqn:E; try lia.
  fold east. rewrite (normalize_unit east east_unit).
  pose proof (two_steps n 0 [origin]) as T.
  unfold wall, origin, middle, west in T. simpl in T.
  unfold origin in *. rewrite T. split; reflexivity.
Qed.

(** The theorem at the default bounce limit, 20. *)
Lemma single_mirror_scene_witness :
  fst (traceRay origin east (world 20 "mirror" 100))
  = mkResult [Vec2.mk 0 50; Vec2.mk 50 50; Vec2.mk (-1950) 50] false.
Proof.
  apply (single_mirror_scene (world 20 "mirror" 100));
    try reflexivity.
  simpl. lia.
Defined.

(** C10.  A trace that leaves its loop through the escape branch
    returns [success = false], and its path ends with the far point of
    the last position and direction; the segment to that far point is
    not tested against the target.  (When an iteration starts the
    target has not been seen yet, and the escape branch does not run
    the test.) *)
Theorem escape_segment_untested (w : World) (start dir : Vec2.t)
  (Hesc : exit (fst (traceLoop start dir w)) = Broke AtEscape) :
  let e := fst (traceLoop start dir w) in
  success (fst (traceRay start dir w)) = false
  /\ exists pts,
       path (fst (traceRay start dir w))
       = pts ++ [farPoint (currPos (final e)) (currDir (final e))].
Proof.
  destruct (traceRay_run start dir w) as (Hl & Hr & _). cbn zeta in *.
  rewrite Hl in *. rewrite Hr. cbn [fst success path] in *.
  split.
  - apply (loopIn_bounds (walls (this w)) (target (this w))
             (Z.to_nat (maxBounces (this w))) 0
             (mkRay [start] start (Vec2.normalize dir) false));
      [reflexivity|right; exact Hesc].
  - apply (loopIn_escape_shape (walls (this w)) (target (this w))
             (Z.to_nat (maxBounces (this w))) 0
             (mkRay [start] start (Vec2.normalize dir) false)).
    exact Hesc.
Qed.

(** The theorem with no wall and the target across the ray: the escape
    segment runs through the centre of the target, and the trace fails. *)
Lemma escape_segment_untested_witness :
  segmentCircleIntersect origin (farPoint origin east) (Circle.mk 100 50 15)
  = true
  /\ success (fst (traceRay origin east (noWall 20 100))) = false.
Proof.
  split.
  - apply segmentCircleIntersect_iff. exists (Vec2.mk 100 50). split.
    + exists (1 / 20). split; [lra|].
      unfold origin, farPoint, east; simpl. apply vec_eq; lra.
    + unfold Vec2.dist, Circle.pos; simpl. apply hypot_lt. lra.
  - apply (escape_segment_untested (noWall 20 100) origin east).
    reflexivity.
Defined.

(** C4, as the design document words it, fails: a trace that meets a
    mirror changes the particle list of the engine.  In the scene of the
    design document the list is empty before the call and is not after. *)
Lemma trace_changes_particles :
  particles (this (snd (traceRay origin east (world 20 "mirror" 100))))
  <> particles (this (world 20 "mirror" 100)).
Proof.
  destruct (bounceLoop_mirror_burst 19 0
              (mkRay [origin] origin (Vec2.normalize east) false)
              (world 20 "mirror" 100) (firstHit "mirror"))
    as (k & Hk & new & Hlen & E).
  - cbn [currPos currDir]. rewrite (normalize_unit east east_unit).
    exact (first_hit "mirror").
  - reflexivity.
  - unfold traceRay, traceLoop, bind, gets, ret.
    change (Z.to_nat (maxBounces (this (world 20 "mirror" 100)))) with 20%nat.
    destruct (bounceLoop 20 0 _ (world 20 "mirror" 100)) as [e w'].
    cbn [snd] in *. rewrite E. cbn [this particles withParticles world].
    destruct new; [simpl in Hlen; lia|discriminate].
Qed.

(** C4, amended.  The result of [traceRay] depends on the world through
    the bounce limit, the walls and the target only: it is the same
    with any other particle list and random source, and the same when
    the call is made again in the world the first call left.  The call
    leaves the bounce limit, the walls, the target, the emitter and the
    attempt count as they were and keeps the particles that were there;
    for each iteration that hits a mirror or glass, of which there are at
    most [maxBounces], it appends three particles and takes six random
    draws. *)
Theorem trace_result_pure_world_grown (w : World) (start dir : Vec2.t)
  (ps : list Particle.t) (rng : Rng) :
  let bursts := burstsIn (walls (this w)) (target (this w))
                         (Z.to_nat (maxBounces (this w)))
                         (mkRay [start] start (Vec2.normalize dir) false) in
  fst (traceRay start dir (mkWorld (withParticles (this w) ps) rng))
  = fst (traceRay start dir w)
  /\ fst (traceRay start dir (snd (traceRay start dir w)))
     = fst (traceRay start dir w)
  /\ (bursts <= Z.to_nat (maxBounces (this w)))%nat
  /\ exists new : list Particle.t,
       length new = (3 * bursts)%nat
       /\ snd (traceRay start dir w)
          = mkWorld (mkGame (maxBounces (this w)) (walls (this w))
                            (particles (this w) ++ new)
                            (emitter (this w)) (target (this w))
                            (attempts (this w)))
                    (mkRng (draws (random w))
                           (6 * bursts + cursor (random w))).
Proof.
  intros bursts.
  destruct (traceRay_run start dir w) as (_ & Hr & _).
  pose proof (traceRay_bursts start dir w) as Hg. fold bursts in Hg.
  cbn zeta in *. split; [|split; [|split]].
  - destruct (traceRay_run start dir (mkWorld (withParticles (this w) ps) rng))
      as (_ & -> & _).
    rewrite Hr. reflexivity.
  - destruct (traceRay_run start dir (snd (traceRay start dir w)))
      as (_ & -> & _).
    destruct (grown_scene _ _ _ Hg) as (-> & -> & -> & _).
    rewrite Hr. reflexivity.
  - apply burstsIn_le.
  - exact Hg.
Qed.

(** C6.  An iteration that finds a wall appends the hit point and sets
    [hitTarget] exactly when the segment from the current position to
    the hit point passes within the target, that is when some point of
    the segment is closer to the centre than the radius (or when the
    flag was set already).  This holds for every type of wall: the
    direction is then changed as the type asks, and an iteration that
    has set the flag ends the loop with the flag set. *)
Theorem target_test_on_hit_segment (w : World) (st : Ray) (h : Nearest)
  (Hhit : nearestHit (walls (this w)) (currPos st) (currDir st) = Some h) :
  let r := fst (bounceStep st w) in
  let ty := Wall.type (hitWall h) in
  points (fst r) = points st ++ [closest h]
  /\ (hitTarget (fst r) = true
      <-> passesWithin (currPos st) (closest h) (target (this w))
          \/ hitTarget st = true)
  /\ currDir (fst r)
     = (if String.eqb ty "absorb" then currDir st
        else if String.eqb ty "mirror"
             then mirrorDir (currDir st) (Wall.normal (hitWall h))
        else if String.eqb ty "glass"
             then glassDir (currDir st) (Wall.normal (hitWall h))
        else currDir st)
  /\ snd r
     = (if String.eqb ty "absorb" then Break AtAbsorb
        else if hitTarget (fst r) then Break AtTarget else Next)
  /\ (hitTarget (fst r) = true ->
      forall n i,
        final (fst (bounceLoop (S n) i st w)) = fst r
        /\ exit (fst (bounceLoop (S n) i st w)) <> Exhausted).
Proof.
  intros r ty.
  assert (Er : r = stepIn (walls (this w)) (target (this w)) st)
    by apply bounceStep_run.
  pose proof (stepIn_hit _ (target (this w)) _ _ Hhit) as E.
  cbn zeta in E. fold ty in E. rewrite <- Er in E.
  assert (Eh : hitTarget (fst r)
               = segmentCircleIntersect (currPos st) (closest h)
                                        (target (this w))
                 || hitTarget st).
  { rewrite E. repeat (destruct (String.eqb ty _)); reflexivity. }
  split; [rewrite E; repeat (destruct (String.eqb ty _)); reflexivity|].
  split.
  { rewrite Eh, orb_true_iff, segmentCircleIntersect_iff. reflexivity. }
  split; [rewrite E; repeat (destruct (String.eqb ty _)); reflexivity|].
  assert (Es : snd r
               = (if String.eqb ty "absorb" then Break AtAbsorb
                  else if hitTarget (fst r) then Break AtTarget else Next)).
  { rewrite Eh. rewrite E.
    repeat (destruct (String.eqb ty _)); reflexivity. }
  split; [exact Es|].
  intros Ht n i.
  rewrite (proj1 (bounceLoop_run (S n) i st w)), loopIn_succ, <- Er.
  rewrite Es, Ht. destruct (String.eqb ty "absorb"); simpl; split;
    try reflexivity; discriminate.
Qed.

(** The theorem in the scene with the target moved to (25,50), on the
    way to the mirror: the iteration sets the flag. *)
Lemma target_test_on_hit_segment_witness :
  hitTarget (fst (fst (bounceStep start (world 20 "mirror" 25)))) = true.
Proof.
  apply (target_test_on_hit_segment
           (world 20 "mirror" 25) start (firstHit "mirror")
           (first_hit "mirror")).
  left. exists (Vec2.mk 25 50). split.
  - exists (1 / 2). split; [lra|].
    unfold origin, middle; simpl. apply vec_eq; lra.
  - unfold Vec2.dist, Circle.pos; simpl. apply hypot_lt. lra.
Defined.
End TracerClaims.

(* ====================================================================== *)
(** * Trees grown leaf by leaf *)

Module GraphFacts.
Import Graph.

Section Walks.
Context {V : Type} (adj : V -> V -> Prop).

Lemma walk_head a p b : walk adj a p b -> exists p', p = a :: p'.
Proof. intros [|]; eauto. Qed.

Lemma walk_last_in a p b : walk adj a p b -> b ∈ p.
Proof.
  induction 1 as [a|a b c p _ _ IH].
  - apply list_elem_of_singleton. reflexivity.
  - apply elem_of_cons. right. exact IH.
Qed.

Lemma walk_snoc a p b c : walk adj a p b -> adj b c -> walk adj a (p ++ [c]) c.
Proof.
  induction 1 as [a|a b' b p Hab _ IH]; intros Hbc; simpl.
  - apply walk_step with c; [exact Hbc|apply walk_one].
  - apply walk_step with b'; [exact Hab|apply IH, Hbc].
Qed.

Lemma walk_rev a p b :
  (forall x y, adj x y -> adj y x) -> walk adj a p b -> walk adj b (reverse p) a.
Proof.
  intros Hsym. induction 1 as [a|a b c p Hab _ IH].
  - apply walk_one.
  - rewrite reverse_cons. apply walk_snoc with b; [exact IH|apply Hsym, Hab].
Qed.

(** A walk that starts in a set closed under the edges stays in it. *)
Lemma walk_within (vs : list V) a p b :
  (forall x y, adj x y -> x ∈ vs /\ y ∈ vs) ->
  walk adj a p b -> a ∈ vs -> forall x, x ∈ p -> x ∈ vs.
Proof.
  intros Hin. induction 1 as [a|a b c p Hab _ IH]; intros Ha x Hx.
  - apply list_elem_of_singleton in Hx. subst. exact Ha.
  - apply elem_of_cons in Hx. destruct Hx as [->|Hx]; [exact Ha|].
    apply IH; [apply (Hin _ _ Hab)|exact Hx].
Qed.

(** A simple path from a vertex to itself has no step. *)
Lemma simplePath_loop a p : simplePath adj a p a -> p = [a].
Proof.
  intros [Hw Hnd]. inversion Hw as [|? b ? p' _ Hw']; subst; [reflexivity|].
  apply NoDup_cons in Hnd. destruct Hnd as [Hnot _].
  exfalso. apply Hnot. eapply walk_last_in, Hw'.
Qed.
End Walks.

Lemma NoDup_reverse_of {V} (l : list V) : NoDup l -> NoDup (reverse l).
Proof. intros H. rewrite reverse_Permutation. exact H. Qed.

Lemma walk_mono {V} (adj adj' : V -> V -> Prop) a p b :
  (forall x y, adj x y -> adj' x y) -> walk adj a p b -> walk adj' a p b.
Proof.
  intros Hsub. induction 1 as [a|a b c p Hab _ IH].
  - apply walk_one.
  - apply walk_step with b; [apply Hsub, Hab|exact IH].
Qed.

(** A graph with one vertex and no edge is a tree. *)
Lemma isTree_root {V} (adj : V -> V -> Prop) (r : V) :
  (forall x y, ~ adj x y) -> isTree adj [r].
Proof.
  intros Hno. split; [|split; [|split]].
  - intros x y H. exfalso. exact (Hno _ _ H).
  - intros x y H. exfalso. exact (Hno _ _ H).
  - intros a b Ha Hb. apply list_elem_of_singleton in Ha, Hb. subst.
    exists [r]. split; [apply walk_one|apply NoDup_singleton].
  - intros a b p q [Hp _] [Hq _].
    inversion Hp as [|? ? ? ? Hadj]; subst; [|exfalso; eapply Hno, Hadj].
    inversion Hq as [|? ? ? ? Hadj]; subst; [|exfalso; eapply Hno, Hadj].
    reflexivity.
Qed.

Section Leaf.
Context {V : Type} `{EqDecision V}.
Context (adj adj' : V -> V -> Prop) (vs : list V) (u v : V).
Hypothesis Htree : isTree adj vs.
Hypothesis Hu : u ∈ vs.
Hypothesis Hv : v ∉ vs.
Hypothesis Hadj' :
  forall x y, adj' x y <-> adj x y \/ (x = u /\ y = v) \/ (x = v /\ y = u).

Lemma leaf_ne : u <> v.
Proof. intros ->. exact (Hv Hu). Qed.

Lemma leaf_only_edge_from y : adj' v y -> y = u.
Proof.
  intros H. apply Hadj' in H. destruct H as [H|[[E _]|[_ E]]].
  - exfalso. apply Hv. apply (proj1 Htree _ _ H).
  - exfalso. apply leaf_ne. symmetry. exact E.
  - exact E.
Qed.

Lemma leaf_only_edge_to x : adj' x v -> x = u.
Proof.
  intros H. apply Hadj' in H. destruct H as [H|[[E _]|[_ E]]].
  - exfalso. apply Hv. apply (proj1 Htree _ _ H).
  - exact E.
  - exfalso. apply leaf_ne. symmetry. exact E.
Qed.

Lemma leaf_old_edge x y : adj' x y -> x <> v -> y <> v -> adj x y.
Proof.
  intros H Hx Hy. apply Hadj' in H. destruct H as [H|[[_ E]|[E _]]].
  - exact H.
  - exfalso. exact (Hy E).
  - exfalso. exact (Hx E).
Qed.

Lemma leaf_sym x y : adj' x y -> adj' y x.
Proof.
  intros H. apply Hadj' in H. apply Hadj'.
  destruct H as [H|[[-> ->]|[-> ->]]].
  - left. apply (proj1 (proj2 Htree)), H.
  - right. right. split; reflexivity.
  - right. left. split; reflexivity.
Qed.

(** A simple path between two old vertices does not pass by the leaf. *)
Lemma leaf_avoided a p b :
  walk adj' a p b -> NoDup p -> a <> v -> b <> v -> walk adj a p b.
Proof.
  induction 1 as [a|a b c p Hab Hw IH]; intros Hnd Ha Hc.
  - apply walk_one.
  - apply NoDup_cons in Hnd. destruct Hnd as [Hnot Hnd].
    destruct (walk_head _ _ _ _ Hw) as [p' ->].
    assert (Hb : b <> v).
    { intros ->. apply leaf_only_edge_to in Hab. subst a.
      inversion Hw as [|? b' ? ? Hvb Hw']; subst; [exact (Hc eq_refl)|].
      apply leaf_only_edge_from in Hvb. subst b'.
      destruct (walk_head _ _ _ _ Hw') as [p'' ->].
      apply Hnot. apply elem_of_cons. right. apply elem_of_cons. left.
      reflexivity. }
    apply walk_step with b.
    + apply leaf_old_edge; assumption.
    + apply IH; assumption.
Qed.

(** A simple path from the leaf starts with the edge to its parent. *)
Lemma leaf_first_step p b :
  walk adj' v p b -> NoDup p -> b <> v ->
  exists p', p = v :: p' /\ walk adj u p' b /\ NoDup p'.
Proof.
  intros Hw Hnd Hb.
  inversion Hw as [|? b' ? p' Hvb Hw']; subst; [exfalso; exact (Hb eq_refl)|].
  apply leaf_only_edge_from in Hvb. subst b'.
  apply NoDup_cons in Hnd. destruct Hnd as [_ Hnd].
  exists p'. split; [reflexivity|]. split; [|exact Hnd].
  apply leaf_avoided; [exact Hw'|exact Hnd|apply leaf_ne|exact Hb].
Qed.

(** Adding a leaf to a tree gives a tree. *)
Lemma isTree_leaf : isTree adj' (v :: vs).
Proof.
  destruct Htree as (Hin & Hsym & Hex & Huniq).
  split; [|split; [|split]].
  - intros x y H. apply Hadj' in H. rewrite !elem_of_cons.
    destruct H as [H|[[-> ->]|[-> ->]]]; auto.
    destruct (Hin _ _ H); auto.
  - apply leaf_sym.
  - intros a b Ha Hb. apply elem_of_cons in Ha, Hb.
    assert (Hmono : forall x y, adj x y -> adj' x y)
      by (intros x y H; apply Hadj'; left; exact H).
    destruct Ha as [->|Ha], Hb as [->|Hb].
    + exists [v]. split; [apply walk_one|apply NoDup_singleton].
    + destruct (Hex u b Hu Hb) as (p & Hw & Hnd).
      exists (v :: p). split.
      * apply walk_step with u; [|eapply walk_mono; eassumption].
        apply Hadj'. right. right. split; reflexivity.
      * apply NoDup_cons. split; [|exact Hnd].
        intros Hvp. apply Hv. eapply walk_within; eassumption.
    + destruct (Hex a u Ha Hu) as (p & Hw & Hnd).
      exists (p ++ [v]). split.
      * apply walk_snoc with u; [eapply walk_mono; eassumption|].
        apply Hadj'. right. left. split; reflexivity.
      * apply NoDup_app. split; [exact Hnd|]. split; [|apply NoDup_singleton].
        intros x Hx Hxv. apply list_elem_of_singleton in Hxv. subst x.
        apply Hv. eapply walk_within; eassumption.
    + destruct (Hex a b Ha Hb) as (p & Hw & Hnd).
      exists p. split; [eapply walk_mono; eassumption|exact Hnd].
  - intros a b p q [Hp Hpn] [Hq Hqn].
    destruct (decide (a = v)) as [Ea|Ea];
      destruct (decide (b = v)) as [Eb|Eb].
    + subst. rewrite (simplePath_loop adj' v p), (simplePath_loop adj' v q);
        [reflexivity|split; assumption|split; assumption].
    + subst a.
      destruct (leaf_first_step p b Hp Hpn Eb) as (p' & -> & Hp' & Hpn').
      destruct (leaf_first_step q b Hq Hqn Eb) as (q' & -> & Hq' & Hqn').
      f_equal. apply (Huniq u b); split; assumption.
    + subst b.
      apply (walk_rev adj' _ _ _ leaf_sym) in Hp, Hq.
      apply NoDup_reverse_of in Hpn, Hqn.
      destruct (leaf_first_step _ a Hp Hpn Ea) as (p' & Ep & Hp' & Hpn').
      destruct (leaf_first_step _ a Hq Hqn Ea) as (q' & Eq & Hq' & Hqn').
      assert (E : p' = q') by (apply (Huniq u a); split; assumption).
      subst q'. rewrite <- Eq in Ep.
      apply (f_equal reverse) in Ep. rewrite !reverse_involutive in Ep.
      exact Ep.
    + apply (Huniq a b); split; try assumption; apply leaf_avoided; assumption.
Qed.
End Leaf.
End GraphFacts.

(* ====================================================================== *)
(** * The grid of the maze generator *)

Module GridFacts.
Import MazeGenerator MazeSpec.
Local Open Scope Z_scope.

Lemma index_Some {A} (arr : list A) (i : Z) (v : A) :
  index arr i = Some v <-> 0 <= i /\ arr !! Z.to_nat i = Some v.
Proof.
  unfold index. destruct (Z.ltb_spec i 0); split.
  - discriminate.
  - intros [? _]. lia.
  - intros H'. split; [assumption|exact H'].
  - intros [_ H']. exact H'.
Qed.

Lemma index_alter {A} (f : A -> A) (arr : list A) (i j : Z) :
  0 <= i ->
  index (alter f (Z.to_nat i) arr) j
  = if decide (j = i) then f <$> index arr i else index arr j.
Proof.
  intros Hi. unfold index.
  destruct (decide (j = i)) as [->|Hne].
  - destruct (Z.ltb_spec i 0); [lia|]. apply list_lookup_alter_eq.
  - destruct (Z.ltb_spec j 0); [reflexivity|].
    apply list_lookup_alter_ne. lia.
Qed.

(** A write through a reference is seen through that reference and
    through no other. *)
Lemma deref_setCell grid p f q :
  0 <= fst p -> 0 <= snd p ->
  deref (setCell grid p f) q
  = if decide (q = p) then f <$> deref grid p else deref grid q.
Proof.
  intros Hr Hc. destruct p as [pr pc], q as [qr qc].
  unfold deref, setCell; cbn [fst snd] in *.
  rewrite index_alter by assumption.
  destruct (decide (qr = pr)) as [->|Hne].
  - destruct (index grid pr) as [row|]; simpl.
    + rewrite index_alter by assumption.
      destruct (decide (qc = pc)) as [->|Hne].
      * rewrite decide_True by reflexivity. reflexivity.
      * rewrite decide_False by congruence. reflexivity.
    + destruct (decide ((pr, qc) = (pr, pc))); reflexivity.
  - rewrite decide_False by congruence. reflexivity.
Qed.

Lemma deref_newGrid cols rows p :
  deref (newGrid cols rows) p
  = if decide (inGrid cols rows p)
    then Some (mkCell (snd p) (fst p) false (mkWalls true true true true))
    else None.
Proof.
  destruct p as [pr pc]. unfold deref, newGrid, inGrid, index; simpl.
  destruct (Z.ltb_spec pr 0).
  { rewrite decide_False by lia. reflexivity. }
  rewrite list_lookup_fmap.
  destruct (decide (pr < rows)) as [Hr|Hr].
  - rewrite lookup_seqZ_lt by lia. simpl.
    destruct (Z.ltb_spec pc 0).
    { rewrite decide_False by lia. reflexivity. }
    rewrite list_lookup_fmap.
    destruct (decide (pc < cols)) as [Hc|Hc].
    + rewrite lookup_seqZ_lt by lia. simpl.
      rewrite decide_True by lia. do 2 f_equal; lia.
    + rewrite lookup_seqZ_ge by lia. simpl.
      rewrite decide_False by lia. reflexivity.
  - rewrite lookup_seqZ_ge by lia. simpl.
    rewrite decide_False by lia. reflexivity.
Qed.

Lemma wfGrid_newGrid cols rows : wfGrid cols rows (newGrid cols rows).
Proof.
  split.
  - intros p Hp. rewrite deref_newGrid, decide_True by assumption.
    eexists. split; [reflexivity|]. split; reflexivity.
  - intros p c. rewrite deref_newGrid.
    destruct (decide (inGrid cols rows p)); [auto|discriminate].
Qed.

(** A write that keeps [x] and [y] keeps the grid well formed. *)
Lemma wfGrid_setCell cols rows grid p f :
  wfGrid cols rows grid -> inGrid cols rows p ->
  (forall c, x (f c) = x c /\ y (f c) = y c) ->
  wfGrid cols rows (setCell grid p f).
Proof.
  intros [Hw1 Hw2] Hp Hf. destruct Hp as [Hpr Hpc]. split.
  - intros q Hq. rewrite deref_setCell by lia.
    destruct (decide (q = p)) as [->|Hne].
    + destruct (Hw1 p) as (c & -> & Hx & Hy); [split; assumption|].
      exists (f c). destruct (Hf c) as [-> ->]. auto.
    + apply Hw1, Hq.
  - intros q c. rewrite deref_setCell by lia.
    destruct (decide (q = p)) as [->|Hne].
    + intros _. split; assumption.
    + apply Hw2.
Qed.

(** ** Sides *)

Lemma opposite_opposite s : opposite (opposite s) = s.
Proof. destruct s; reflexivity. Qed.

Lemma across_opposite s p : across (opposite s) (across s p) = p.
Proof. destruct p, s; simpl; f_equal; lia. Qed.

Lemma across_inj s s' p : across s p = across s' p -> s = s'.
Proof.
  destruct p, s, s'; simpl; intros H; try reflexivity;
    injection H; intros; lia.
Qed.

Lemma across_ne s p : across s p <> p.
Proof. destruct p, s; simpl; intros H; injection H; intros; lia. Qed.

Lemma wallFlag_clear_same s c : wallFlag s (clearFlag s c) = false.
Proof. destruct s; reflexivity. Qed.

Lemma wallFlag_clear_other s s' c :
  s' <> s -> wallFlag s' (clearFlag s c) = wallFlag s' c.
Proof. destruct s, s'; intros H; try reflexivity; congruence. Qed.

Lemma wallFlag_clear_le s s' c :
  wallFlag s' c = false -> wallFlag s' (clearFlag s c) = false.
Proof. destruct s, s'; simpl; auto. Qed.

Lemma wallFlag_setVisited s c : wallFlag s (setVisited c) = wallFlag s c.
Proof. destruct s; reflexivity. Qed.

Lemma clearFlag_fields s c :
  x (clearFlag s c) = x c /\ y (clearFlag s c) = y c
  /\ visited (clearFlag s c) = visited c.
Proof. destruct s; simpl; auto. Qed.

Lemma passage_true grid p q :
  passage grid p q = true
  <-> exists s, q = across s p /\ passageOn grid p s = true.
Proof.
  unfold passage. rewrite existsb_exists. split.
  - intros (s & _ & H). apply andb_true_iff in H. destruct H as [H1 H2].
    apply bool_decide_eq_true in H1. eauto.
  - intros (s & -> & H). exists s. split.
    + destruct s; simpl; auto 6.
    + rewrite H, andb_true_r. apply bool_decide_eq_true. reflexivity.
Qed.

Lemma passageOn_true grid p s :
  passageOn grid p s = true
  <-> exists cp cq, deref grid p = Some cp /\ deref grid (across s p) = Some cq
                    /\ wallFlag s cp = false
                    /\ wallFlag (opposite s) cq = false.
Proof.
  unfold passageOn. split.
  - destruct (deref grid p) as [cp|]; [|discriminate].
    destruct (deref grid (across s p)) as [cq|]; [|discriminate].
    intros H. apply andb_true_iff in H. destruct H as [H1 H2].
    apply negb_true_iff in H1, H2. eauto 6.
  - intros (cp & cq & -> & -> & -> & ->). reflexivity.
Qed.

(** ** Removing a wall *)

Section Carved.
Context (cols rows : Z) (grid : Grid) (cur : Ref) (s : Side).
Hypothesis Hwf : wfGrid cols rows grid.
Hypothesis Hcur : inGrid cols rows cur.
Hypothesis Hnxt : inGrid cols rows (across s cur).

Lemma deref_carved q :
  deref (carved grid cur s) q
  = if decide (q = across s cur)
    then (fun c => setVisited (clearFlag (opposite s) c))
           <$> deref grid (across s cur)
    else if decide (q = cur) then clearFlag s <$> deref grid cur
    else deref grid q.
Proof.
  destruct Hcur as [? ?], Hnxt as [? ?]. unfold carved.
  rewrite !deref_setCell by lia.
  pose proof (across_ne s cur) as Hne.
  destruct (decide (q = across s cur)) as [->|Hq].
  - rewrite decide_True by reflexivity. rewrite decide_False by exact Hne.
    destruct (deref grid (across s cur)); reflexivity.
  - reflexivity.
Qed.

(** The cell behind each reference, before and after. *)
Lemma carved_cell q :
  (deref grid q = None /\ deref (carved grid cur s) q = None)
  \/ exists c c',
       deref grid q = Some c /\ deref (carved grid cur s) q = Some c'
       /\ x c' = x c /\ y c' = y c
       /\ (visited c' = true <-> visited c = true \/ q = across s cur)
       /\ (forall s', wallFlag s' c' = false
                      <-> wallFlag s' c = false
                          \/ (q = cur /\ s' = s)
                          \/ (q = across s cur /\ s' = opposite s)).
Proof.
  rewrite deref_carved. pose proof (across_ne s cur) as Hne.
  destruct (decide (q = across s cur)) as [->|Hq].
  - destruct (proj1 Hwf _ Hnxt) as (c & -> & _). right.
    exists c, (setVisited (clearFlag (opposite s) c)).
    destruct (clearFlag_fields (opposite s) c) as (Ex & Ey & _).
    repeat split; try assumption; simpl; auto.
    + rewrite wallFlag_setVisited. intros H.
      destruct (decide (s' = opposite s)) as [->|Hs]; [auto|].
      rewrite wallFlag_clear_other in H by assumption. auto.
    + rewrite wallFlag_setVisited. intros [H|[[H _]|[_ ->]]].
      * apply wallFlag_clear_le, H.
      * exfalso. exact (Hne H).
      * apply wallFlag_clear_same.
  - destruct (decide (q = cur)) as [->|Hc].
    + destruct (proj1 Hwf _ Hcur) as (c & -> & _). right.
      exists c, (clearFlag s c).
      destruct (clearFlag_fields s c) as (Ex & Ey & Ev).
      repeat split; try assumption.
      * rewrite Ev. auto.
      * rewrite Ev. intros [H|H]; [exact H|]. exfalso. apply Hne. auto.
      * intros H. destruct (decide (s' = s)) as [->|Hs]; [auto|].
        rewrite wallFlag_clear_other in H by assumption. auto.
      * intros [H|[[_ ->]|[H _]]].
        -- apply wallFlag_clear_le, H.
        -- apply wallFlag_clear_same.
        -- exfalso. apply Hne. auto.
    + destruct (deref grid q) as [c|]; [|left; auto]. right.
      exists c, c. repeat split; auto.
      * intros [H|H]; [exact H|contradiction].
      * intros [H|[[H _]|[H _]]]; [exact H|contradiction|contradiction].
Qed.

Lemma wfGrid_carved : wfGrid cols rows (carved grid cur s).
Proof.
  split.
  - intros q Hq. destruct (carved_cell q) as [[E _]|(c & c' & E & E' & Ex & Ey & _)].
    + destruct (proj1 Hwf q Hq) as (c & E' & _). congruence.
    + destruct (proj1 Hwf q Hq) as (c0 & E0 & Hx & Hy).
      exists c'. rewrite Ex, Ey. split; [exact E'|].
      assert (c0 = c) by congruence. subst c0. auto.
  - intros q c' E'.
    destruct (carved_cell q) as [[_ E]|(c & c0 & E & E0 & _)]; [congruence|].
    apply (proj2 Hwf q c E).
Qed.

Lemma visitedAt_carved q :
  visitedAt (carved grid cur s) q <-> visitedAt grid q \/ q = across s cur.
Proof.
  unfold visitedAt.
  destruct (carved_cell q) as [[E E']|(c & c' & E & E' & _ & _ & Hv & _)].
  - rewrite E, E'. split.
    + intros (c & Hc & _). discriminate.
    + intros [(c & Hc & _)| ->]; [discriminate|].
      destruct (proj1 Hwf _ Hnxt) as (c & Hc & _). congruence.
  - rewrite E, E'. split.
    + intros (c0 & Hc & H0). injection Hc as <-. apply Hv in H0.
      destruct H0; [left; eauto|right; assumption].
    + intros H. exists c'. split; [reflexivity|]. apply Hv.
      destruct H as [(c0 & Hc & H0)|H]; [left; congruence|right; exact H].
Qed.

(** The passages after the wall is removed: those there were, and the
    one between the two cells. *)
Lemma open_carved p q :
  open (carved grid cur s) p q
  <-> open grid p q
      \/ (p = cur /\ q = across s cur)
      \/ (p = across s cur /\ q = cur).
Proof.
  unfold open. rewrite !passage_true. split.
  - intros (s' & -> & H). apply passageOn_true in H.
    destruct H as (cp' & cq' & Ep' & Eq' & Fp' & Fq').
    destruct (carved_cell p) as [[_ E]|(cp & cp0 & Ep & Ep0 & _ & _ & _ & Hfp)];
      [congruence|].
    destruct (carved_cell (across s' p))
      as [[_ E]|(cq & cq0 & Eq & Eq0 & _ & _ & _ & Hfq)]; [congruence|].
    assert (cp0 = cp') by congruence. assert (cq0 = cq') by congruence.
    subst cp0 cq0. apply Hfp in Fp'. apply Hfq in Fq'.
    destruct Fp' as [Fp|[[-> ->]|[-> ->]]].
    + destruct Fq' as [Fq|[[Hq Hs]|[Hq Hs]]].
      * left. exists s'. split; [reflexivity|]. apply passageOn_true.
        exists cp, cq. auto.
      * right. right. rewrite Hq. split; [|reflexivity].
        rewrite <- Hs, <- Hq. symmetry. apply across_opposite.
      * right. left. rewrite Hq.
        assert (s' = s).
        { rewrite <- (opposite_opposite s'), Hs. apply opposite_opposite. }
        subst s'. split; [|reflexivity].
        rewrite <- (across_opposite s p), Hq. apply across_opposite.
    + right. left. auto.
    + right. right. split; [reflexivity|]. apply across_opposite.
  - intros [(s' & -> & H)|[[-> ->]|[-> ->]]].
    + exists s'. split; [reflexivity|]. apply passageOn_true in H.
      destruct H as (cp & cq & Ep & Eq & Fp & Fq). apply passageOn_true.
      destruct (carved_cell p) as [[E _]|(cp0 & cp' & Ep0 & Ep' & _ & _ & _ & Hfp)];
        [congruence|].
      destruct (carved_cell (across s' p))
        as [[E _]|(cq0 & cq' & Eq0 & Eq' & _ & _ & _ & Hfq)]; [congruence|].
      assert (cp0 = cp) by congruence. assert (cq0 = cq) by congruence.
      subst cp0 cq0. exists cp', cq'. repeat split; try assumption.
      * apply Hfp. left. exact Fp.
      * apply Hfq. left. exact Fq.
    + exists s. split; [reflexivity|]. apply passageOn_true.
      destruct (carved_cell cur) as [[E _]|(c & c' & E & E' & _ & _ & _ & Hf)].
      { destruct (proj1 Hwf _ Hcur) as (c & Hc & _). congruence. }
      destruct (carved_cell (across s cur))
        as [[E0 _]|(n & n' & En & En' & _ & _ & _ & Hfn)].
      { destruct (proj1 Hwf _ Hnxt) as (n & Hn & _). congruence. }
      exists c', n'. repeat split; try assumption.
      * apply Hf. right. left. auto.
      * apply Hfn. right. right. auto.
    + exists (opposite s). split; [symmetry; apply across_opposite|].
      apply passageOn_true. rewrite across_opposite.
      destruct (carved_cell cur) as [[E _]|(c & c' & E & E' & _ & _ & _ & Hf)].
      { destruct (proj1 Hwf _ Hcur) as (c & Hc & _). congruence. }
      destruct (carved_cell (across s cur))
        as [[E0 _]|(n & n' & En & En' & _ & _ & _ & Hfn)].
      { destruct (proj1 Hwf _ Hnxt) as (n & Hn & _). congruence. }
      exists n', c'. repeat split; try assumption.
      * apply Hfn. right. right. auto.
      * rewrite opposite_opposite. apply Hf. right. left. auto.
Qed.
End Carved.
End GridFacts.

(* ====================================================================== *)
(** * The carve loop *)

Module CarveFacts.
Import MazeGenerator MazeSpec GridFacts.
Local Open Scope Z_scope.

Lemma gbind_Ok {A B} (m : G A) (k : A -> G B) rng v rng' :
  m rng = Ok (v, rng') -> gbind m k rng = k v rng'.
Proof. unfold gbind. intros ->. reflexivity. Qed.

Lemma gbind_TypeError {A B} (m : G A) (k : A -> G B) rng :
  m rng = TypeError -> gbind m k rng = TypeError.
Proof. unfold gbind. intros ->. reflexivity. Qed.

Lemma cellAt_Ok grid p c rng :
  deref grid p = Some c -> cellAt grid p rng = Ok (c, rng).
Proof.
  unfold deref, cellAt. destruct (index grid (fst p)); [|discriminate].
  intros ->. reflexivity.
Qed.

Lemma cellAt_None grid p rng :
  deref grid p = None -> cellAt grid p rng = TypeError.
Proof.
  unfold deref, cellAt. destruct (index grid (fst p)); [|reflexivity].
  intros ->. reflexivity.
Qed.

Lemma pushUnvisited_Ok cols rows grid cond p N rng :
  wfGrid cols rows grid ->
  cond = bool_decide (inGrid cols rows p) ->
  pushUnvisited grid cond p N rng
  = Ok (N ++ (if cond && unvisitedb grid p then [p] else []), rng).
Proof.
  intros Hwf ->. unfold pushUnvisited, unvisitedb.
  destruct (bool_decide (inGrid cols rows p)) eqn:E; simpl.
  - apply bool_decide_eq_true in E.
    destruct (proj1 Hwf p E) as (c & Hc & _).
    rewrite (gbind_Ok _ _ _ _ _ (cellAt_Ok _ _ _ rng Hc)), Hc.
    unfold gret. destruct (visited c); simpl; [rewrite app_nil_r|]; reflexivity.
  - unfold gret. rewrite app_nil_r. reflexivity.
Qed.

(** The four tests collect the places across the four sides that are in
    the grid and not visited, in the order top, right, bottom, left. *)
Lemma unvisitedNeighbors_Ok cols rows grid cur c rng :
  wfGrid cols rows grid -> inGrid cols rows cur -> deref grid cur = Some c ->
  unvisitedNeighbors cols rows grid (x c) (y c) rng
  = Ok (candidate cols rows grid cur Top ++ candidate cols rows grid cur Right
        ++ candidate cols rows grid cur Bottom
        ++ candidate cols rows grid cur Left, rng).
Proof.
  intros Hwf Hcur Hc.
  destruct (proj1 Hwf cur Hcur) as (c' & Hc' & Hx & Hy).
  assert (c' = c) by congruence. subst c'. rewrite Hx, Hy.
  destruct cur as [r k]. destruct Hcur as [Hr Hk]. simpl in *.
  unfold unvisitedNeighbors, candidate.
  assert (E1 : (0 <? r) = bool_decide (inGrid cols rows (r - 1, k))).
  { unfold inGrid; simpl. destruct (Z.ltb_spec 0 r).
    - rewrite bool_decide_eq_true_2 by lia. reflexivity.
    - rewrite bool_decide_eq_false_2 by lia. reflexivity. }
  assert (E2 : (k <? cols - 1) = bool_decide (inGrid cols rows (r, k + 1))).
  { unfold inGrid; simpl. destruct (Z.ltb_spec k (cols - 1)).
    - rewrite bool_decide_eq_true_2 by lia. reflexivity.
    - rewrite bool_decide_eq_false_2 by lia. reflexivity. }
  assert (E3 : (r <? rows - 1) = bool_decide (inGrid cols rows (r + 1, k))).
  { unfold inGrid; simpl. destruct (Z.ltb_spec r (rows - 1)).
    - rewrite bool_decide_eq_true_2 by lia. reflexivity.
    - rewrite bool_decide_eq_false_2 by lia. reflexivity. }
  assert (E4 : (0 <? k) = bool_decide (inGrid cols rows (r, k - 1))).
  { unfold inGrid; simpl. destruct (Z.ltb_spec 0 k).
    - rewrite bool_decide_eq_true_2 by lia. reflexivity.
    - rewrite bool_decide_eq_false_2 by lia. reflexivity. }
  rewrite (gbind_Ok _ _ _ _ _
             (pushUnvisited_Ok cols rows grid _ (r - 1, k) [] rng Hwf E1)).
  rewrite (gbind_Ok _ _ _ _ _
             (pushUnvisited_Ok cols rows grid _ (r, k + 1) _ rng Hwf E2)).
  rewrite (gbind_Ok _ _ _ _ _
             (pushUnvisited_Ok cols rows grid _ (r + 1, k) _ rng Hwf E3)).
  rewrite (pushUnvisited_Ok cols rows grid _ (r, k - 1) _ rng Hwf E4).
  simpl.
  rewrite E1, E2, E3, E4, <- !app_assoc. reflexivity.
Qed.

Lemma candidate_elem cols rows grid cur s q :
  q ∈ candidate cols rows grid cur s
  <-> q = across s cur /\ inGrid cols rows q /\ unvisitedb grid q = true.
Proof.
  unfold candidate.
  destruct (bool_decide (inGrid cols rows (across s cur))) eqn:E1;
    destruct (unvisitedb grid (across s cur)) eqn:E2; simpl.
  - apply bool_decide_eq_true in E1. rewrite list_elem_of_singleton.
    split; [intros ->; auto|intros [-> _]; reflexivity].
  - split; [intros H; inversion H|intros (-> & _ & H); congruence].
  - apply bool_decide_eq_false in E1.
    split; [intros H; inversion H|intros (-> & H & _); contradiction].
  - split; [intros H; inversion H|intros (-> & _ & H); congruence].
Qed.

Lemma candidate_length cols rows grid cur s :
  (length (candidate cols rows grid cur s) <= 1)%nat.
Proof. unfold candidate. destruct (_ && _); simpl; lia. Qed.

(** A draw in [0, 1) picks an element of a list of at most four. *)
Lemma pick_Ok (N : list Ref) rng :
  N <> [] -> (length N <= 4)%nat ->
  (0 <= draws rng (cursor rng))%Q -> (draws rng (cursor rng) < 1)%Q ->
  exists nxt, nxt ∈ N /\ pick N rng = Ok (Some nxt, snd (nextDraw rng)).
Proof.
  intros Hne Hlen H0 H1. unfold pick, Math_random, gbind, gret.
  cbn [nextDraw fst snd].
  set (u := draws rng (cursor rng)) in *.
  set (len := Z.of_nat (length N)).
  assert (Hpos : 0 < len) by (destruct N; [contradiction|unfold len; simpl; lia]).
  assert (Hq0 : (0 <= u * inject_Z len)%Q).
  { apply Qmult_le_0_compat; [exact H0|].
    change (inject_Z 0 <= inject_Z len)%Q. rewrite <- Zle_Qle. lia. }
  assert (Hq1 : (u * inject_Z len < inject_Z len)%Q).
  { apply Qlt_le_trans with (1 * inject_Z len)%Q.
    - apply Qmult_lt_compat_r; [|exact H1].
      change (inject_Z 0 < inject_Z len)%Q. rewrite <- Zlt_Qlt. exact Hpos.
    - rewrite Qmult_1_l. apply Qle_refl. }
  unfold toInt32. rewrite (proj2 (Qle_bool_iff _ _) Hq0).
  set (z := Qfloor (u * inject_Z len)).
  assert (Hz0 : 0 <= z).
  { pose proof (Qfloor_resp_le _ _ Hq0) as H. exact H. }
  assert (Hz1 : z < len).
  { rewrite Zlt_Qlt. eapply Qle_lt_trans; [apply Qfloor_le|exact Hq1]. }
  replace ((z + 2 ^ 31) mod 2 ^ 32 - 2 ^ 31) with z
    by (rewrite Z.mod_small; lia).
  unfold index. destruct (Z.ltb_spec z 0); [lia|].
  destruct (lookup_lt_is_Some_2 N (Z.to_nat z)) as [nxt Hn]; [lia|].
  exists nxt. split; [|rewrite Hn; reflexivity].
  apply list_elem_of_lookup. eauto.
Qed.

(** The chain of comparisons removes the wall between the cell and the
    neighbour across side [s]. *)
Lemma removeWall_Ok cols rows grid cur s rng :
  wfGrid cols rows grid -> inGrid cols rows cur ->
  inGrid cols rows (across s cur) ->
  removeWall grid cur (across s cur) rng = Ok (carved grid cur s, rng).
Proof.
  intros Hwf Hcur Hnxt.
  destruct (proj1 Hwf _ Hcur) as (c & Hc & Hx & Hy).
  destruct (proj1 Hwf _ Hnxt) as (n & Hn & Hnx & Hny).
  unfold removeWall.
  rewrite (gbind_Ok _ _ _ _ _ (cellAt_Ok _ _ _ rng Hc)).
  rewrite (gbind_Ok _ _ _ _ _ (cellAt_Ok _ _ _ rng Hn)).
  rewrite Hx, Hy, Hnx, Hny. unfold gret, carved.
  destruct cur as [r k], s; simpl;
    repeat match goal with
      | |- context [?a <? ?b] => destruct (Z.ltb_spec a b); try lia
      end; reflexivity.
Qed.

(** ** The invariant *)

Lemma carveLoop_nil fuel cols rows grid rng :
  carveLoop fuel cols rows grid [] rng = Ok (grid, rng).
Proof. destruct fuel; reflexivity. Qed.

Lemma carveLoop_cons fuel cols rows grid cur rest :
  carveLoop (S fuel) cols rows grid (cur :: rest)
  = gbind (cellAt grid cur) (fun c =>
      gbind (unvisitedNeighbors cols rows grid (x c) (y c)) (fun N =>
        match N with
        | [] => carveLoop fuel cols rows grid rest
        | _ :: _ =>
            gbind (pick N) (fun picked =>
              match picked with
              | None => throwTypeError
              | Some nxt =>
                  gbind (removeWall grid cur nxt) (fun grid' =>
                    carveLoop fuel cols rows grid' (nxt :: cur :: rest))
              end)
        end)).
Proof. reflexivity. Qed.

Lemma places_elem cols rows p : p ∈ places cols rows <-> inGrid cols rows p.
Proof.
  destruct p as [r k]. unfold places, inGrid.
  rewrite list_elem_of_In, in_prod_iff, <- !list_elem_of_In, !elem_of_seqZ.
  simpl. lia.
Qed.

Lemma places_length cols rows :
  length (places cols rows) = (Z.to_nat rows * Z.to_nat cols)%nat.
Proof. unfold places. rewrite length_prod, !length_seqZ. reflexivity. Qed.

Lemma Inv_inGrid cols rows grid stack vs p :
  Inv cols rows grid stack vs -> p ∈ vs -> inGrid cols rows p.
Proof.
  intros I Hp. apply (inv_visited _ _ _ _ _ I) in Hp.
  destruct Hp as (c & Hc & _). exact (proj2 (inv_wf _ _ _ _ _ I) p c Hc).
Qed.

(** No more places are visited than the grid has. *)
Lemma Inv_count cols rows grid stack vs :
  Inv cols rows grid stack vs ->
  (length vs <= Z.to_nat rows * Z.to_nat cols)%nat.
Proof.
  intros I. rewrite <- places_length. apply submseteq_length.
  apply NoDup_submseteq; [exact (inv_nodup _ _ _ _ _ I)|].
  intros p Hp. apply places_elem. eapply Inv_inGrid; eassumption.
Qed.

Lemma unvisitedb_true grid p :
  unvisitedb grid p = true
  <-> exists c, deref grid p = Some c /\ visited c = false.
Proof.
  unfold unvisitedb. destruct (deref grid p) as [c|].
  - rewrite negb_true_iff. split; [eauto|].
    intros (c' & E & H). congruence.
  - split; [discriminate|]. intros (c' & E & _). discriminate.
Qed.

(** The invariant holds when the loop is entered. *)
Lemma Inv_init cols rows :
  1 <= cols -> 1 <= rows ->
  Inv cols rows (setCell (newGrid cols rows) (0, 0) setVisited)
      [(0, 0)] [(0, 0)].
Proof.
  intros Hc Hr.
  assert (H00 : inGrid cols rows (0, 0)) by (unfold inGrid; simpl; lia).
  assert (D : forall q,
             deref (setCell (newGrid cols rows) (0, 0) setVisited) q
             = if decide (inGrid cols rows q)
               then Some (mkCell (snd q) (fst q) (bool_decide (q = (0, 0)))
                                 (mkWalls true true true true))
               else None).
  { intros q. rewrite deref_setCell by (simpl; lia).
    rewrite !deref_newGrid.
    destruct (decide (q = (0, 0))) as [->|Hq].
    - rewrite bool_decide_eq_true_2 by reflexivity.
      repeat (destruct (decide _)); try contradiction; reflexivity.
    - rewrite bool_decide_eq_false_2 by assumption.
      repeat (destruct (decide _)); try contradiction; reflexivity. }
  split.
  - apply wfGrid_setCell; [apply wfGrid_newGrid|exact H00|].
    intros c. split; reflexivity.
  - intros p. unfold visitedAt. rewrite D, list_elem_of_singleton. split.
    + intros ->. rewrite decide_True by assumption.
      eexists. split; [reflexivity|]. reflexivity.
    + intros (c & E & Hv).
      destruct (decide (inGrid cols rows p)); [|discriminate].
      injection E as <-. simpl in Hv. apply bool_decide_eq_true in Hv.
      exact Hv.
  - apply NoDup_singleton.
  - apply list_elem_of_singleton. reflexivity.
  - apply GraphFacts.isTree_root. intros a b Hab.
    apply passage_true in Hab. destruct Hab as (s & -> & H).
    apply passageOn_true in H. destruct H as (cp & cq & Ep & _ & F & _).
    rewrite D in Ep. destruct (decide (inGrid cols rows a)); [|discriminate].
    injection Ep as <-. destruct s; discriminate.
  - auto.
  - intros p s Hp Hn. exfalso. exact (Hn Hp).
Qed.

(** The carve loop runs to its end on any budget that covers one
    iteration for each push and each pop still to come, and the invariant
    holds when it leaves. *)
Lemma carveLoop_Ok cols rows : forall fuel grid stack vs rng,
  Inv cols rows grid stack vs -> unitDraws rng ->
  (2 * (Z.to_nat rows * Z.to_nat cols) + length stack
   <= fuel + 2 * length vs)%nat ->
  exists grid' vs' rng',
    carveLoop fuel cols rows grid stack rng = Ok (grid', rng')
    /\ Inv cols rows grid' [] vs'.
Proof.
  induction fuel as [|fuel IH]; intros grid stack vs rng I Hrng Hm.
  - destruct stack as [|cur rest].
    + exists grid, vs, rng. split; [reflexivity|exact I].
    + pose proof (Inv_count _ _ _ _ _ I). simpl in Hm. lia.
  - destruct stack as [|cur rest].
    + exists grid, vs, rng. split; [reflexivity|exact I].
    + assert (Hcur : cur ∈ vs)
        by (apply (inv_stack _ _ _ _ _ I), elem_of_cons; auto).
      pose proof (Inv_inGrid _ _ _ _ _ _ I Hcur) as Gcur.
      pose proof (inv_wf _ _ _ _ _ I) as Hwf.
      destruct (proj1 Hwf _ Gcur) as (c & Hc & _).
      rewrite carveLoop_cons.
      rewrite (gbind_Ok _ _ _ _ _ (cellAt_Ok _ _ _ rng Hc)).
      rewrite (gbind_Ok _ _ _ _ _
                 (unvisitedNeighbors_Ok cols rows grid cur c rng Hwf Gcur Hc)).
      set (N := candidate cols rows grid cur Top ++ _).
      assert (HN : forall q, q ∈ N
                             <-> exists s, q = across s cur
                                           /\ inGrid cols rows q
                                           /\ unvisitedb grid q = true).
      { intros q. unfold N. rewrite !elem_of_app, !candidate_elem. split.
        - intros [H|[H|[H|H]]]; eauto.
        - intros ([] & H); auto. }
      assert (LN : (length N <= 4)%nat).
      { unfold N. rewrite !length_app.
        pose proof (candidate_length cols rows grid cur Top).
        pose proof (candidate_length cols rows grid cur Right).
        pose proof (candidate_length cols rows grid cur Bottom).
        pose proof (candidate_length cols rows grid cur Left). lia. }
      clearbody N. destruct N as [|n0 N'].
      * (* no unvisited neighbour: pop *)
        apply (IH grid rest vs rng); [|exact Hrng|simpl in Hm; lia].
        destruct I as [I1 I2 I3 I4 I5 I6 I7]. split; try assumption.
        -- intros p Hp. apply I6, elem_of_cons. auto.
        -- intros p s Hp Hnot Hin.
           destruct (decide (p = cur)) as [->|Hne].
           ++ destruct (proj1 Hwf _ Hin) as (cq & Hq & _).
              apply I2. exists cq. split; [exact Hq|].
              destruct (visited cq) eqn:Ev; [reflexivity|]. exfalso.
              assert (Hx : across s cur ∈ @nil (Z * Z)).
              { apply HN. exists s. split; [reflexivity|]. split; [exact Hin|].
                apply unvisitedb_true. eauto. }
              inversion Hx.
           ++ apply I7; [exact Hp| |exact Hin].
              intros H. apply elem_of_cons in H. destruct H; auto.
      * (* an unvisited neighbour is picked: push *)
        destruct (Hrng (cursor rng)) as [H0 H1]; [lia|].
        destruct (pick_Ok (n0 :: N') rng) as (nxt & Hnxt & Hpick);
          [discriminate|exact LN|exact H0|exact H1|].
        rewrite (gbind_Ok _ _ _ _ _ Hpick).
        apply HN in Hnxt. destruct Hnxt as (s & -> & Gnxt & Hun).
        rewrite (gbind_Ok _ _ _ _ _
                   (removeWall_Ok cols rows grid cur s _ Hwf Gcur Gnxt)).
        apply unvisitedb_true in Hun. destruct Hun as (cn & Hcn & Hvn).
        assert (Hfresh : across s cur ∉ vs).
        { intros H. apply (inv_visited _ _ _ _ _ I) in H.
          destruct H as (c' & Hc' & Hv'). congruence. }
        apply (IH (carved grid cur s) (across s cur :: cur :: rest)
                  (across s cur :: vs)).
        -- destruct I as [I1 I2 I3 I4 I5 I6 I7]. split.
           ++ apply wfGrid_carved; assumption.
           ++ intros p.
              rewrite (visitedAt_carved cols rows grid cur s Hwf Gcur Gnxt).
              rewrite elem_of_cons, I2. tauto.
           ++ apply NoDup_cons. split; assumption.
           ++ apply elem_of_cons. auto.
           ++ apply (GraphFacts.isTree_leaf (open grid) _ vs cur (across s cur));
                try assumption.
              intros a b. apply open_carved with (cols := cols) (rows := rows);
                assumption.
           ++ intros p Hp. apply elem_of_cons in Hp. apply elem_of_cons.
              destruct Hp as [->|Hp]; [auto|]. right. apply I6, Hp.
           ++ intros p s' Hp Hnot Hin. apply elem_of_cons. right.
              apply elem_of_cons in Hp. destruct Hp as [->|Hp].
              { exfalso. apply Hnot, elem_of_cons. auto. }
              apply I7; [exact Hp| |exact Hin].
              intros H. apply Hnot, elem_of_cons. auto.
        -- intros k Hk. apply Hrng. simpl in Hk. lia.
        -- simpl in *. lia.
Qed.

(** When the stack is empty every place of the grid is visited. *)
Lemma Inv_all_visited cols rows grid vs :
  Inv cols rows grid [] vs -> forall p, inGrid cols rows p -> p ∈ vs.
Proof.
  intros I.
  assert (Hstep : forall p s, p ∈ vs -> inGrid cols rows (across s p) ->
                              across s p ∈ vs).
  { intros p s Hp Hin. apply (inv_closed _ _ _ _ _ I); [exact Hp| |exact Hin].
    intros H. inversion H. }
  pose proof (Inv_inGrid _ _ _ _ _ _ I (inv_root _ _ _ _ _ I)) as [G1 G2].
  simpl in G1, G2.
  assert (Hcol : forall n : nat, Z.of_nat n < rows -> (Z.of_nat n, 0) ∈ vs).
  { induction n as [|n IHn]; intros Hn.
    - exact (inv_root _ _ _ _ _ I).
    - replace (Z.of_nat (S n), 0) with (across Bottom (Z.of_nat n, 0))
        by (simpl; f_equal; lia).
      apply Hstep; [apply IHn; lia|]. unfold inGrid; simpl. lia. }
  assert (Hrow : forall (m n : nat), Z.of_nat n < rows -> Z.of_nat m < cols ->
                                     (Z.of_nat n, Z.of_nat m) ∈ vs).
  { induction m as [|m IHm]; intros n Hn Hm.
    - apply Hcol, Hn.
    - replace (Z.of_nat n, Z.of_nat (S m))
        with (across Right (Z.of_nat n, Z.of_nat m))
        by (simpl; f_equal; lia).
      apply Hstep; [apply IHm; lia|]. unfold inGrid; simpl. lia. }
  intros [r k] [Hr Hk]. simpl in Hr, Hk.
  replace r with (Z.of_nat (Z.to_nat r)) by lia.
  replace k with (Z.of_nat (Z.to_nat k)) by lia.
  apply Hrow; lia.
Qed.

(** The carve phase on a grid with no cell at (0,0). *)
Lemma carve_undefined fuel cols rows rng :
  cols <= 0 \/ rows <= 0 -> carve fuel cols rows rng = TypeError.
Proof.
  intros H. unfold carve. apply gbind_TypeError, cellAt_None.
  rewrite deref_newGrid. apply decide_False.
  unfold inGrid; simpl. lia.
Qed.
End CarveFacts.

(* ====================================================================== *)
(** * The maze generator: the properties of the design document *)

Module MazeClaims.
Import MazeGenerator MazeSpec GridFacts CarveFacts.
Local Open Scope Z_scope.

(** C5.  For a grid of at least one column and one row, draws of
    [Math.random] in [0, 1), and a loop budget of [2 * cols * rows]
    iterations or more, the carve phase ends with a grid, and the removed
    walls make a spanning tree of it: every place of the grid is reached
    from (0,0) by a walk through removed walls, and between any two
    places there is a simple path through removed walls and no other. *)
Theorem carve_spanning_tree (fuel : nat) (cols rows : Z) (rng : Rng)
  (Hcols : 1 <= cols) (Hrows : 1 <= rows)
  (Hrng : forall k, (cursor rng <= k)%nat ->
                    (0 <= draws rng k)%Q /\ (draws rng k < 1)%Q)
  (Hfuel : 2 * cols * rows <= Z.of_nat fuel) :
  exists grid rng',
    carve fuel cols rows rng = Ok (grid, rng')
    /\ (forall b, inGrid cols rows b ->
                  exists p, Graph.walk (open grid) (0, 0) p b)
    /\ (forall a b, inGrid cols rows a -> inGrid cols rows b ->
                    exists p, Graph.simplePath (open grid) a p b
                              /\ forall q, Graph.simplePath (open grid) a q b ->
                                           q = p).
Proof.
  pose proof (Inv_init cols rows Hcols Hrows) as I0.
  destruct (carveLoop_Ok cols rows fuel _ _ _ rng I0 Hrng)
    as (grid & vs & rng' & Hrun & I).
  { simpl. rewrite <- Z2Nat.inj_mul by lia. lia. }
  exists grid, rng'. split.
  { unfold carve. erewrite gbind_Ok; [exact Hrun|].
    apply cellAt_Ok. rewrite deref_newGrid. apply decide_True.
    unfold inGrid; simpl. lia. }
  pose proof (Inv_all_visited _ _ _ _ I) as Hall.
  destruct (inv_tree _ _ _ _ _ I) as (_ & _ & Hex & Huniq).
  split.
  - intros b Hb.
    destruct (Hex (0, 0) b) as (p & Hw & _);
      [exact (inv_root _ _ _ _ _ I)|apply Hall, Hb|].
    exists p. exact Hw.
  - intros a b Ha Hb.
    destruct (Hex a b) as (p & Hp); [apply Hall, Ha|apply Hall, Hb|].
    exists p. split; [exact Hp|].
    intros q Hq. apply (Huniq a b); assumption.
Qed.

(** The theorem for a grid of two by two, every draw being zero. *)
Lemma carve_spanning_tree_witness :
  exists grid rng',
    carve 8 2 2 (mkRng (fun _ => 0%Q) 0) = Ok (grid, rng')
    /\ (forall b, inGrid 2 2 b ->
                  exists p, Graph.walk (open grid) (0, 0) p b)
    /\ (forall a b, inGrid 2 2 a -> inGrid 2 2 b ->
                    exists p, Graph.simplePath (open grid) a p b
                              /\ forall q, Graph.simplePath (open grid) a q b ->
                                           q = p).
Proof.
  apply (carve_spanning_tree 8 2 2 (mkRng (fun _ => 0%Q) 0)).
  - lia.
  - lia.
  - intros k _. split; [apply Qle_refl|reflexivity].
  - simpl. lia.
Defined.

(** C8, as the design document words it, fails: for sizes (0,0) the call
    does not end in an exception of its own making.  It ends in the
    [TypeError] of the access to [grid[0][0]]. *)
Lemma generate_zero_not_rejected :
  ~ exists reason,
      generate 0 0 0 (mkRng (fun _ => 0%Q) 0) = Thrown reason.
Proof. intros [reason H]. vm_compute in H. discriminate. Qed.

(** C8, amended.  With [cols <= 0] or [rows <= 0], [generate] returns no
    list of walls: the call ends in the [TypeError] JavaScript raises at
    [grid[0][0]], where the grid has no cell.  No test of the arguments
    comes before it. *)
Theorem generate_nonpositive_TypeError (fuel : nat) (cols rows : Z) (rng : Rng)
  (H : cols <= 0 \/ rows <= 0) :
  generate fuel cols rows rng = TypeError.
Proof.
  unfold generate. apply gbind_TypeError, carve_undefined, H.
Qed.

(** The theorem for no column, and for no row. *)
Lemma generate_nonpositive_TypeError_witness :
  generate 100 0 3 (mkRng (fun _ => 0%Q) 0) = TypeError
  /\ generate 100 3 0 (mkRng (fun _ => 0%Q) 0) = TypeError.
Proof.
  split.
  - apply (generate_nonpositive_TypeError 100 0 3). left. lia.
  - apply (generate_nonpositive_TypeError 100 3 0). right. lia.
Defined.
End MazeClaims.

(* ====================================================================== *)
(** * Further properties: vectors and intersections *)

Module GeometryMore.
Import Game Scene Plane Vec2Facts Geometry.
Local Open Scope R_scope.

Lemma mag_zero v : Vec2.mag v = 0 <-> v = Vec2.mk 0 0.
Proof.
  unfold Vec2.mag. rewrite hypot_zero. destruct v as [a b]; simpl. split.
  - intros [-> ->]. reflexivity.
  - intros H. injection H as -> ->. auto.
Qed.

(** The normalization of the zero vector. *)
Lemma normalize_null v : Vec2.mag v = 0 -> Vec2.normalize v = Vec2.mk 0 0.
Proof.
  intros Hz. pose proof (proj1 (mag_zero v) Hz) as ->.
  unfold Vec2.normalize; simpl.
  destruct (Reqb (Vec2.hypot 0 0) 0); [reflexivity|].
  apply vec_eq; unfold Rdiv; ring.
Qed.

(** A vector other than zero is its normalization times its length. *)
Lemma normalize_scaled v :
  Vec2.mag v <> 0 -> v = Vec2.mult (Vec2.normalize v) (Vec2.mag v).
Proof.
  intros Hnz. unfold Vec2.normalize, Vec2.mag in *.
  pose proof (proj2 (Reqb_false _ _) Hnz) as ->.
  destruct v as [a b]; unfold Vec2.mult; simpl in *.
  apply vec_eq; field; assumption.
Qed.

(** X1.  [Vec2.normalize] never divides by zero: it maps the zero vector
    to itself, and any other vector [v] to the vector of length one with
    [v = normalize(v) * |v|]. *)
Theorem normalize_zero_or_unit (v : Vec2.t) :
  (v = Vec2.mk 0 0 /\ Vec2.normalize v = Vec2.mk 0 0)
  \/ (v <> Vec2.mk 0 0
      /\ Vec2.mag (Vec2.normalize v) = 1
      /\ v = Vec2.mult (Vec2.normalize v) (Vec2.mag v)).
Proof.
  destruct (Req_dec_T (Vec2.mag v) 0) as [Hz|Hnz].
  - left. split; [apply mag_zero, Hz|apply normalize_null, Hz].
  - right. split; [intros ->; apply Hnz, mag_zero; reflexivity|].
    split; [apply normalize_mag, Hnz|apply normalize_scaled, Hnz].
Qed.

(** X2.  Normalizing twice is normalizing once. *)
Theorem normalize_idempotent (v : Vec2.t) :
  Vec2.normalize (Vec2.normalize v) = Vec2.normalize v.
Proof.
  destruct (Req_dec_T (Vec2.mag v) 0) as [Hz|Hnz].
  - rewrite (normalize_null v Hz). apply normalize_null, mag_zero. reflexivity.
  - apply normalize_unit, normalize_mag, Hnz.
Qed.

Lemma hypot_triangle a b c d :
  Vec2.hypot (a + c) (b + d) <= Vec2.hypot a b + Vec2.hypot c d.
Proof.
  pose proof (hypot_nonneg a b) as H1. pose proof (hypot_nonneg c d) as H2.
  pose proof (hypot_sqr a b) as S1. pose proof (hypot_sqr c d) as S2.
  pose proof (hypot_sqr (a + c) (b + d)) as S3.
  pose proof (hypot_nonneg (a + c) (b + d)) as H3.
  set (m1 := Vec2.hypot a b) in *. set (m2 := Vec2.hypot c d) in *.
  set (m3 := Vec2.hypot (a + c) (b + d)) in *. clearbody m1 m2 m3.
  (* Cauchy-Schwarz: a c + b d <= m1 m2 *)
  assert (CS : a * c + b * d <= m1 * m2).
  { destruct (Rle_dec (a * c + b * d) 0) as [Hn|Hp].
    - pose proof (Rmult_le_pos _ _ H1 H2). lra.
    - apply Rnot_le_lt in Hp.
      assert (Hsq : (a * c + b * d) * (a * c + b * d) <= (m1 * m2) * (m1 * m2)).
      { replace ((m1 * m2) * (m1 * m2)) with ((m1 * m1) * (m2 * m2)) by ring.
        rewrite S1, S2. pose proof (Rle_0_sqr (a * d - b * c)) as Q.
        unfold Rsqr in Q. lra. }
      pose proof (Rmult_le_pos _ _ H1 H2) as Hm.
      destruct (Rle_dec (a * c + b * d) (m1 * m2)) as [|Hgt]; [assumption|].
      apply Rnot_le_lt in Hgt. exfalso.
      assert (m1 * m2 * (m1 * m2) < (a * c + b * d) * (a * c + b * d)).
      { apply Rmult_le_0_lt_compat; lra. }
      lra. }
  destruct (Rle_dec m3 (m1 + m2)) as [|Hgt]; [assumption|].
  apply Rnot_le_lt in Hgt. exfalso.
  assert ((m1 + m2) * (m1 + m2) < m3 * m3).
  { apply Rmult_le_0_lt_compat; lra. }
  lra.
Qed.

(** X3.  [Vec2.dist] is a distance: it is the length of the difference,
    it is symmetric, it is zero between equal points only, and it obeys
    the triangle inequality. *)
Theorem dist_is_metric (a b c : Vec2.t) :
  Vec2.dist a b = Vec2.mag (Vec2.sub a b)
  /\ Vec2.dist a b = Vec2.dist b a
  /\ (Vec2.dist a b = 0 <-> a = b)
  /\ Vec2.dist a c <= Vec2.dist a b + Vec2.dist b c.
Proof.
  split; [reflexivity|]. split; [|split].
  - unfold Vec2.dist. apply hypot_of_square; [apply hypot_nonneg|].
    rewrite hypot_sqr. ring.
  - unfold Vec2.dist. rewrite hypot_zero.
    destruct a as [ax ay], b as [bx by_]; simpl. split.
    + intros [H1 H2]. apply vec_eq; lra.
    + intros H. injection H as -> ->. lra.
  - unfold Vec2.dist.
    replace (Vec2.x a - Vec2.x c)
      with ((Vec2.x a - Vec2.x b) + (Vec2.x b - Vec2.x c)) by ring.
    replace (Vec2.y a - Vec2.y c)
      with ((Vec2.y a - Vec2.y b) + (Vec2.y b - Vec2.y c)) by ring.
    apply hypot_triangle.
Qed.

(** X4.  The normal [calculateNormal] gives a wall with two distinct
    ends has length one and is perpendicular to the wall; for a wall
    whose ends coincide it is the zero vector. *)
Theorem calculateNormal_perpendicular (a b : Vec2.t) :
  (a = b /\ calculateNormal a b = Vec2.mk 0 0)
  \/ (a <> b
      /\ Vec2.mag (calculateNormal a b) = 1
      /\ Vec2.dot (calculateNormal a b) (Vec2.sub b a) = 0).
Proof.
  unfold calculateNormal.
  set (v := Vec2.mk (- (Vec2.y b - Vec2.y a)) (Vec2.x b - Vec2.x a)).
  destruct (Req_dec_T (Vec2.mag v) 0) as [Hz|Hnz].
  - left. split; [|apply normalize_null, Hz].
    pose proof (proj1 (mag_zero v) Hz) as Hv.
    unfold v in Hv. injection Hv as H1 H2.
    destruct a, b; simpl in *. apply vec_eq; lra.
  - pose proof (normalize_scaled v Hnz) as Hs.
    right. split; [|split; [apply normalize_mag, Hnz|]].
    + intros ->. apply Hnz, mag_zero. unfold v. apply vec_eq; ring.
    + assert (E : Vec2.mag v * Vec2.dot (Vec2.normalize v) (Vec2.sub b a) = 0).
      { replace (Vec2.mag v * Vec2.dot (Vec2.normalize v) (Vec2.sub b a))
          with (Vec2.dot (Vec2.mult (Vec2.normalize v) (Vec2.mag v))
                         (Vec2.sub b a))
          by (unfold Vec2.dot, Vec2.mult; simpl; ring).
        rewrite <- Hs. unfold Vec2.dot, Vec2.sub, v; simpl. ring. }
      apply Rmult_integral in E. destruct E; [contradiction|assumption].
Qed.

(** X5.  What [getLineIntersection] returns is a point of the ray, at a
    parameter that is not negative, and a point of the wall segment; and
    it returns one only when the cross product of the direction and the
    wall is at least 0.00001 in absolute value. *)
Theorem getLineIntersection_sound (p d a b : Vec2.t) (h : Hit)
  (H : getLineIntersection p d a b = Some h) :
  0 <= t h
  /\ point h = pointAt p d (t h)
  /\ onSegment a b (point h)
  /\ 1 / 100000 <= Rabs (cross d (Vec2.sub b a)).
Proof.
  unfold getLineIntersection in H.
  set (det := Vec2.dot _ _) in H.
  assert (Edet : det = cross d (Vec2.sub b a)).
  { unfold det, cross, Vec2.dot, Vec2.sub; simpl. ring. }
  destruct (Rltb (Rabs det) (1 / 100000)) eqn:E; [discriminate|].
  apply Rltb_false in E.
  assert (Hnz : det <> 0).
  { intros Z. rewrite Z, Rabs_R0 in E. lra. }
  cbn [Vec2.x Vec2.y] in H.
  set (t1 := _ / det) in H. set (t2 := Vec2.dot _ _ / det) in H.
  destruct (Rleb 0 t1) eqn:E1; [|discriminate].
  destruct (Rleb 0 t2) eqn:E2; [|discriminate].
  destruct (Rleb t2 1) eqn:E3; [|discriminate].
  apply Rleb_true in E1, E2, E3. simpl in H. injection H as <-. simpl.
  split; [exact E1|]. split; [reflexivity|]. split; [|rewrite <- Edet; exact E].
  exists t2. split; [lra|].
  assert (T1 : t1 * det = (Vec2.x b - Vec2.x a) * (Vec2.y p - Vec2.y a)
                          - (Vec2.y b - Vec2.y a) * (Vec2.x p - Vec2.x a)).
  { unfold t1. field. exact Hnz. }
  assert (T2 : t2 * det = (Vec2.x p - Vec2.x a) * - Vec2.y d
                          + (Vec2.y p - Vec2.y a) * Vec2.x d).
  { unfold t2, Vec2.dot; simpl. field. exact Hnz. }
  assert (D : det = (Vec2.x b - Vec2.x a) * - Vec2.y d
                    + (Vec2.y b - Vec2.y a) * Vec2.x d).
  { unfold det, Vec2.dot; simpl. ring. }
  clearbody det t1 t2.
  apply vec_eq.
  - apply (Rmult_eq_reg_r det); [|exact Hnz].
    replace ((Vec2.x p + t1 * Vec2.x d) * det)
      with (Vec2.x p * det + (t1 * det) * Vec2.x d) by ring.
    replace ((Vec2.x a + t2 * (Vec2.x b - Vec2.x a)) * det)
      with (Vec2.x a * det + (t2 * det) * (Vec2.x b - Vec2.x a)) by ring.
    rewrite T1, T2, D. ring.
  - apply (Rmult_eq_reg_r det); [|exact Hnz].
    replace ((Vec2.y p + t1 * Vec2.y d) * det)
      with (Vec2.y p * det + (t1 * det) * Vec2.y d) by ring.
    replace ((Vec2.y a + t2 * (Vec2.y b - Vec2.y a)) * det)
      with (Vec2.y a * det + (t2 * det) * (Vec2.y b - Vec2.y a)) by ring.
    rewrite T1, T2, D. ring.
Qed.

Lemma scene_intersection ty :
  getLineIntersection MirrorScene.origin MirrorScene.east
                      (Wall.a (MirrorScene.wall ty)) (Wall.b (MirrorScene.wall ty))
  = Some (mkHit 50 MirrorScene.middle).
Proof.
  destruct (nearestHit_some _ _ _ _ (Scenario.first_hit ty)) as (_ & H & _).
  exact H.
Qed.

(** The theorem at the wall of the scene. *)
Lemma getLineIntersection_sound_witness :
  onSegment (Wall.a (MirrorScene.wall "mirror"))
            (Wall.b (MirrorScene.wall "mirror")) MirrorScene.middle.
Proof.
  apply (getLineIntersection_sound MirrorScene.origin MirrorScene.east
           (Wall.a (MirrorScene.wall "mirror"))
           (Wall.b (MirrorScene.wall "mirror"))
           (mkHit 50 MirrorScene.middle)).
  exact (scene_intersection "mirror").
Defined.

(** X7.  A ray whose direction is parallel to the wall, up to a cross
    product below 0.00001 in absolute value, never intersects it; so
    neither does a ray of direction zero, nor any ray a wall whose two
    ends coincide. *)
Theorem getLineIntersection_parallel (p d a b : Vec2.t) :
  (Rabs (cross d (Vec2.sub b a)) < 1 / 100000 ->
   getLineIntersection p d a b = None)
  /\ getLineIntersection p (Vec2.mk 0 0) a b = None
  /\ getLineIntersection p d a a = None.
Proof.
  assert (G : forall p d a b, Rabs (cross d (Vec2.sub b a)) < 1 / 100000 ->
                              getLineIntersection p d a b = None).
  { clear. intros p d a b H. unfold getLineIntersection.
    replace (Vec2.dot _ _) with (cross d (Vec2.sub b a))
      by (unfold cross, Vec2.dot, Vec2.sub; simpl; ring).
    apply Rltb_true in H. rewrite H. reflexivity. }
  split; [apply G|]. split; apply G.
  - replace (cross _ _) with 0 by (unfold cross; simpl; ring).
    rewrite Rabs_R0. lra.
  - replace (cross _ _) with 0 by (unfold cross, Vec2.sub; simpl; ring).
    rewrite Rabs_R0. lra.
Qed.

(** ** The wall scan *)

Lemma scan_acc_le ws pos dir : forall acc h h0,
  fold_left (scanWall pos dir) ws acc = Some h ->
  acc = Some h0 -> minT h <= minT h0.
Proof.
  induction ws as [|w ws IH]; intros acc h h0 H E; simpl in H.
  - rewrite E in H. injection H as <-. lra.
  - rewrite E in H. unfold scanWall in H at 2.
    destruct (getLineIntersection pos dir (Wall.a w) (Wall.b w)) as [hit|];
      [|eapply IH; [exact H|reflexivity]].
    destruct (Rltb epsilon (t hit)); simpl in H;
      [|eapply IH; [exact H|reflexivity]].
    destruct (Rltb (t hit) (minT h0)) eqn:El;
      [|eapply IH; [exact H|reflexivity]].
    apply Rltb_true in El.
    pose proof (IH _ _ _ H eq_refl) as Hle. simpl in Hle. lra.
Qed.

Lemma scan_minimal ws pos dir : forall acc h,
  fold_left (scanWall pos dir) ws acc = Some h ->
  forall w hit, In w ws ->
    getLineIntersection pos dir (Wall.a w) (Wall.b w) = Some hit ->
    epsilon < t hit -> minT h <= t hit.
Proof.
  induction ws as [|w0 ws IH]; intros acc h H w hit Hin Hg He; simpl in *.
  - contradiction.
  - destruct Hin as [->|Hin]; [|eapply IH; eassumption].
    unfold scanWall in H at 2. rewrite Hg in H.
    pose proof (proj2 (Rltb_true _ _) He) as Eb. rewrite Eb in H. simpl in H.
    destruct acc as [n|].
    + destruct (Rltb (t hit) (minT n)) eqn:El.
      * pose proof (scan_acc_le _ _ _ _ _ _ H eq_refl) as Hle. exact Hle.
      * apply Rltb_false in El.
        pose proof (scan_acc_le _ _ _ _ _ _ H eq_refl) as Hle. lra.
    + pose proof (scan_acc_le _ _ _ _ _ _ H eq_refl) as Hle. exact Hle.
Qed.

Lemma scan_none ws pos dir : forall acc,
  fold_left (scanWall pos dir) ws acc = None ->
  acc = None
  /\ forall w hit, In w ws ->
       getLineIntersection pos dir (Wall.a w) (Wall.b w) = Some hit ->
       t hit <= epsilon.
Proof.
  induction ws as [|w0 ws IH]; intros acc H; simpl in *.
  - split; [exact H|]. intros w hit [].
  - destruct (IH _ H) as [E Hall]. unfold scanWall in E.
    destruct (getLineIntersection pos dir (Wall.a w0) (Wall.b w0))
      as [hit0|] eqn:Eg.
    + destruct (Rltb epsilon (t hit0)) eqn:Ee; simpl in E.
      * destruct acc as [n|]; [|discriminate].
        destruct (Rltb (t hit0) (minT n)); discriminate.
      * split; [exact E|]. intros w hit [<-|Hin] Hg.
        -- rewrite Eg in Hg. injection Hg as <-. apply Rltb_false, Ee.
        -- eapply Hall; eassumption.
    + split; [exact E|]. intros w hit [<-|Hin] Hg.
      * rewrite Eg in Hg. discriminate.
      * eapply Hall; eassumption.
Qed.

(** X8.  The wall scan returns the nearest intersection beyond
    [epsilon]: the wall it returns is in the list, the parameter and the
    point are those [getLineIntersection] gives for it, the parameter is
    beyond [epsilon], and no wall of the list has an intersection beyond
    [epsilon] at a smaller parameter. *)
Theorem nearestHit_is_nearest (ws : list Wall.t) (pos dir : Vec2.t)
  (h : Nearest) (H : nearestHit ws pos dir = Some h) :
  In (hitWall h) ws
  /\ getLineIntersection pos dir (Wall.a (hitWall h)) (Wall.b (hitWall h))
     = Some (mkHit (minT h) (closest h))
  /\ epsilon < minT h
  /\ forall w hit, In w ws ->
       getLineIntersection pos dir (Wall.a w) (Wall.b w) = Some hit ->
       epsilon < t hit -> minT h <= t hit.
Proof.
  destruct (nearestHit_some _ _ _ _ H) as (H1 & H2 & H3).
  repeat split; try assumption.
  exact (scan_minimal ws pos dir None h H).
Qed.

(** The theorem at the wall of the scene. *)
Lemma nearestHit_is_nearest_witness :
  epsilon < minT (MirrorScene.firstHit "mirror").
Proof.
  apply (nearestHit_is_nearest [MirrorScene.wall "mirror"]
           MirrorScene.origin MirrorScene.east
           (MirrorScene.firstHit "mirror")).
  exact (Scenario.first_hit "mirror").
Defined.

(** X9.  The wall scan finds nothing exactly when no wall of the list
    has an intersection beyond [epsilon]. *)
Theorem nearestHit_none_iff (ws : list Wall.t) (pos dir : Vec2.t) :
  nearestHit ws pos dir = None
  <-> forall w hit, In w ws ->
        getLineIntersection pos dir (Wall.a w) (Wall.b w) = Some hit ->
        t hit <= epsilon.
Proof.
  split.
  - intros H. exact (proj2 (scan_none ws pos dir None H)).
  - intros Hall. destruct (nearestHit ws pos dir) as [h|] eqn:E;
      [|reflexivity].
    destruct (nearestHit_some _ _ _ _ E) as (Hin & Hg & He).
    specialize (Hall _ _ Hin Hg). simpl in Hall. lra.
Qed.

(** ** The target test *)



(** X11.  The target test holds whenever an end of the segment is
    strictly inside the circle, and never holds for a circle whose
    radius is zero or less. *)
Theorem segmentCircleIntersect_ends (p1 p2 : Vec2.t) (c : Circle.t) :
  (Vec2.dist (Circle.pos c) p1 < Circle.r c ->
   segmentCircleIntersect p1 p2 c = true)
  /\ (Vec2.dist (Circle.pos c) p2 < Circle.r c ->
      segmentCircleIntersect p1 p2 c = true)
  /\ (Circle.r c <= 0 -> segmentCircleIntersect p1 p2 c = false).
Proof.
  split; [|split].
  - intros H. apply segmentCircleIntersect_iff. exists p1. split; [|exact H].
    exists 0. split; [lra|]. destruct p1; simpl. apply vec_eq; ring.
  - intros H. apply segmentCircleIntersect_iff. exists p2. split; [|exact H].
    exists 1. split; [lra|]. destruct p2; simpl. apply vec_eq; ring.
  - intros Hr. destruct (segmentCircleIntersect p1 p2 c) eqn:E; [|reflexivity].
    apply segmentCircleIntersect_iff in E. destruct E as (q & _ & Hd).
    pose proof (hypot_nonneg (Vec2.x (Circle.pos c) - Vec2.x q)
                             (Vec2.y (Circle.pos c) - Vec2.y q)).
    unfold Vec2.dist in Hd. lra.
Qed.

(** ** Reflection and refraction *)

(** X12.  Reflecting twice in the same mirror gives back the direction:
    for a direction and a normal of length one,
    the mirror branch applied to its own result returns the original. *)
Theorem mirrorDir_involution (d n : Vec2.t)
  (Hd : Vec2.mag d = 1) (Hn : Vec2.mag n = 1) :
  mirrorDir (mirrorDir d n) n = d.
Proof.
  assert (E : forall v, Vec2.mag v = 1 -> mirrorDir v n = reflect v n).
  { intros v Hv. unfold mirrorDir.
    destruct (mirrorNormal_spec v n) as (_ & _ & _ & ->).
    apply normalize_unit, reflect_mag; assumption. }
  rewrite (E d Hd), (E _ (reflect_mag d n Hn Hd)).
  apply mag_one_dot in Hn.
  unfold reflect at 1. rewrite (reflect_dot_normal d n Hn).
  unfold reflect, Vec2.sub, Vec2.mult; simpl. destruct d; simpl.
  apply vec_eq; ring.
Qed.

(** The theorem for the ray and the mirror of the scene. *)
Lemma mirrorDir_involution_witness :
  mirrorDir (mirrorDir MirrorScene.east MirrorScene.west) MirrorScene.west
  = MirrorScene.east.
Proof.
  apply (mirrorDir_involution MirrorScene.east MirrorScene.west).
  - exact Scenario.east_unit.
  - exact Scenario.west_unit.
Defined.

(** The glass branch, by cases. *)
Lemma glassDir_cases d n0 :
  glassDir d n0
  = if Rltb (Vec2.dot d n0) 0
    then (let n := CONFIG.airIndex / CONFIG.refractiveIndex in
          let cosI := - Vec2.dot n0 d in
          if Rltb 1 (n * n * (1 - cosI * cosI))
          then Vec2.normalize (reflect d n0) else snell d n0 n)
    else (let N := Vec2.mult n0 (-1) in
          let n := CONFIG.refractiveIndex / CONFIG.airIndex in
          let cosI := - Vec2.dot N d in
          if Rltb 1 (n * n * (1 - cosI * cosI))
          then Vec2.normalize (reflect d N) else snell d N n).
Proof.
  unfold glassDir, glassOrient, snell.
  destruct (Rltb (Vec2.dot d n0) 0); reflexivity.
Qed.

Lemma dot_le_one d n :
  Vec2.mag d = 1 -> Vec2.mag n = 1 -> Vec2.dot d n * Vec2.dot d n <= 1.
Proof.
  intros Hd Hn. apply mag_one_dot in Hd, Hn.
  unfold Vec2.dot in *.
  pose proof (Rle_0_sqr (Vec2.x d * Vec2.y n - Vec2.y d * Vec2.x n)) as Q.
  unfold Rsqr in Q.
  replace ((Vec2.x d * Vec2.x n + Vec2.y d * Vec2.y n)
           * (Vec2.x d * Vec2.x n + Vec2.y d * Vec2.y n))
    with ((Vec2.x d * Vec2.x d + Vec2.y d * Vec2.y d)
          * (Vec2.x n * Vec2.x n + Vec2.y n * Vec2.y n)
          - (Vec2.x d * Vec2.y n - Vec2.y d * Vec2.x n)
            * (Vec2.x d * Vec2.y n - Vec2.y d * Vec2.x n)) by ring.
  rewrite Hd, Hn. lra.
Qed.

(** The component of the refracted vector along the normal. *)
Lemma snell_dot_normal d N n :
  Vec2.mag N = 1 ->
  Vec2.dot (snell d N n) N
  = - sqrt (1 - n * n * (1 - Vec2.dot N d * Vec2.dot N d)).
Proof.
  intros HN. apply mag_one_dot in HN. unfold snell.
  set (cosT := sqrt _).
  replace (sqrt _) with cosT by (unfold cosT; do 2 f_equal; ring).
  set (k := n * - Vec2.dot N d - cosT).
  replace (Vec2.dot (Vec2.add (Vec2.mult d n) (Vec2.mult N k)) N)
    with (n * Vec2.dot N d + k * Vec2.dot N N)
    by (unfold Vec2.dot, Vec2.add, Vec2.mult; simpl; ring).
  rewrite HN. unfold k. ring.
Qed.

(** Refracting with a ratio and then with its inverse, at the same
    normal, gives back the direction. *)
Lemma snell_back d N n n' :
  Vec2.mag d = 1 -> Vec2.mag N = 1 -> n * n' = 1 ->
  Vec2.dot N d <= 0 ->
  n * n * (1 - Vec2.dot N d * Vec2.dot N d) <= 1 ->
  let d1 := snell d N n in
  n' * n' * (1 - Vec2.dot N d1 * Vec2.dot N d1)
  = 1 - Vec2.dot N d * Vec2.dot N d
  /\ snell d1 N n' = d.
Proof.
  intros Hd HN Hnn Hc Hs d1.
  set (c := Vec2.dot N d) in *.
  set (cosT := sqrt (1 - n * n * (1 - c * c))).
  assert (HT : cosT * cosT = 1 - n * n * (1 - c * c))
    by (apply sqrt_sqrt; lra).
  assert (E1 : Vec2.dot N d1 = - cosT).
  { rewrite dot_comm. unfold d1. rewrite snell_dot_normal by assumption.
    reflexivity. }
  assert (S1 : n' * n' * (1 - Vec2.dot N d1 * Vec2.dot N d1) = 1 - c * c).
  { rewrite E1.
    replace (n' * n' * (1 - - cosT * - cosT))
      with (n' * n' * (1 - cosT * cosT)) by ring.
    rewrite HT.
    replace (n' * n' * (1 - (1 - n * n * (1 - c * c))))
      with ((n * n') * (n * n') * (1 - c * c)) by ring.
    rewrite Hnn. ring. }
  split; [exact S1|].
  unfold snell at 1. rewrite E1.
  replace (n' * n' * (1 - - - cosT * - - cosT))
    with (n' * n' * (1 - Vec2.dot N d1 * Vec2.dot N d1))
    by (rewrite E1; ring).
  rewrite S1.
  replace (1 - (1 - c * c)) with (- c * - c) by ring.
  rewrite sqrt_square by lra.
  unfold d1, snell. fold c. fold cosT.
  replace (sqrt (1 - n * n * (1 - - c * - c))) with cosT
    by (unfold cosT; do 2 f_equal; ring).
  destruct d as [dx dy], N as [Nx Ny].
  unfold Vec2.add, Vec2.mult; simpl. apply vec_eq.
  - replace ((dx * n + Nx * (n * - c - cosT)) * n'
             + Nx * (n' * - - cosT - - c))
      with ((n * n') * dx + Nx * c * (1 - n * n')) by ring.
    rewrite Hnn. ring.
  - replace ((dy * n + Ny * (n * - c - cosT)) * n'
             + Ny * (n' * - - cosT - - c))
      with ((n * n') * dy + Ny * c * (1 - n * n')) by ring.
    rewrite Hnn. ring.
Qed.

Lemma mult_neg_neg n : Vec2.mult (Vec2.mult n (-1)) (-1) = n.
Proof. destruct n; unfold Vec2.mult; simpl. apply vec_eq; ring. Qed.

(** X13.  The critical angle.  For a direction [d] and a stored normal
    of length one, with [c = dot(d, normal)]: a ray that enters
    ([c < 0]) is always refracted, with ratio air over glass, and goes on
    through the wall; a ray that leaves ([c >= 0]) is refracted, with
    ratio glass over air, when [c^2 >= 5/9], and is reflected back when
    [c^2 < 5/9], where [5/9 = 1 - (1/1.5)^2]. *)
Theorem glass_critical_angle (d n0 : Vec2.t)
  (Hd : Vec2.mag d = 1) (Hn : Vec2.mag n0 = 1) :
  let c := Vec2.dot d n0 in
  let d' := glassDir d n0 in
  (c < 0 ->
   d' = snell d n0 (CONFIG.airIndex / CONFIG.refractiveIndex)
   /\ Vec2.dot d' n0 < 0)
  /\ (0 <= c -> 5 / 9 <= c * c ->
      d' = snell d (Vec2.mult n0 (-1)) (CONFIG.refractiveIndex / CONFIG.airIndex)
      /\ 0 <= Vec2.dot d' n0)
  /\ (0 <= c -> c * c < 5 / 9 ->
      d' = reflect d n0 /\ Vec2.dot d' n0 = - c).
Proof.
  intros c d'. unfold d'. rewrite glassDir_cases. fold c.
  pose proof (dot_le_one d n0 Hd Hn) as Hc1. fold c in Hc1.
  unfold CONFIG.airIndex, CONFIG.refractiveIndex. cbn zeta.
  assert (Ec : Vec2.dot n0 d = c) by apply dot_comm.
  assert (Ec' : Vec2.dot (Vec2.mult n0 (-1)) d = - c).
  { rewrite dot_comm, dot_mult_neg. reflexivity. }
  rewrite Ec, Ec'. split; [|split].
  - intros Hc. pose proof (proj2 (Rltb_true _ _) Hc) as ->.
    replace (Rltb 1 _) with false by (symmetry; apply Rltb_false; nra).
    split; [reflexivity|].
    rewrite snell_dot_normal by exact Hn. rewrite Ec.
    apply Ropp_lt_gt_0_contravar, Rlt_gt, sqrt_lt_R0. nra.
  - intros Hc H59. pose proof (proj2 (Rltb_false _ _) Hc) as ->.
    replace (Rltb 1 _) with false by (symmetry; apply Rltb_false; nra).
    split; [reflexivity|].
    assert (HN : Vec2.mag (Vec2.mult n0 (-1)) = 1)
      by (rewrite mult_neg_mag; exact Hn).
    pose proof (snell_dot_normal d (Vec2.mult n0 (-1)) (15 / 10 / 1) HN) as E.
    rewrite dot_mult_neg in E.
    assert (forall z, - z = - sqrt (1 - 15 / 10 / 1 * (15 / 10 / 1)
                                      * (1 - Vec2.dot (Vec2.mult n0 (-1)) d
                                             * Vec2.dot (Vec2.mult n0 (-1)) d))
                      -> 0 <= z) as G.
    { intros z Hz. pose proof (sqrt_pos (1 - 15 / 10 / 1 * (15 / 10 / 1)
                                      * (1 - Vec2.dot (Vec2.mult n0 (-1)) d
                                             * Vec2.dot (Vec2.mult n0 (-1)) d))).
      lra. }
    apply G, E.
  - intros Hc H59. pose proof (proj2 (Rltb_false _ _) Hc) as ->.
    replace (Rltb 1 _) with true by (symmetry; apply Rltb_true; nra).
    rewrite reflect_flip.
    rewrite normalize_unit by (apply reflect_mag; assumption).
    split; [reflexivity|].
    apply reflect_dot_normal, mag_one_dot, Hn.
Qed.

(** The theorem for the ray and the wall of the scene. *)
Lemma glass_critical_angle_witness :
  Vec2.dot (glassDir MirrorScene.east MirrorScene.west) MirrorScene.west < 0.
Proof.
  apply (glass_critical_angle MirrorScene.east MirrorScene.west
           Scenario.east_unit Scenario.west_unit).
  unfold Vec2.dot, MirrorScene.east, MirrorScene.west; simpl. lra.
Defined.

(** X14.  A slab with parallel faces does not bend the ray.  Two glass
    walls whose stored normals are opposite, as the two parallel faces of
    a closed outline have them, leave the direction as it was after the
    ray has crossed both, provided the first crossing is a refraction:
    the ray enters at the first face, or leaves at it beyond the
    critical angle ([c^2 > 5/9]). *)
Theorem glass_slab_round_trip (d n0 : Vec2.t)
  (Hd : Vec2.mag d = 1) (Hn : Vec2.mag n0 = 1)
  (H : Vec2.dot d n0 < 0
       \/ (0 < Vec2.dot d n0 /\ 5 / 9 < Vec2.dot d n0 * Vec2.dot d n0)) :
  glassDir (glassDir d n0) (Vec2.mult n0 (-1)) = d.
Proof.
  set (c := Vec2.dot d n0) in *.
  pose proof (dot_le_one d n0 Hd Hn) as Hc1. fold c in Hc1.
  assert (Ec : Vec2.dot n0 d = c) by apply dot_comm.
  assert (HN : Vec2.mag (Vec2.mult n0 (-1)) = 1)
    by (rewrite mult_neg_mag; exact Hn).
  assert (Ec' : Vec2.dot (Vec2.mult n0 (-1)) d = - c).
  { rewrite dot_comm, dot_mult_neg. reflexivity. }
  destruct H as [Hc|[Hc H59]].
  - assert (E1 : glassDir d n0
                 = snell d n0 (CONFIG.airIndex / CONFIG.refractiveIndex)).
    { rewrite glassDir_cases. fold c. cbn zeta.
      pose proof (proj2 (Rltb_true _ _) Hc) as ->. rewrite Ec.
      replace (Rltb 1 _) with false; [reflexivity|].
      symmetry. apply Rltb_false.
      unfold CONFIG.airIndex, CONFIG.refractiveIndex. nra. }
    rewrite E1.
    set (n := CONFIG.airIndex / CONFIG.refractiveIndex) in *.
    set (d1 := snell d n0 n) in *.
    assert (Hlt : Vec2.dot d1 n0 < 0).
    { unfold d1. rewrite snell_dot_normal by exact Hn. rewrite Ec.
      apply Ropp_lt_gt_0_contravar, Rlt_gt, sqrt_lt_R0.
      unfold n, CONFIG.airIndex, CONFIG.refractiveIndex. nra. }
    destruct (snell_back d n0 n (CONFIG.refractiveIndex / CONFIG.airIndex)
                Hd Hn) as [S1 S2].
    { unfold n, CONFIG.airIndex, CONFIG.refractiveIndex. field. }
    { rewrite Ec. lra. }
    { rewrite Ec. unfold n, CONFIG.airIndex, CONFIG.refractiveIndex. nra. }
    fold d1 in S1, S2. rewrite Ec in S1.
    rewrite glassDir_cases. cbn zeta.
    replace (Rltb (Vec2.dot d1 (Vec2.mult n0 (-1))) 0) with false
      by (symmetry; apply Rltb_false; rewrite dot_mult_neg; lra).
    rewrite mult_neg_neg.
    replace (Rltb 1 _) with false; [exact S2|].
    symmetry. apply Rltb_false.
    replace (- Vec2.dot n0 d1 * - Vec2.dot n0 d1)
      with (Vec2.dot n0 d1 * Vec2.dot n0 d1) by ring.
    rewrite S1. nra.
  - assert (E1 : glassDir d n0
                 = snell d (Vec2.mult n0 (-1))
                         (CONFIG.refractiveIndex / CONFIG.airIndex)).
    { rewrite glassDir_cases. fold c. cbn zeta.
      replace (Rltb c 0) with false by (symmetry; apply Rltb_false; lra).
      rewrite Ec'.
      replace (Rltb 1 _) with false; [reflexivity|].
      symmetry. apply Rltb_false.
      unfold CONFIG.airIndex, CONFIG.refractiveIndex. nra. }
    rewrite E1.
    set (N := Vec2.mult n0 (-1)) in *.
    set (n := CONFIG.refractiveIndex / CONFIG.airIndex) in *.
    set (d1 := snell d N n) in *.
    assert (Hs : n * n * (1 - Vec2.dot N d * Vec2.dot N d) < 1).
    { rewrite Ec'. unfold n, CONFIG.airIndex, CONFIG.refractiveIndex. nra. }
    destruct (snell_back d N n (CONFIG.airIndex / CONFIG.refractiveIndex)
                Hd HN) as [S1 S2].
    { unfold n, CONFIG.airIndex, CONFIG.refractiveIndex. field. }
    { rewrite Ec'. lra. }
    { lra. }
    fold d1 in S1, S2. rewrite Ec' in S1.
    assert (Hd1 : Vec2.dot d1 N < 0).
    { unfold d1. rewrite snell_dot_normal by exact HN.
      apply Ropp_lt_gt_0_contravar, Rlt_gt, sqrt_lt_R0. lra. }
    rewrite glassDir_cases. cbn zeta.
    replace (Rltb (Vec2.dot d1 N) 0) with true
      by (symmetry; apply Rltb_true; exact Hd1).
    replace (Rltb 1 _) with false; [exact S2|].
    symmetry. apply Rltb_false.
    replace (- Vec2.dot N d1 * - Vec2.dot N d1)
      with (Vec2.dot N d1 * Vec2.dot N d1) by ring.
    rewrite S1. nra.
Qed.

(** The theorem for the ray of the scene, entering at a wall that
    faces it. *)
Lemma glass_slab_round_trip_witness :
  glassDir (glassDir MirrorScene.east MirrorScene.west)
           (Vec2.mult MirrorScene.west (-1))
  = MirrorScene.east.
Proof.
  apply (glass_slab_round_trip MirrorScene.east MirrorScene.west
           Scenario.east_unit Scenario.west_unit).
  left. unfold Vec2.dot, MirrorScene.east, MirrorScene.west; simpl. lra.
Defined.
End GeometryMore.

(* ====================================================================== *)
(** * Further properties: the trace as a whole *)

Module TraceMore.
Import Game Scene Plane Vec2Facts Geometry LoopFacts GeometryMore.
Local Open Scope R_scope.

Lemma segments_snoc {A} (l : list A) (a b : A) :
  segments (l ++ [a; b]) = segments (l ++ [a]) ++ [(a, b)].
Proof.
  induction l as [|x l IH]; [reflexivity|].
  destruct l as [|y l]; [reflexivity|].
  change (segments ((x :: y :: l) ++ [a; b]))
    with ((x, y) :: segments ((y :: l) ++ [a; b])).
  change (segments ((x :: y :: l) ++ [a]))
    with ((x, y) :: segments ((y :: l) ++ [a])).
  rewrite IH. reflexivity.
Qed.

(** The segments of a path that ends at [a], after one more point. *)
Lemma segments_push {A} (l : list A) (a b : A) :
  endsWith l a ->
  segments (l ++ [b]) = segments l ++ [(a, b)]
  /\ exists l', l ++ [b] = l' ++ [a; b].
Proof.
  intros [l' ->]. rewrite <- app_assoc. simpl.
  split; [apply segments_snoc|]. exists l'. reflexivity.
Qed.

(** How the loop ends: either its condition fails, and what held at the
    start and is kept by every iteration that goes on holds at the end;
    or some iteration breaks, starting from a state where it held. *)
Lemma loopIn_last ws tg (P : Ray -> Prop) :
  (forall st, P st -> snd (stepIn ws tg st) = Next ->
              P (fst (stepIn ws tg st))) ->
  forall n i st, P st ->
    let e := loopIn ws tg n i st in
    (exit e = Exhausted /\ P (final e))
    \/ exists st' site,
         P st' /\ stepIn ws tg st' = (final e, Break site)
         /\ exit e = Broke site.
Proof.
  intros Hstep. induction n as [|n IH]; intros i st HP; cbn zeta.
  - rewrite loopIn_zero. left. split; [reflexivity|exact HP].
  - rewrite loopIn_succ. destruct (snd (stepIn ws tg st)) as [|site] eqn:E.
    + apply IH, Hstep; assumption.
    + right. exists st, site. repeat split; try assumption.
      simpl. rewrite <- E. destruct (stepIn ws tg st); reflexivity.
Qed.

(** An iteration that hits a wall of a known kind. *)
Lemma stepIn_known ws tg st h :
  nearestHit ws (currPos st) (currDir st) = Some h ->
  knownType (hitWall h) ->
  let hit' := segmentCircleIntersect (currPos st) (closest h) tg
              || hitTarget st in
  let pts' := points st ++ [closest h] in
  stepIn ws tg st = (mkRay pts' (currPos st) (currDir st) hit', Break AtAbsorb)
  \/ exists d',
       (d' = mirrorDir (currDir st) (Wall.normal (hitWall h))
        /\ Wall.type (hitWall h) = "mirror"%string
        \/ d' = glassDir (currDir st) (Wall.normal (hitWall h))
           /\ Wall.type (hitWall h) = "glass"%string)
       /\ stepIn ws tg st
          = (mkRay pts' (closest h) d' hit',
             if hit' then Break AtTarget else Next).
Proof.
  intros H K. cbn zeta. rewrite (stepIn_hit ws tg st h H). cbn zeta.
  destruct K as [K|[K|K]]; rewrite K; cbn [String.eqb Ascii.eqb Bool.eqb].
  - right. eexists. split; [left; split; reflexivity|reflexivity].
  - right. eexists. split; [right; split; reflexivity|reflexivity].
  - left. reflexivity.
Qed.

Lemma known_hit ws pos dir h :
  Forall knownType ws -> nearestHit ws pos dir = Some h ->
  knownType (hitWall h).
Proof.
  intros F H. destruct (nearestHit_some _ _ _ _ H) as (Hin & _).
  rewrite Forall_forall in F. apply F. apply list_elem_of_In. exact Hin.
Qed.

(** Among walls of known kinds, an iteration that goes on keeps the ray
    on track. *)
Lemma onTrack_step ws tg :
  Forall knownType ws ->
  forall st, onTrack tg st -> snd (stepIn ws tg st) = Next ->
             onTrack tg (fst (stepIn ws tg st)).
Proof.
  intros F st (Hend & Hh & Hseg) Hn.
  destruct (nearestHit ws (currPos st) (currDir st)) as [h|] eqn:E.
  2:{ rewrite (stepIn_escape ws tg st E) in Hn. discriminate. }
  destruct (stepIn_known ws tg st h E (known_hit _ _ _ _ F E))
    as [S|(d' & _ & S)]; rewrite S in Hn |- *; [discriminate|].
  cbn [fst snd] in *. rewrite Hh, orb_false_r in Hn |- *.
  destruct (segmentCircleIntersect (currPos st) (closest h) tg) eqn:Es;
    [discriminate|].
  destruct (segments_push (points st) (currPos st) (closest h) Hend)
    as [Sg _].
  split; [|split].
  - exists (points st). reflexivity.
  - reflexivity.
  - cbn [points]. rewrite Sg. intros p q Hin. apply in_app_iff in Hin.
    destruct Hin as [Hin|[Hin|[]]]; [apply Hseg, Hin|].
    injection Hin as <- <-. intros Hp.
    apply segmentCircleIntersect_iff in Hp. congruence.
Qed.

Lemma onTrack_start tg start dir :
  onTrack tg (mkRay [start] start dir false).
Proof.
  split; [exists []; reflexivity|]. split; [reflexivity|].
  intros p q [].
Qed.

(** X15.  A win is real.  Among walls of the three known kinds, when
    [traceRay] returns [success = true] the last segment of the returned
    path passes within the target. *)
Theorem success_last_segment_hits (w : World) (start dir : Vec2.t)
  (Hk : Forall knownType (walls (this w)))
  (Hs : success (fst (traceRay start dir w)) = true) :
  exists pts p q,
    path (fst (traceRay start dir w)) = pts ++ [p; q]
    /\ passesWithin p q (target (this w)).
Proof.
  destruct (traceRay_run start dir w) as (_ & Hr & _). cbn zeta in Hr.
  rewrite Hr in Hs |- *. cbn [path success] in *.
  destruct (loopIn_last (walls (this w)) (target (this w))
              (onTrack (target (this w)))
              (onTrack_step _ _ Hk)
              (Z.to_nat (maxBounces (this w))) 0
              (mkRay [start] start (Vec2.normalize dir) false)
              (onTrack_start _ _ _))
    as [[_ (_ & Hh & _)]|(st' & site & (Hend & Hh & Hseg) & S & _)].
  { congruence. }
  set (e := loopIn _ _ _ _ _) in *. clearbody e.
  destruct (nearestHit (walls (this w)) (currPos st') (currDir st'))
    as [h|] eqn:E.
  2:{ rewrite (stepIn_escape _ _ st' E) in S. injection S as S _.
      rewrite <- S in Hs. simpl in Hs. congruence. }
  destruct (segments_push (points st') (currPos st') (closest h) Hend)
    as [_ (pts & Ep)].
  assert (Hf : points (final e) = points st' ++ [closest h]
               /\ hitTarget (final e)
                  = segmentCircleIntersect (currPos st') (closest h)
                                           (target (this w))
                    || hitTarget st').
  { destruct (stepIn_known _ (target (this w)) st' h E (known_hit _ _ _ _ Hk E))
      as [S'|(d' & _ & S')]; rewrite S' in S; injection S as S _;
      rewrite <- S; split; reflexivity. }
  destruct Hf as [Hp Ht]. rewrite Ht, Hh, orb_false_r in Hs.
  exists pts, (currPos st'), (closest h). split; [rewrite Hp; exact Ep|].
  apply segmentCircleIntersect_iff, Hs.
Qed.

(** X16.  A loss is real.  Among walls of the three known kinds, when
    [traceRay] returns [success = false], a segment of the returned path
    that passes within the target can only be the last one, after the
    loop was left through the escape branch. *)
Theorem failure_only_escape_segment_hits (w : World) (start dir p q : Vec2.t)
  (Hk : Forall knownType (walls (this w)))
  (Hs : success (fst (traceRay start dir w)) = false)
  (Hin : In (p, q) (segments (path (fst (traceRay start dir w)))))
  (Hpq : passesWithin p q (target (this w))) :
  exit (fst (traceLoop start dir w)) = Broke AtEscape
  /\ exists pts, path (fst (traceRay start dir w)) = pts ++ [p; q].
Proof.
  destruct (traceRay_run start dir w) as (Hl & Hr & _). cbn zeta in Hl, Hr.
  rewrite Hl. rewrite Hr in Hs, Hin |- *. cbn [path success fst] in *.
  destruct (loopIn_last (walls (this w)) (target (this w))
              (onTrack (target (this w)))
              (onTrack_step _ _ Hk)
              (Z.to_nat (maxBounces (this w))) 0
              (mkRay [start] start (Vec2.normalize dir) false)
              (onTrack_start _ _ _))
    as [[_ (_ & _ & Hseg)]|(st' & site & (Hend & Hh & Hseg) & S & Hx)].
  { exfalso. exact (Hseg p q Hin Hpq). }
  set (e := loopIn _ _ _ _ _) in *. clearbody e. rewrite Hx.
  destruct (nearestHit (walls (this w)) (currPos st') (currDir st'))
    as [h|] eqn:E.
  - exfalso.
    destruct (segments_push (points st') (currPos st') (closest h) Hend)
      as [Sg _].
    assert (Hf : points (final e) = points st' ++ [closest h]
                 /\ hitTarget (final e)
                    = segmentCircleIntersect (currPos st') (closest h)
                                             (target (this w))
                      || hitTarget st').
    { destruct (stepIn_known _ (target (this w)) st' h E
                  (known_hit _ _ _ _ Hk E))
        as [S'|(d' & _ & S')]; rewrite S' in S; injection S as S _;
        rewrite <- S; split; reflexivity. }
    destruct Hf as [Hp Ht]. rewrite Ht, Hh, orb_false_r in Hs.
    rewrite Hp, Sg in Hin. apply in_app_iff in Hin.
    destruct Hin as [Hin|[Hin|[]]]; [exact (Hseg p q Hin Hpq)|].
    injection Hin as <- <-.
    apply segmentCircleIntersect_iff in Hpq. congruence.
  - rewrite (stepIn_escape _ _ st' E) in S. injection S as S Hsite.
    rewrite <- Hsite. split; [reflexivity|].
    destruct (segments_push (points st') (currPos st')
                (farPoint (currPos st') (currDir st')) Hend)
      as [Sg (pts & Ep)].
    rewrite <- S in Hin |- *. cbn [points] in *.
    rewrite Sg in Hin. apply in_app_iff in Hin.
    destruct Hin as [Hin|[Hin|[]]]; [exfalso; exact (Hseg p q Hin Hpq)|].
    injection Hin as <- <-. exists pts. exact Ep.
Qed.

(** ** The scene again, with the target elsewhere *)

Lemma first_segment_far tx :
  tx <= -15 \/ 65 <= tx ->
  segmentCircleIntersect MirrorScene.origin MirrorScene.middle
                         (Circle.mk tx 50 15) = false.
Proof.
  intros Htx. destruct (segmentCircleIntersect _ _ _) eqn:E; [|reflexivity].
  apply segmentCircleIntersect_iff in E.
  destruct E as (q & (s & Hs & ->) & Hd).
  unfold Vec2.dist, Circle.pos, MirrorScene.origin, MirrorScene.middle in Hd;
    simpl in Hd.
  apply hypot_lt in Hd. destruct Hd as [_ Hd].
  pose proof (Rle_0_sqr (50 - (50 + s * (50 - 50)))) as Hq. unfold Rsqr in Hq.
  assert (225 <= (tx - (0 + s * (50 - 0))) * (tx - (0 + s * (50 - 0)))).
  { destruct Htx as [Htx|Htx].
    - replace ((tx - (0 + s * (50 - 0))) * (tx - (0 + s * (50 - 0))))
        with ((50 * s - tx) * (50 * s - tx)) by ring.
      assert (15 <= 50 * s - tx) by lra.
      replace 225 with (15 * 15) by lra.
      apply Rmult_le_compat; lra.
    - replace ((tx - (0 + s * (50 - 0))) * (tx - (0 + s * (50 - 0))))
        with ((tx - 50 * s) * (tx - 50 * s)) by ring.
      assert (15 <= tx - 50 * s) by lra.
      replace 225 with (15 * 15) by lra.
      apply Rmult_le_compat; lra. }
  lra.
Qed.

(** The trace of the scene when the target is off the first segment. *)
Lemma scene_trace_far tx :
  tx <= -15 \/ 65 <= tx ->
  traceLoop MirrorScene.origin MirrorScene.east (MirrorScene.world 20 "mirror" tx)
  = (mkLoopEnd (mkRay [MirrorScene.origin; MirrorScene.middle; Vec2.mk (-1950) 50]
                      MirrorScene.middle MirrorScene.west false)
               2 (Broke AtEscape),
     snd (traceRay MirrorScene.origin MirrorScene.east
                   (MirrorScene.world 20 "mirror" tx)))
  /\ fst (traceRay MirrorScene.origin MirrorScene.east
                   (MirrorScene.world 20 "mirror" tx))
     = mkResult [MirrorScene.origin; MirrorScene.middle; Vec2.mk (-1950) 50]
                false.
Proof.
  intros Htx.
  destruct (traceRay_run MirrorScene.origin MirrorScene.east
              (MirrorScene.world 20 "mirror" tx)) as (Hl & Hr & _).
  cbn zeta in *. rewrite Hl, Hr. clear Hl Hr.
  cbn [MirrorScene.world this walls target maxBounces].
  change (Z.to_nat 20) with 20%nat.
  rewrite (normalize_unit MirrorScene.east Scenario.east_unit).
  rewrite loopIn_succ.
  rewrite (stepIn_hit [MirrorScene.wall "mirror"] (Circle.mk tx 50 15)
             (mkRay [MirrorScene.origin] MirrorScene.origin MirrorScene.east false)
             _ (Scenario.first_hit "mirror")).
  cbn zeta. cbn [currPos currDir closest hitWall hitTarget points].
  rewrite (first_segment_far tx Htx), Scenario.wall_normal,
    Scenario.mirror_turns_back.
  cbn [MirrorScene.wall newWall Wall.type String.eqb Ascii.eqb Bool.eqb
       orb fst snd].
  rewrite loopIn_succ.
  rewrite stepIn_escape by apply Scenario.second_miss.
  cbn [fst snd currPos currDir hitTarget points app].
  assert (E : farPoint MirrorScene.middle MirrorScene.west = Vec2.mk (-1950) 50).
  { unfold farPoint, MirrorScene.middle, MirrorScene.west; simpl.
    apply vec_eq; lra. }
  rewrite E. split; reflexivity.
Qed.

(** The trace of the scene when the target is on the way to the mirror. *)
Lemma scene_trace_win :
  fst (traceRay MirrorScene.origin MirrorScene.east
                (MirrorScene.world 20 "mirror" 25))
  = mkResult [MirrorScene.origin; MirrorScene.middle] true.
Proof.
  destruct (traceRay_run MirrorScene.origin MirrorScene.east
              (MirrorScene.world 20 "mirror" 25)) as (_ & Hr & _).
  cbn zeta in *. rewrite Hr. clear Hr.
  cbn [MirrorScene.world this walls target maxBounces].
  change (Z.to_nat 20) with 20%nat.
  rewrite (normalize_unit MirrorScene.east Scenario.east_unit).
  rewrite loopIn_succ.
  rewrite (stepIn_hit [MirrorScene.wall "mirror"] (Circle.mk 25 50 15)
             (mkRay [MirrorScene.origin] MirrorScene.origin MirrorScene.east false)
             _ (Scenario.first_hit "mirror")).
  cbn zeta. cbn [currPos currDir closest hitWall hitTarget points].
  assert (E : segmentCircleIntersect MirrorScene.origin MirrorScene.middle
                                     (Circle.mk 25 50 15) = true).
  { apply segmentCircleIntersect_iff. exists (Vec2.mk 25 50). split.
    - exists (1 / 2). split; [lra|].
      unfold MirrorScene.origin, MirrorScene.middle; simpl. apply vec_eq; lra.
    - unfold Vec2.dist, Circle.pos; simpl. apply hypot_lt. lra. }
  rewrite E.
  cbn [MirrorScene.wall newWall Wall.type String.eqb Ascii.eqb Bool.eqb
       orb fst snd final points hitTarget app].
  reflexivity.
Qed.

Lemma scene_known ty :
  ty = "mirror"%string \/ ty = "glass"%string \/ ty = "absorb"%string ->
  Forall knownType [MirrorScene.wall ty].
Proof. intros H. constructor; [exact H|constructor]. Qed.

(** The theorem in the scene with the target on the way to the mirror. *)
Lemma success_last_segment_hits_witness :
  exists pts p q,
    path (fst (traceRay MirrorScene.origin MirrorScene.east
                        (MirrorScene.world 20 "mirror" 25)))
    = pts ++ [p; q]
    /\ passesWithin p q (Circle.mk 25 50 15).
Proof.
  apply (success_last_segment_hits (MirrorScene.world 20 "mirror" 25)
           MirrorScene.origin MirrorScene.east).
  - apply scene_known. left. reflexivity.
  - rewrite scene_trace_win. reflexivity.
Defined.

(** The theorem in the scene with the target behind the emitter, at
    (-100,50): the ray comes back from the mirror and crosses it on its
    way out. *)
Lemma failure_only_escape_segment_hits_witness :
  exit (fst (traceLoop MirrorScene.origin MirrorScene.east
                       (MirrorScene.world 20 "mirror" (-100))))
  = Broke AtEscape.
Proof.
  assert (Hfar : -100 <= -15 \/ 65 <= -100) by (left; lra).
  apply (failure_only_escape_segment_hits
           (MirrorScene.world 20 "mirror" (-100))
           MirrorScene.origin MirrorScene.east
           MirrorScene.middle (Vec2.mk (-1950) 50)).
  - apply scene_known. left. reflexivity.
  - rewrite (proj2 (scene_trace_far (-100) Hfar)).
    reflexivity.
  - rewrite (proj2 (scene_trace_far (-100) Hfar)).
    simpl. right. left. reflexivity.
  - exists (Vec2.mk (-100) 50). split.
    + exists (3 / 40). split; [lra|].
      unfold MirrorScene.middle; simpl. apply vec_eq; lra.
    + unfold Vec2.dist, Circle.pos; simpl. apply hypot_lt. lra.
Defined.

(** ** Directions of length one *)

Lemma glassDir_mag d n0 :
  Vec2.mag d = 1 -> Vec2.mag n0 = 1 -> Vec2.mag (glassDir d n0) = 1.
Proof.
  intros Hd Hn. rewrite glassDir_cases. cbn zeta.
  assert (HN : Vec2.mag (Vec2.mult n0 (-1)) = 1)
    by (rewrite mult_neg_mag; exact Hn).
  destruct (Rltb (Vec2.dot d n0) 0).
  - destruct (Rltb 1 _) eqn:E.
    + rewrite normalize_unit; apply reflect_mag; assumption.
    + apply Rltb_false in E. apply (snell_unit d n0 _ Hd Hn E).
  - destruct (Rltb 1 _) eqn:E.
    + rewrite normalize_unit; apply reflect_mag; assumption.
    + apply Rltb_false in E. apply (snell_unit d _ _ Hd HN E).
Qed.

Lemma mirrorDir_mag d n :
  Vec2.mag d = 1 -> Vec2.mag n = 1 -> Vec2.mag (mirrorDir d n) = 1.
Proof.
  intros Hd Hn. unfold mirrorDir.
  destruct (mirrorNormal_spec d n) as (_ & _ & _ & ->).
  rewrite normalize_unit; apply reflect_mag; assumption.
Qed.

(** What is returned for a wall is the point of the ray at the returned
    parameter. *)
Lemma hit_on_ray p d a b h :
  getLineIntersection p d a b = Some h ->
  0 <= t h /\ point h = pointAt p d (t h).
Proof.
  unfold getLineIntersection. destruct (Rltb _ _); [discriminate|].
  cbn [Vec2.x Vec2.y]. set (t1 := _ / _). set (t2 := Vec2.dot _ _ / _).
  destruct (Rleb 0 t1) eqn:E1; [|discriminate].
  destruct (Rleb 0 t2); [|discriminate]. destruct (Rleb t2 1); [|discriminate].
  simpl. intros H. injection H as <-. simpl.
  apply Rleb_true in E1. split; [exact E1|reflexivity].
Qed.

Lemma dist_pointAt p d s :
  Vec2.mag d = 1 -> 0 <= s -> Vec2.dist p (pointAt p d s) = s.
Proof.
  intros Hd Hs. apply mag_one_dot in Hd. unfold Vec2.dot in Hd.
  unfold Vec2.dist, pointAt; simpl. apply hypot_of_square; [exact Hs|].
  replace ((Vec2.x p - (Vec2.x p + s * Vec2.x d))
           * (Vec2.x p - (Vec2.x p + s * Vec2.x d))
           + (Vec2.y p - (Vec2.y p + s * Vec2.y d))
             * (Vec2.y p - (Vec2.y p + s * Vec2.y d)))
    with (s * s * (Vec2.x d * Vec2.x d + Vec2.y d * Vec2.y d)) by ring.
  rewrite Hd. ring.
Qed.

Lemma farPoint_pointAt pos d : farPoint pos d = pointAt pos d 2000.
Proof. unfold farPoint, pointAt. apply vec_eq; ring. Qed.

Lemma built_hit ws pos dir h :
  Forall builtByAddWall ws -> nearestHit ws pos dir = Some h ->
  Vec2.mag (Wall.normal (hitWall h)) = 1.
Proof.
  intros F H. destruct (nearestHit_some _ _ _ _ H) as (Hin & Hg & _).
  rewrite Forall_forall in F.
  rewrite (F _ (proj2 (list_elem_of_In _ _) Hin)).
  eapply hit_normal_unit, Hg.
Qed.

(** The segment an iteration adds, when the direction has length one:
    it is longer than [epsilon]. *)
Lemma hit_segment_length ws st h :
  nearestHit ws (currPos st) (currDir st) = Some h ->
  Vec2.mag (currDir st) = 1 ->
  epsilon < Vec2.dist (currPos st) (closest h).
Proof.
  intros H Hd. destruct (nearestHit_some _ _ _ _ H) as (_ & Hg & He).
  destruct (hit_on_ray _ _ _ _ _ Hg) as [H0 Hp]. simpl in H0, Hp.
  rewrite Hp, dist_pointAt; assumption.
Qed.

(** ** The length of a path *)

Lemma lengthLoop_shift l : forall L,
  Score.lengthLoop l L = L + Score.lengthLoop l 0.
Proof.
  induction l as [|a l IH]; intros L; [simpl; ring|].
  destruct l as [|b l]; [simpl; ring|].
  change (Score.lengthLoop (a :: b :: l) L)
    with (Score.lengthLoop (b :: l) (L + Vec2.dist a b)).
  change (Score.lengthLoop (a :: b :: l) 0)
    with (Score.lengthLoop (b :: l) (0 + Vec2.dist a b)).
  rewrite (IH (L + Vec2.dist a b)), (IH (0 + Vec2.dist a b)). ring.
Qed.

Lemma lengthLoop_cons a b l :
  Score.lengthLoop (a :: b :: l) 0
  = Vec2.dist a b + Score.lengthLoop (b :: l) 0.
Proof.
  change (Score.lengthLoop (a :: b :: l) 0)
    with (Score.lengthLoop (b :: l) (0 + Vec2.dist a b)).
  rewrite lengthLoop_shift. ring.
Qed.

Lemma lengthLoop_nonneg l : 0 <= Score.lengthLoop l 0.
Proof.
  induction l as [|a l IH]; [simpl; lra|].
  destruct l as [|b l]; [simpl; lra|].
  rewrite lengthLoop_cons.
  pose proof (hypot_nonneg (Vec2.x a - Vec2.x b) (Vec2.y a - Vec2.y b)).
  unfold Vec2.dist. lra.
Qed.

Lemma lengthLoop_last_segment l a b :
  Vec2.dist a b <= Score.lengthLoop (l ++ [a; b]) 0.
Proof.
  induction l as [|x l IH].
  - change (Score.lengthLoop ([] ++ [a; b]) 0) with (0 + Vec2.dist a b). lra.
  - assert (E : exists y r, l ++ [a; b] = y :: r).
    { destruct l as [|y l]; [exists a, [b]|exists y, (l ++ [a; b])];
        reflexivity. }
    destruct E as (y & r & E).
    change ((x :: l) ++ [a; b]) with (x :: (l ++ [a; b])).
    rewrite E in *. rewrite lengthLoop_cons.
    pose proof (hypot_nonneg (Vec2.x x - Vec2.x y) (Vec2.y x - Vec2.y y)) as N.
    change (Vec2.hypot (Vec2.x x - Vec2.x y) (Vec2.y x - Vec2.y y))
      with (Vec2.dist x y) in N.
    lra.
Qed.




Lemma steady_step ws tg :
  Forall knownType ws -> Forall builtByAddWall ws ->
  forall st, steady st -> snd (stepIn ws tg st) = Next ->
             steady (fst (stepIn ws tg st)).
Proof.
  intros Fk Fb st (Hend & Hd & Hseg) Hn.
  destruct (nearestHit ws (currPos st) (currDir st)) as [h|] eqn:E.
  2:{ rewrite (stepIn_escape ws tg st E) in Hn. discriminate. }
  pose proof (built_hit _ _ _ _ Fb E) as Hu.
  pose proof (hit_segment_length _ _ _ E Hd) as Hlen.
  destruct (stepIn_known ws tg st h E (known_hit _ _ _ _ Fk E))
    as [S|(d' & Hd' & S)]; rewrite S in Hn |- *; [discriminate|].
  cbn [fst snd] in *.
  destruct (segments_push (points st) (currPos st) (closest h) Hend)
    as [Sg _].
  split; [|split].
  - exists (points st). reflexivity.
  - cbn [currDir]. destruct Hd' as [[-> _]|[-> _]].
    + apply mirrorDir_mag; assumption.
    + apply glassDir_mag; assumption.
  - cbn [points]. rewrite Sg. intros p q Hin. apply in_app_iff in Hin.
    destruct Hin as [Hin|[Hin|[]]]; [apply Hseg, Hin|].
    injection Hin as <- <-. exact Hlen.
Qed.

(** The path of a loop that starts steady: every segment is longer than
    [epsilon], and a loop left through the escape branch ends its path
    with a segment of 2000. *)
Lemma steady_loop ws tg :
  Forall knownType ws -> Forall builtByAddWall ws ->
  forall n i st, steady st ->
    let e := loopIn ws tg n i st in
    (forall p q, In (p, q) (segments (points (final e))) ->
                 epsilon < Vec2.dist p q)
    /\ (exit e = Broke AtEscape ->
        exists pts p q,
          points (final e) = pts ++ [p; q] /\ Vec2.dist p q = 2000).
Proof.
  intros Hk Hb n i st H0.
  destruct (loopIn_last ws tg steady (steady_step _ _ Hk Hb) n i st H0)
    as [[Hx (_ & _ & Hseg)]|(st' & site & (Hend & Hu & Hseg) & S & Hx)];
    set (e := loopIn _ _ _ _ _) in *; clearbody e; cbn zeta; rewrite Hx.
  { split; [exact Hseg|discriminate]. }
  destruct (nearestHit ws (currPos st') (currDir st')) as [h|] eqn:E.
  - assert (Hf : points (final e) = points st' ++ [closest h]
                 /\ site <> AtEscape).
    { destruct (stepIn_known _ tg st' h E (known_hit _ _ _ _ Hk E))
        as [S'|(d' & _ & S')]; rewrite S' in S; injection S as S Hs;
        rewrite <- S; (split; [reflexivity|]).
      - rewrite <- Hs. discriminate.
      - destruct (_ || _); [|discriminate].
        injection Hs as <-. discriminate. }
    destruct Hf as [Hp Hne].
    destruct (segments_push (points st') (currPos st') (closest h) Hend)
      as [Sg _].
    split.
    + rewrite Hp, Sg. intros p q Hin. apply in_app_iff in Hin.
      destruct Hin as [Hin|[Hin|[]]]; [apply Hseg, Hin|].
      injection Hin as <- <-. eapply hit_segment_length; eassumption.
    + intros X. injection X as X. contradiction.
  - rewrite (stepIn_escape _ _ st' E) in S. injection S as S _.
    destruct (segments_push (points st') (currPos st')
                (farPoint (currPos st') (currDir st')) Hend)
      as [Sg (pts & Ep)].
    assert (Hfar : Vec2.dist (currPos st')
                             (farPoint (currPos st') (currDir st')) = 2000).
    { rewrite farPoint_pointAt. apply dist_pointAt; [exact Hu|lra]. }
    rewrite <- S. cbn [points]. split.
    + rewrite Sg. intros p q Hin. apply in_app_iff in Hin.
      destruct Hin as [Hin|[Hin|[]]]; [apply Hseg, Hin|].
      injection Hin as <- <-. rewrite Hfar. unfold epsilon. lra.
    + intros _. exists pts, (currPos st'), (farPoint (currPos st') (currDir st')).
      split; [exact Ep|exact Hfar].
Qed.

(** A trace starts steady when its direction is not zero. *)
Lemma steady_start start dir :
  dir <> Vec2.mk 0 0 ->
  steady (mkRay [start] start (Vec2.normalize dir) false).
Proof.
  intros Hd. split; [exists []; reflexivity|]. split; [|intros p q []].
  apply normalize_mag. intros Z. apply Hd, mag_zero, Z.
Qed.

(** X17.  Among mirrors and absorbers the path never stalls.  Among
    walls of these two kinds, with no glass, that carry the normal
    [addWall] computes, and for a direction other than zero, every
    segment of the returned path is longer than [epsilon] = 0.01; and
    when the loop is left through the escape branch the last segment is
    2000 long to within one unit, so that [calculatePathLength] gives
    1999 or more for the path.  The margin of one unit leaves room for
    the rounding of the running code, where the direction has length
    one up to the last bits only. *)
Theorem opaque_path_segments_lengths (w : World) (start dir : Vec2.t)
  (Hk : Forall opaque (walls (this w)))
  (Hb : Forall builtByAddWall (walls (this w)))
  (Hd : dir <> Vec2.mk 0 0) :
  (forall p q, In (p, q) (segments (path (fst (traceRay start dir w)))) ->
               epsilon < Vec2.dist p q)
  /\ (exit (fst (traceLoop start dir w)) = Broke AtEscape ->
      exists pts p q,
        path (fst (traceRay start dir w)) = pts ++ [p; q]
        /\ 1999 < Vec2.dist p q < 2001
        /\ (1999 <= Score.calculatePathLength
                      (path (fst (traceRay start dir w))))%Z).
Proof.
  assert (Hk' : Forall knownType (walls (this w))).
  { eapply Forall_impl; [exact Hk|]. intros wl [H|H]; red; auto. }
  destruct (traceRay_run start dir w) as (Hl & Hr & _). cbn zeta in Hl, Hr.
  rewrite Hl, Hr. cbn [path fst].
  destruct (steady_loop (walls (this w)) (target (this w)) Hk' Hb
              (Z.to_nat (maxBounces (this w))) 0 _ (steady_start start dir Hd))
    as [Hseg Hesc].
  split; [exact Hseg|].
  intros Hx. destruct (Hesc Hx) as (pts & p & q & Ep & Hfar).
  exists pts, p, q. split; [exact Ep|]. split; [rewrite Hfar; lra|].
  unfold Score.calculatePathLength. apply Zfloor_lub.
  apply Rle_trans with (Vec2.dist p q); [rewrite Hfar; simpl; lra|].
  rewrite Ep. apply lengthLoop_last_segment.
Qed.

Lemma scene_built ty : Forall builtByAddWall [MirrorScene.wall ty].
Proof. constructor; [reflexivity|constructor]. Qed.

(** The theorem in the scene of the design document. *)
Lemma opaque_path_segments_lengths_witness :
  exists pts p q,
    path (fst (traceRay MirrorScene.origin MirrorScene.east
                        (MirrorScene.world 20 "mirror" 100)))
    = pts ++ [p; q]
    /\ 1999 < Vec2.dist p q < 2001
    /\ (1999 <= Score.calculatePathLength
                  (path (fst (traceRay MirrorScene.origin MirrorScene.east
                                       (MirrorScene.world 20 "mirror" 100)))))%Z.
Proof.
  assert (Hfar : 100 <= -15 \/ 65 <= 100) by (right; lra).
  apply (opaque_path_segments_lengths (MirrorScene.world 20 "mirror" 100)
           MirrorScene.origin MirrorScene.east).
  - constructor; [left; reflexivity|constructor].
  - apply scene_built.
  - unfold MirrorScene.east. intros H. injection H as H. lra.
  - rewrite (proj1 (scene_trace_far 100 Hfar)). reflexivity.
Defined.

(** ** Directions that change nothing *)

Lemma scan_all_none ws pos dir :
  (forall w, In w ws ->
             getLineIntersection pos dir (Wall.a w) (Wall.b w) = None) ->
  nearestHit ws pos dir = None.
Proof.
  intros H. destruct (nearestHit ws pos dir) as [h|] eqn:E; [|reflexivity].
  destruct (nearestHit_some _ _ _ _ E) as (Hin & Hg & _).
  rewrite (H _ Hin) in Hg. discriminate.
Qed.

Lemma normalize_origin : Vec2.normalize (Vec2.mk 0 0) = Vec2.mk 0 0.
Proof.
  unfold Vec2.normalize; simpl. destruct (Reqb (Vec2.hypot 0 0) 0);
    [reflexivity|]. apply vec_eq; unfold Rdiv; ring.
Qed.

(** X18.  A direction of zero moves nothing and fails cleanly: with a
    positive bounce limit, whatever the walls and the target, the path is
    the start point twice and [success = false]. *)
Theorem trace_zero_direction (w : World) (start : Vec2.t)
  (Hmb : (0 < maxBounces (this w))%Z) :
  fst (traceRay start (Vec2.mk 0 0) w) = mkResult [start; start] false.
Proof.
  destruct (traceRay_run start (Vec2.mk 0 0) w) as (_ & -> & _).
  rewrite normalize_origin.
  destruct (Z.to_nat (maxBounces (this w))) as [|n] eqn:E; [lia|].
  rewrite loopIn_succ, stepIn_escape.
  - cbn [fst snd final points hitTarget currPos currDir app].
    unfold farPoint; simpl. do 3 f_equal.
    destruct start; simpl. apply vec_eq; ring.
  - apply scan_all_none. intros wl _. cbn [currDir].
    unfold getLineIntersection.
    replace (Rltb _ _) with true; [reflexivity|].
    symmetry. apply Rltb_true. unfold Vec2.dot; simpl.
    replace (_ + _) with 0 by ring. rewrite Rabs_R0. lra.
Qed.

(** The theorem in the scene of the design document. *)
Lemma trace_zero_direction_witness :
  fst (traceRay MirrorScene.origin (Vec2.mk 0 0)
                (MirrorScene.world 20 "mirror" 100))
  = mkResult [MirrorScene.origin; MirrorScene.origin] false.
Proof.
  apply (trace_zero_direction (MirrorScene.world 20 "mirror" 100)).
  simpl. lia.
Defined.
End TraceMore.
(* ====================================================================== *)
(** * The maze generator: flags, passages and lines *)

Module CarveMore.
Import MazeGenerator MazeSpec GridFacts CarveFacts Lines.
Local Open Scope Z_scope.

(** ** The invariant at a pop and at a push *)

Lemma Inv_pop cols rows grid cur rest vs :
  Inv cols rows grid (cur :: rest) vs ->
  (forall s, inGrid cols rows (across s cur) ->
             unvisitedb grid (across s cur) = false) ->
  Inv cols rows grid rest vs.
Proof.
  intros [I1 I2 I3 I4 I5 I6 I7] Hno. split; try assumption.
  - intros p Hp. apply I6, elem_of_cons. auto.
  - intros p s Hp Hnot Hin.
    destruct (decide (p = cur)) as [->|Hne].
    + destruct (proj1 I1 _ Hin) as (cq & Hq & _).
      apply I2. exists cq. split; [exact Hq|].
      specialize (Hno s Hin). unfold unvisitedb in Hno. rewrite Hq in Hno.
      destruct (visited cq); [reflexivity|discriminate].
    + apply I7; [exact Hp| |exact Hin].
      intros H. apply elem_of_cons in H. destruct H; auto.
Qed.

Lemma Inv_push cols rows grid cur rest vs s :
  Inv cols rows grid (cur :: rest) vs ->
  inGrid cols rows (across s cur) -> across s cur ∉ vs ->
  Inv cols rows (carved grid cur s) (across s cur :: cur :: rest)
      (across s cur :: vs).
Proof.
  intros I Gnxt Hfresh.
  assert (Hcur : cur ∈ vs)
    by (apply (inv_stack _ _ _ _ _ I), elem_of_cons; auto).
  pose proof (Inv_inGrid _ _ _ _ _ _ I Hcur) as Gcur.
  pose proof (inv_wf _ _ _ _ _ I) as Hwf.
  destruct I as [I1 I2 I3 I4 I5 I6 I7]. split.
  - apply wfGrid_carved; assumption.
  - intros p.
    rewrite (visitedAt_carved cols rows grid cur s Hwf Gcur Gnxt).
    rewrite elem_of_cons, I2. tauto.
  - apply NoDup_cons. split; assumption.
  - apply elem_of_cons. auto.
  - apply (GraphFacts.isTree_leaf (open grid) _ vs cur (across s cur));
      try assumption.
    intros a b. apply open_carved with (cols := cols) (rows := rows);
      assumption.
  - intros p Hp. apply elem_of_cons in Hp. apply elem_of_cons.
    destruct Hp as [->|Hp]; [auto|]. right. apply I6, Hp.
  - intros p s' Hp Hnot Hin. apply elem_of_cons. right.
    apply elem_of_cons in Hp. destruct Hp as [->|Hp].
    { exfalso. apply Hnot, elem_of_cons. auto. }
    apply I7; [exact Hp| |exact Hin].
    intros H. apply Hnot, elem_of_cons. auto.
Qed.

(** What every push keeps, the loop keeps; the loop draws once for each
    place it visits, and leaves the draws to come as they were. *)
Lemma carveLoop_keeps cols rows (P : Grid -> list Ref -> Prop) :
  (forall grid stack vs cur s,
      Inv cols rows grid stack vs -> P grid vs -> cur ∈ vs ->
      inGrid cols rows (across s cur) -> across s cur ∉ vs ->
      P (carved grid cur s) (across s cur :: vs)) ->
  forall fuel grid stack vs rng,
    Inv cols rows grid stack vs -> unitDraws rng -> P grid vs ->
    (2 * (Z.to_nat rows * Z.to_nat cols) + length stack
     <= fuel + 2 * length vs)%nat ->
    exists grid' vs' rng',
      carveLoop fuel cols rows grid stack rng = Ok (grid', rng')
      /\ Inv cols rows grid' [] vs' /\ P grid' vs'
      /\ draws rng' = draws rng
      /\ (cursor rng' + length vs = cursor rng + length vs')%nat.
Proof.
  intros HP.
  induction fuel as [|fuel IH]; intros grid stack vs rng I Hrng HPg Hm.
  - destruct stack as [|cur rest].
    + exists grid, vs, rng. auto.
    + pose proof (Inv_count _ _ _ _ _ I). simpl in Hm. lia.
  - destruct stack as [|cur rest].
    + exists grid, vs, rng. auto.
    + assert (Hcur : cur ∈ vs)
        by (apply (inv_stack _ _ _ _ _ I), elem_of_cons; auto).
      pose proof (Inv_inGrid _ _ _ _ _ _ I Hcur) as Gcur.
      pose proof (inv_wf _ _ _ _ _ I) as Hwf.
      destruct (proj1 Hwf _ Gcur) as (c & Hc & _).
      rewrite carveLoop_cons.
      rewrite (gbind_Ok _ _ _ _ _ (cellAt_Ok _ _ _ rng Hc)).
      rewrite (gbind_Ok _ _ _ _ _
                 (unvisitedNeighbors_Ok cols rows grid cur c rng Hwf Gcur Hc)).
      set (N := candidate cols rows grid cur Top ++ _).
      assert (HN : forall q, q ∈ N
                             <-> exists s, q = across s cur
                                           /\ inGrid cols rows q
                                           /\ unvisitedb grid q = true).
      { intros q. unfold N. rewrite !elem_of_app, !candidate_elem. split.
        - intros [H|[H|[H|H]]]; eauto.
        - intros ([] & H); auto. }
      assert (LN : (length N <= 4)%nat).
      { unfold N. rewrite !length_app.
        pose proof (candidate_length cols rows grid cur Top).
        pose proof (candidate_length cols rows grid cur Right).
        pose proof (candidate_length cols rows grid cur Bottom).
        pose proof (candidate_length cols rows grid cur Left). lia. }
      clearbody N. destruct N as [|n0 N'].
      * apply (IH grid rest vs rng); [|exact Hrng|exact HPg|simpl in Hm; lia].
        apply (Inv_pop _ _ _ _ _ _ I). intros s Hin.
        destruct (unvisitedb grid (across s cur)) eqn:E; [|reflexivity].
        exfalso.
        assert (Hx : across s cur ∈ @nil (Z * Z)) by (apply HN; eauto).
        inversion Hx.
      * destruct (Hrng (cursor rng)) as [H0 H1]; [lia|].
        destruct (pick_Ok (n0 :: N') rng) as (nxt & Hnxt & Hpick);
          [discriminate|exact LN|exact H0|exact H1|].
        rewrite (gbind_Ok _ _ _ _ _ Hpick).
        apply HN in Hnxt. destruct Hnxt as (s & -> & Gnxt & Hun).
        rewrite (gbind_Ok _ _ _ _ _
                   (removeWall_Ok cols rows grid cur s _ Hwf Gcur Gnxt)).
        apply unvisitedb_true in Hun. destruct Hun as (cn & Hcn & Hvn).
        assert (Hfresh : across s cur ∉ vs).
        { intros H. apply (inv_visited _ _ _ _ _ I) in H.
          destruct H as (c' & Hc' & Hv'). congruence. }
        destruct (IH (carved grid cur s) (across s cur :: cur :: rest)
                     (across s cur :: vs) (snd (nextDraw rng)))
          as (grid' & vs' & rng' & Hrun & I' & HP' & Hd & Hk).
        -- apply Inv_push; assumption.
        -- intros k Hk. apply Hrng. simpl in Hk. lia.
        -- apply (HP grid (cur :: rest) vs cur s); assumption.
        -- simpl in *. lia.
        -- exists grid', vs', rng'. split; [exact Hrun|].
           split; [exact I'|]. split; [exact HP'|].
           split; [exact Hd|]. simpl in Hk. simpl. lia.
Qed.

(** ** Flags and passages *)

Lemma passageOn_open grid p s :
  passageOn grid p s = true <-> open grid p (across s p).
Proof.
  unfold open. rewrite passage_true. split.
  - intros H. exists s. auto.
  - intros (s' & E & H). apply across_inj in E. subst s'. exact H.
Qed.

Section Step.
Context (cols rows : Z) (grid : Grid) (cur : Ref) (s : Side).
Hypothesis Hwf : wfGrid cols rows grid.
Hypothesis Hcur : inGrid cols rows cur.
Hypothesis Hnxt : inGrid cols rows (across s cur).

Lemma passageOn_carved p s' :
  passageOn (carved grid cur s) p s' = true
  <-> passageOn grid p s' = true
      \/ (p = cur /\ s' = s)
      \/ (p = across s cur /\ s' = opposite s).
Proof.
  rewrite !passageOn_open.
  rewrite (open_carved cols rows grid cur s Hwf Hcur Hnxt). split.
  - intros [H|[[-> H]|[-> H]]]; [auto| |].
    + right. left. split; [reflexivity|]. apply (across_inj _ _ _ H).
    + right. right. split; [reflexivity|].
      rewrite <- (across_opposite s cur) in H at 2.
      apply (across_inj _ _ _ H).
  - intros [H|[[-> ->]|[-> ->]]]; [auto| |].
    + right. left. auto.
    + right. right. split; [reflexivity|apply across_opposite].
Qed.

Lemma inStep_carved : inStep grid -> inStep (carved grid cur s).
Proof.
  intros H p c' s' E' F'.
  destruct (carved_cell cols rows grid cur s Hwf Hcur Hnxt p)
    as [[_ E]|(c & c0 & E & E0 & _ & _ & _ & Hf)]; [congruence|].
  assert (c0 = c') by congruence. subst c0. apply Hf in F'.
  apply passageOn_carved.
  destruct F' as [F|[F|F]]; [left|right; left|right; right]; eauto.
Qed.

(** Removing a wall adds one to the count of one cell and leaves the
    counts of the others. *)
Lemma gone_carved vs :
  Graph.isTree (open grid) vs -> across s cur ∉ vs ->
  exists e, gone (carved grid cur s) e = S (gone grid e)
            /\ forall p, p <> e -> gone (carved grid cur s) p = gone grid p.
Proof.
  intros [T _] Hfresh.
  assert (O1 : passageOn grid cur s = false).
  { destruct (passageOn grid cur s) eqn:E; [|reflexivity].
    apply passageOn_open, T in E. destruct E as [_ E]. contradiction. }
  assert (O2 : passageOn grid (across s cur) (opposite s) = false).
  { destruct (passageOn grid (across s cur) (opposite s)) eqn:E; [|reflexivity].
    apply passageOn_open, T in E. destruct E as [E _]. contradiction. }
  assert (K : forall p s',
             passageOn (carved grid cur s) p s'
             = passageOn grid p s'
               || bool_decide (p = cur /\ s' = s)
               || bool_decide (p = across s cur /\ s' = opposite s)).
  { intros p s'. apply eq_true_iff_eq.
    rewrite passageOn_carved, !orb_true_iff, !bool_decide_eq_true. tauto. }
  pose proof (across_ne s cur) as Hne.
  assert (D : forall (b : bool) (Q : Prop) `{Decision Q},
             ~ Q -> b || bool_decide Q = b).
  { intros b Q ? HQ. rewrite bool_decide_eq_false_2 by exact HQ.
    apply orb_false_r. }
  assert (D' : forall (b : bool) (Q : Prop) `{Decision Q},
             Q -> b || bool_decide Q = true).
  { intros b Q ? HQ. rewrite bool_decide_eq_true_2 by exact HQ.
    apply orb_true_r. }
  unfold gone.
  destruct s; cbn [opposite] in *.
  - exists (across Top cur). split.
    + rewrite !K, O2.
      rewrite (D _ (across Top cur = cur /\ Right = Top))
        by (intros [_ ?]; discriminate).
      rewrite (D _ (across Top cur = across Top cur /\ Right = Bottom))
        by (intros [_ ?]; discriminate).
      rewrite (D _ (across Top cur = cur /\ Bottom = Top))
        by (intros [_ ?]; discriminate).
      rewrite (D' _ (across Top cur = across Top cur /\ Bottom = Bottom))
        by (split; reflexivity).
      simpl. lia.
    + intros p Hp. rewrite !K.
      rewrite (D _ (p = cur /\ Right = Top)) by (intros [_ ?]; discriminate).
      rewrite (D _ (p = across Top cur /\ Right = Bottom))
        by (intros [_ ?]; discriminate).
      rewrite (D _ (p = cur /\ Bottom = Top)) by (intros [_ ?]; discriminate).
      rewrite (D _ (p = across Top cur /\ Bottom = Bottom))
        by (intros [? _]; contradiction).
      reflexivity.
  - exists cur. split.
    + rewrite !K, O1.
      rewrite (D' _ (cur = cur /\ Right = Right)) by (split; reflexivity).
      rewrite (D _ (cur = cur /\ Bottom = Right))
        by (intros [_ ?]; discriminate).
      rewrite (D _ (cur = across Right cur /\ Bottom = Left))
        by (intros [_ ?]; discriminate).
      simpl. lia.
    + intros p Hp. rewrite !K.
      rewrite (D _ (p = cur /\ Right = Right)) by (intros [? _]; contradiction).
      rewrite (D _ (p = across Right cur /\ Right = Left))
        by (intros [_ ?]; discriminate).
      rewrite (D _ (p = cur /\ Bottom = Right))
        by (intros [_ ?]; discriminate).
      rewrite (D _ (p = across Right cur /\ Bottom = Left))
        by (intros [_ ?]; discriminate).
      reflexivity.
  - exists cur. split.
    + rewrite !K, O1.
      rewrite (D _ (cur = cur /\ Right = Bottom))
        by (intros [_ ?]; discriminate).
      rewrite (D _ (cur = across Bottom cur /\ Right = Top))
        by (intros [_ ?]; discriminate).
      rewrite (D' _ (cur = cur /\ Bottom = Bottom)) by (split; reflexivity).
      simpl. lia.
    + intros p Hp. rewrite !K.
      rewrite (D _ (p = cur /\ Right = Bottom))
        by (intros [_ ?]; discriminate).
      rewrite (D _ (p = across Bottom cur /\ Right = Top))
        by (intros [_ ?]; discriminate).
      rewrite (D _ (p = cur /\ Bottom = Bottom))
        by (intros [? _]; contradiction).
      rewrite (D _ (p = across Bottom cur /\ Bottom = Top))
        by (intros [_ ?]; discriminate).
      reflexivity.
  - exists (across Left cur). split.
    + rewrite !K, O2.
      rewrite (D _ (across Left cur = cur /\ Right = Left))
        by (intros [_ ?]; discriminate).
      rewrite (D' _ (across Left cur = across Left cur /\ Right = Right))
        by (split; reflexivity).
      rewrite (D _ (across Left cur = cur /\ Bottom = Left))
        by (intros [_ ?]; discriminate).
      rewrite (D _ (across Left cur = across Left cur /\ Bottom = Right))
        by (intros [_ ?]; discriminate).
      simpl. lia.
    + intros p Hp. rewrite !K.
      rewrite (D _ (p = cur /\ Right = Left)) by (intros [_ ?]; discriminate).
      rewrite (D _ (p = across Left cur /\ Right = Right))
        by (intros [? _]; contradiction).
      rewrite (D _ (p = cur /\ Bottom = Left)) by (intros [_ ?]; discriminate).
      rewrite (D _ (p = across Left cur /\ Bottom = Right))
        by (intros [_ ?]; discriminate).
      reflexivity.
Qed.
End Step.

(** ** Counting over the places of the grid *)

Lemma sum_ext {A} (f g : A -> nat) (l : list A) :
  (forall x, x ∈ l -> g x = f x) -> sum_list_with g l = sum_list_with f l.
Proof.
  induction l as [|a l IH]; intros H; [reflexivity|].
  simpl. rewrite (H a) by (apply elem_of_cons; auto).
  rewrite IH; [reflexivity|]. intros x Hx. apply H, elem_of_cons. auto.
Qed.

Lemma sum_bump {A} (f g : A -> nat) (l : list A) (e : A) :
  NoDup l -> e ∈ l -> g e = S (f e) -> (forall x, x <> e -> g x = f x) ->
  sum_list_with g l = S (sum_list_with f l).
Proof.
  intros Hnd He Hge Hg. induction l as [|a l IH]; [inversion He|].
  apply NoDup_cons in Hnd. destruct Hnd as [Ha Hnd]. simpl.
  apply elem_of_cons in He. destruct He as [->|He].
  - rewrite Hge. rewrite (sum_ext f g l); [lia|].
    intros x Hx. apply Hg. intros ->. contradiction.
  - rewrite (Hg a) by (intros ->; contradiction).
    rewrite IH by assumption. lia.
Qed.

Lemma sum_plus {A} (f g : A -> nat) (l : list A) :
  sum_list_with (fun x => f x + g x)%nat l
  = (sum_list_with f l + sum_list_with g l)%nat.
Proof. induction l as [|a l IH]; simpl; lia. Qed.

Lemma sum_prod {A B} (F : A * B -> nat) (l : list A) (k : list B) :
  sum_list_with F (list_prod l k)
  = sum_list_with (fun a => sum_list_with (fun b => F (a, b)) k) l.
Proof.
  induction l as [|a l IH]; [reflexivity|].
  cbn [list_prod]. rewrite sum_list_with_app, IH. cbn [sum_list_with].
  f_equal. clear. induction k as [|b k IH]; [reflexivity|].
  simpl. rewrite IH. reflexivity.
Qed.

Lemma sum_const {A} (n : nat) (l : list A) :
  sum_list_with (fun _ => n) l = (length l * n)%nat.
Proof. induction l as [|a l IH]; simpl; lia. Qed.

(** Of the numbers from 0 up to [n], [k] lie below [k]. *)
Lemma sum_below (n k : Z) :
  0 <= k <= n ->
  sum_list_with (fun i => Nat.b2n (i <? k)) (seqZ 0 n) = Z.to_nat k.
Proof.
  intros H. replace n with (k + (n - k)) by lia.
  rewrite seqZ_app, sum_list_with_app by lia.
  rewrite (sum_ext (fun _ => 1%nat)), sum_const, length_seqZ.
  - rewrite (sum_ext (fun _ => 0%nat)), sum_const; [lia|].
    intros i Hi. apply elem_of_seqZ in Hi.
    destruct (Z.ltb_spec i k); [lia|reflexivity].
  - intros i Hi. apply elem_of_seqZ in Hi.
    destruct (Z.ltb_spec i k); [reflexivity|lia].
Qed.

Lemma NoDup_places cols rows : NoDup (places cols rows).
Proof.
  unfold places.
  generalize (NoDup_seqZ 0 rows) (NoDup_seqZ 0 cols).
  generalize (seqZ 0 rows) (seqZ 0 cols). intros l k Hl Hk.
  induction l as [|a l IH]; [constructor|].
  apply NoDup_cons in Hl. destruct Hl as [Ha Hl].
  cbn [list_prod]. apply NoDup_app. split_and!.
  - apply (NoDup_fmap_2 (pair a)). exact Hk.
  - intros [x y] Hx Hy. apply list_elem_of_fmap in Hx.
    destruct Hx as (b & E & _). injection E as -> ->.
    apply list_elem_of_In, in_prod_iff in Hy. destruct Hy as [Hy _].
    apply list_elem_of_In in Hy. contradiction.
  - apply IH, Hl.
Qed.

(** Every place of the grid is visited once the stack is empty. *)
Lemma Inv_full cols rows grid vs :
  Inv cols rows grid [] vs ->
  length vs = (Z.to_nat rows * Z.to_nat cols)%nat.
Proof.
  intros I. rewrite <- places_length. apply Permutation_length.
  apply NoDup_Permutation.
  - exact (inv_nodup _ _ _ _ _ I).
  - apply NoDup_places.
  - intros p. rewrite places_elem. split.
    + apply (Inv_inGrid _ _ _ _ _ _ I).
    + apply (Inv_all_visited _ _ _ _ I).
Qed.

(** ** The grid the carve phase starts from *)

Lemma start_walls cols rows p c s :
  1 <= cols -> 1 <= rows ->
  deref (setCell (newGrid cols rows) (0, 0) setVisited) p = Some c ->
  wallFlag s c = true.
Proof.
  intros Hc Hr. rewrite deref_setCell by (simpl; lia).
  rewrite !deref_newGrid.
  destruct (decide (p = (0, 0))) as [->|Hp].
  - destruct (decide (inGrid cols rows (0, 0))); [|discriminate].
    intros E. injection E as <-. destruct s; reflexivity.
  - destruct (decide (inGrid cols rows p)); [|discriminate].
    intros E. injection E as <-. destruct s; reflexivity.
Qed.

Lemma start_closed cols rows p s :
  1 <= cols -> 1 <= rows ->
  passageOn (setCell (newGrid cols rows) (0, 0) setVisited) p s = false.
Proof.
  intros Hc Hr.
  destruct (passageOn _ p s) eqn:E; [|reflexivity].
  apply passageOn_true in E. destruct E as (cp & cq & Ep & _ & F & _).
  rewrite (start_walls cols rows p cp s Hc Hr Ep) in F. discriminate.
Qed.

(** ** The end of the carve phase *)

Lemma carve_ends (fuel : nat) (cols rows : Z) (rng : Rng) :
  1 <= cols -> 1 <= rows -> unitDraws rng ->
  2 * cols * rows <= Z.of_nat fuel ->
  exists grid vs rng',
    carve fuel cols rows rng = Ok (grid, rng')
    /\ Inv cols rows grid [] vs
    /\ inStep grid
    /\ (sum_list_with (gone grid) (places cols rows) + 1
        = Z.to_nat rows * Z.to_nat cols)%nat
    /\ draws rng' = draws rng
    /\ (cursor rng' + 1 = cursor rng + Z.to_nat rows * Z.to_nat cols)%nat.
Proof.
  intros Hcols Hrows Hrng Hfuel.
  pose proof (Inv_init cols rows Hcols Hrows) as I0.
  destruct (carveLoop_keeps cols rows
              (fun g vs => inStep g
                           /\ (sum_list_with (gone g) (places cols rows) + 1
                               = length vs)%nat))
    with (fuel := fuel) (rng := rng) (2 := I0)
    as (grid & vs & rng' & Hrun & I & [HS HC] & Hd & Hk).
  - intros g stack vs cur s I [HS HC] Hcur Gn Hfresh.
    pose proof (inv_wf _ _ _ _ _ I) as Hwf.
    pose proof (Inv_inGrid _ _ _ _ _ _ I Hcur) as Gc.
    split; [apply (inStep_carved cols rows); assumption|].
    destruct (gone_carved cols rows g cur s Hwf Gc Gn vs
                (inv_tree _ _ _ _ _ I) Hfresh) as (e & He & Hother).
    assert (Ge : e ∈ places cols rows).
    { apply places_elem. 
      destruct (decide (inGrid cols rows e)) as [G|G]; [exact G|]. exfalso.
      assert (Z : forall g', wfGrid cols rows g' -> gone g' e = 0%nat).
      { intros g' Hwf'. unfold gone.
        assert (N : forall s', passageOn g' e s' = false).
        { intros s'. destruct (passageOn g' e s') eqn:E; [|reflexivity].
          apply passageOn_true in E. destruct E as (cp & _ & Ep & _).
          destruct (G (proj2 Hwf' _ _ Ep)). }
        rewrite !N. reflexivity. }
      rewrite (Z g Hwf) in He.
      rewrite (Z (carved g cur s)) in He; [discriminate|].
      apply wfGrid_carved; assumption. }
    rewrite (sum_bump (gone g) (gone (carved g cur s)) _ e
               (NoDup_places cols rows) Ge He Hother).
    simpl. lia.
  - exact Hrng.
  - split.
    + intros p c s Ep F.
      rewrite (start_walls cols rows p c s Hcols Hrows Ep) in F. discriminate.
    + rewrite (sum_ext (fun _ => 0%nat)), sum_const; [simpl; lia|].
      intros p _. unfold gone. rewrite !start_closed by assumption.
      reflexivity.
  - simpl. rewrite <- Z2Nat.inj_mul by lia. lia.
  - exists grid, vs, rng'.
    pose proof (Inv_full _ _ _ _ I) as Hlen.
    split.
    { unfold carve. erewrite gbind_Ok; [exact Hrun|].
      apply cellAt_Ok. rewrite deref_newGrid. apply decide_True.
      unfold inGrid; simpl. lia. }
    split; [exact I|]. split; [exact HS|].
    simpl in Hk. rewrite <- Hlen. split; [exact HC|]. split; [exact Hd|lia].
Qed.

(** ** The standing walls *)

Lemma side_count cols rows grid p s :
  wfGrid cols rows grid -> inStep grid -> inGrid cols rows p ->
  (Nat.b2n (bool_decide (inGrid cols rows (across s p)) && standing grid p s)
   + Nat.b2n (passageOn grid p s)
   = Nat.b2n (bool_decide (inGrid cols rows (across s p))))%nat.
Proof.
  intros Hwf HS Hp. destruct (proj1 Hwf p Hp) as (c & Ec & _).
  unfold standing. rewrite Ec.
  destruct (passageOn grid p s) eqn:E.
  - apply passageOn_true in E. destruct E as (cp & cq & Ep & Eq & F & _).
    assert (cp = c) by congruence. subst cp. rewrite F, andb_false_r.
    rewrite bool_decide_eq_true_2 by exact (proj2 Hwf _ _ Eq). reflexivity.
  - destruct (wallFlag s c) eqn:F.
    + rewrite andb_true_r. simpl. lia.
    + rewrite (HS p c s Ec F) in E. discriminate.
Qed.

Lemma kept_gone cols rows grid p :
  wfGrid cols rows grid -> inStep grid -> inGrid cols rows p ->
  (kept cols rows grid p + gone grid p
   = Nat.b2n (snd p <? cols - 1)%Z + Nat.b2n (fst p <? rows - 1)%Z)%nat.
Proof.
  intros Hwf HS Hp.
  pose proof (side_count cols rows grid p Right Hwf HS Hp) as HR.
  pose proof (side_count cols rows grid p Bottom Hwf HS Hp) as HB.
  assert (ER : bool_decide (inGrid cols rows (across Right p))
               = (snd p <? cols - 1)).
  { destruct p as [r k], Hp as [H1 H2]. unfold inGrid; simpl in *.
    destruct (Z.ltb_spec k (cols - 1)).
    - apply bool_decide_eq_true_2. lia.
    - apply bool_decide_eq_false_2. lia. }
  assert (EB : bool_decide (inGrid cols rows (across Bottom p))
               = (fst p <? rows - 1)).
  { destruct p as [r k], Hp as [H1 H2]. unfold inGrid; simpl in *.
    destruct (Z.ltb_spec r (rows - 1)).
    - apply bool_decide_eq_true_2. lia.
    - apply bool_decide_eq_false_2. lia. }
  rewrite ER in HR. rewrite EB in HB. unfold kept, gone. lia.
Qed.

Lemma sum_scale {A} (k : nat) (f : A -> nat) (l : list A) :
  sum_list_with (fun x => k * f x)%nat l = (k * sum_list_with f l)%nat.
Proof. induction l as [|a l IH]; simpl; lia. Qed.

(** The standing walls between cells and the removed ones make up the
    walls between cells. *)
Lemma kept_total cols rows grid :
  1 <= cols -> 1 <= rows -> wfGrid cols rows grid -> inStep grid ->
  (sum_list_with (kept cols rows grid) (places cols rows)
   + sum_list_with (gone grid) (places cols rows)
   = Z.to_nat rows * Z.to_nat (cols - 1)
     + Z.to_nat cols * Z.to_nat (rows - 1))%nat.
Proof.
  intros Hc Hr Hwf HS. rewrite <- sum_plus.
  rewrite (sum_ext (fun p => Nat.b2n (snd p <? cols - 1)%Z
                             + Nat.b2n (fst p <? rows - 1)%Z)%nat)
    by (intros p Hp; apply kept_gone; [assumption|assumption|];
        apply places_elem, Hp).
  rewrite sum_plus. unfold places. rewrite !sum_prod. f_equal.
  - rewrite (sum_ext (fun _ => Z.to_nat (cols - 1))).
    + rewrite sum_const, length_seqZ. reflexivity.
    + intros r _. apply (sum_below cols (cols - 1)). lia.
  - rewrite (sum_ext (fun r => Z.to_nat cols * Nat.b2n (r <? rows - 1)%Z)%nat).
    + rewrite sum_scale. f_equal. apply (sum_below rows (rows - 1)). lia.
    + intros r _. cbn [fst]. rewrite sum_const, length_seqZ. reflexivity.
Qed.

Lemma kept_count cols rows grid :
  1 <= cols -> 1 <= rows -> wfGrid cols rows grid -> inStep grid ->
  (sum_list_with (gone grid) (places cols rows) + 1
   = Z.to_nat rows * Z.to_nat cols)%nat ->
  Z.of_nat (sum_list_with (kept cols rows grid) (places cols rows))
  = (cols - 1) * (rows - 1).
Proof.
  intros Hc Hr Hwf HS HG.
  pose proof (kept_total cols rows grid Hc Hr Hwf HS) as HT.
  set (K := sum_list_with (kept cols rows grid) (places cols rows)) in *.
  set (N := sum_list_with (gone grid) (places cols rows)) in *.
  clearbody K N.
  replace rows with (Z.of_nat (S (Z.to_nat (rows - 1)))) in * by lia.
  replace cols with (Z.of_nat (S (Z.to_nat (cols - 1)))) in * by lia.
  set (a := Z.to_nat (cols - 1)) in *. set (b := Z.to_nat (rows - 1)) in *.
  clearbody a b. clear Hc Hr Hwf HS.
  rewrite !Nat2Z.id in *.
  replace (Z.of_nat (S a) - 1) with (Z.of_nat a) in * by lia.
  replace (Z.of_nat (S b) - 1) with (Z.of_nat b) in * by lia.
  rewrite !Nat2Z.id in *. nia.
Qed.

(** ** The conversion *)

Lemma keen_next rng rng' : draws rng' = draws rng -> keen rng -> keen rng'.
Proof. unfold keen. intros ->. auto. Qed.

Lemma keen_unit rng : keen rng -> unitDraws rng.
Proof.
  intros K k _. destruct (K k) as [K1 K2]. unfold breakChance in K1. split.
  - apply Qlt_le_weak. eapply Qle_lt_trans; [|exact K1]. discriminate.
  - eapply Qle_lt_trans; [exact K2|]. reflexivity.
Qed.

Lemma pushLine_adds (Q : Line -> Prop) cond line :
  (cond = true -> forall ty, ty = "mirror"%string \/ ty = "glass"%string ->
                             Q (line ty)) ->
  (forall ty, type (line ty) = ty) ->
  adds Q (Nat.b2n cond) (pushLine cond line).
Proof.
  intros HQ Hty acc rng. unfold pushLine. destruct cond.
  - unfold gbind, Math_random, gret. cbn [nextDraw].
    set (g1 := mkRng (draws rng) (S (cursor rng))).
    destruct (Qle_bool (draws rng (cursor rng)) breakChance) eqn:E1;
      cbn [negb].
    + exists [], g1. rewrite app_nil_r.
      split; [reflexivity|]. split; [reflexivity|]. split; [constructor|].
      split; [simpl; lia|].
      intros K. destruct (K (cursor rng)) as [K1 _].
      apply Qle_bool_iff in E1. exfalso. exact (Qlt_not_le _ _ K1 E1).
    + cbn [draws cursor g1].
      set (ty := if negb (Qle_bool (draws rng (S (cursor rng))) (9 # 10))
                 then "glass"%string else "mirror"%string).
      exists [line ty], (mkRng (draws rng) (S (S (cursor rng)))).
      split; [reflexivity|]. split; [reflexivity|].
      assert (Hk : ty = "mirror"%string \/ ty = "glass"%string)
        by (unfold ty; destruct (negb _); auto).
      split; [constructor; [apply HQ; auto|constructor]|].
      split; [simpl; lia|].
      intros K. split; [reflexivity|]. constructor; [|constructor].
      rewrite Hty. unfold ty. destruct (K (S (cursor rng))) as [_ K2].
      apply Qle_bool_iff in K2. rewrite K2. reflexivity.
  - exists [], rng. unfold gret. rewrite app_nil_r.
    split; [reflexivity|]. split; [reflexivity|]. split; [constructor|].
    split; [simpl; lia|]. intros _. split; [reflexivity|constructor].
Qed.

Lemma adds_bind (Q : Line -> Prop) n n' m1 m2 :
  adds Q n m1 -> adds Q n' m2 ->
  adds Q (n + n') (fun acc => gbind (m1 acc) m2).
Proof.
  intros H1 H2 acc rng.
  destruct (H1 acc rng) as (e1 & r1 & E1 & D1 & F1 & L1 & K1).
  destruct (H2 (acc ++ e1) r1) as (e2 & r2 & E2 & D2 & F2 & L2 & K2).
  exists (e1 ++ e2), r2. rewrite (gbind_Ok _ _ _ _ _ E1), E2, app_assoc.
  split; [reflexivity|]. split; [congruence|].
  split; [apply Forall_app; auto|]. rewrite length_app.
  split; [lia|]. intros K.
  destruct (K1 K) as [K1a K1b].
  destruct (K2 (keen_next _ _ D1 K)) as [K2a K2b].
  split; [lia|apply Forall_app; auto].
Qed.

Lemma forEach_adds (Q : Line -> Prop) (n : Z -> nat) body (l : list Z) :
  (forall i, i ∈ l -> adds Q (n i) (body i)) ->
  adds Q (sum_list_with n l) (forEach l body).
Proof.
  induction l as [|i l IH]; intros H.
  - intros acc rng. exists [], rng. simpl. unfold gret. rewrite app_nil_r.
    split; [reflexivity|]. split; [reflexivity|]. split; [constructor|].
    split; [lia|]. intros _. split; [reflexivity|constructor].
  - apply (adds_bind Q (n i) (sum_list_with n l) (body i) (forEach l body)).
    + apply H, elem_of_cons. auto.
    + apply IH. intros j Hj. apply H, elem_of_cons. auto.
Qed.

Lemma convertCell_adds cols rows grid r c :
  wfGrid cols rows grid -> inGrid cols rows (r, c) ->
  adds (onWall cols rows grid) (kept cols rows grid (r, c))
       (convertCell cols rows grid r c).
Proof.
  intros Hwf Hp. destruct (proj1 Hwf _ Hp) as (cell & Ec & _).
  assert (E : forall acc rng,
             convertCell cols rows grid r c acc rng
             = gbind (pushLine ((c <? cols - 1) && right (walls cell))
                        (lineOn cols rows (r, c) Right) acc)
                     (pushLine ((r <? rows - 1) && bottom (walls cell))
                        (lineOn cols rows (r, c) Bottom)) rng).
  { intros acc rng. unfold convertCell.
    rewrite (gbind_Ok _ _ _ _ _ (cellAt_Ok _ _ _ rng Ec)). reflexivity. }
  intros acc rng. rewrite E. revert acc rng.
  assert (Hk : kept cols rows grid (r, c)
               = (Nat.b2n ((c <? cols - 1)%Z && right (walls cell))
                  + Nat.b2n ((r <? rows - 1)%Z && bottom (walls cell)))%nat).
  { unfold kept, standing. rewrite Ec. reflexivity. }
  rewrite Hk. destruct Hp as [Hr Hc]. cbn [fst snd] in Hr, Hc.
  apply (adds_bind (onWall cols rows grid));
    apply pushLine_adds; try (intros ty; reflexivity).
  - intros Hcond ty Hty. apply andb_true_iff in Hcond.
    destruct Hcond as [H1 H2]. apply Z.ltb_lt in H1.
    exists (r, c), Right, ty. split; [auto|].
    split; [split; assumption|].
    split; [unfold inGrid; simpl; lia|].
    split; [unfold standing; rewrite Ec; exact H2|]. auto.
  - intros Hcond ty Hty. apply andb_true_iff in Hcond.
    destruct Hcond as [H1 H2]. apply Z.ltb_lt in H1.
    exists (r, c), Bottom, ty. split; [auto|].
    split; [split; assumption|].
    split; [unfold inGrid; simpl; lia|].
    split; [unfold standing; rewrite Ec; exact H2|]. auto.
Qed.

Lemma convert_adds cols rows grid :
  wfGrid cols rows grid ->
  adds (onWall cols rows grid)
       (sum_list_with (kept cols rows grid) (places cols rows))
       (forEach (seqZ 0 rows)
                (fun r => forEach (seqZ 0 cols) (convertCell cols rows grid r))).
Proof.
  intros Hwf. unfold places. rewrite sum_prod.
  apply (forEach_adds (onWall cols rows grid)
           (fun r => sum_list_with (fun c => kept cols rows grid (r, c))
                                   (seqZ 0 cols))).
  intros r Hr.
  apply (forEach_adds (onWall cols rows grid)
           (fun c => kept cols rows grid (r, c))).
  intros c Hc. apply convertCell_adds; [exact Hwf|].
  apply elem_of_seqZ in Hr, Hc. split; simpl; lia.
Qed.

(** ** The end of [generate] *)

Lemma generate_ends (fuel : nat) (cols rows : Z) (rng : Rng) :
  1 <= cols -> 1 <= rows -> unitDraws rng ->
  2 * cols * rows <= Z.of_nat fuel ->
  exists grid lines rng',
    generate fuel cols rows rng = Ok (lines, rng')
    /\ draws rng' = draws rng
    /\ Forall (onWall cols rows grid) lines.
Proof.
  intros Hcols Hrows Hrng Hfuel.
  destruct (carve_ends fuel cols rows rng Hcols Hrows Hrng Hfuel)
    as (grid & vs & rng1 & Hrun & I & _ & _ & Hd & _).
  destruct (convert_adds cols rows grid (inv_wf _ _ _ _ _ I) [] rng1)
    as (lines & rng' & Hconv & Hd' & HQ & _).
  exists grid, lines, rng'. split; [|split; [congruence|exact HQ]].
  unfold generate. rewrite (gbind_Ok _ _ _ _ _ Hrun). exact Hconv.
Qed.
End CarveMore.
(* ====================================================================== *)
(** * The maze generator: what the code shows beyond the design document *)

Module MazeMore.
Import MazeGenerator MazeSpec GridFacts CarveFacts Lines CarveMore.
Local Open Scope Z_scope.

Lemma div_lt n m d : 0 < d -> n < m -> (div n d < div m d)%Q.
Proof.
  intros Hd H. unfold div, Qdiv. apply Qmult_lt_compat_r.
  - apply Qinv_lt_0_compat. change (inject_Z 0 < inject_Z d)%Q.
    rewrite <- Zlt_Qlt. exact Hd.
  - rewrite <- Zlt_Qlt. exact H.
Qed.

Lemma div_le n m d : 0 < d -> n <= m -> (div n d <= div m d)%Q.
Proof.
  intros Hd H. unfold div, Qdiv. apply Qmult_le_compat_r.
  - rewrite <- Zle_Qle. exact H.
  - apply Qlt_le_weak, Qinv_lt_0_compat. change (inject_Z 0 < inject_Z d)%Q.
    rewrite <- Zlt_Qlt. exact Hd.
Qed.

Lemma div_zero d : (div 0 d == 0)%Q.
Proof. unfold div, Qdiv. apply Qmult_0_l. Qed.

Lemma div_one d : 0 < d -> (div d d == 1)%Q.
Proof.
  intros Hd. unfold div, Qdiv. apply Qmult_inv_r.
  intros H. assert (E : (inject_Z 0 < inject_Z d)%Q)
    by (rewrite <- Zlt_Qlt; exact Hd).
  rewrite H in E. exact (Qlt_irrefl _ E).
Qed.

(** X21.  For a grid of at least one column and one row, draws of
    [Math.random] in [0, 1) and a loop budget of [2 * cols * rows]
    iterations or more, the carve phase ends having drawn
    [cols * rows - 1] numbers.  Every cell is then visited and carries
    its place; each of its four flags is cleared exactly where a passage
    leads to the neighbour across that side, so the flags along the
    border of the grid all stand. *)
Theorem carve_flags_follow_passages (fuel : nat) (cols rows : Z) (rng : Rng)
  (Hcols : 1 <= cols) (Hrows : 1 <= rows) (Hrng : unitDraws rng)
  (Hfuel : 2 * cols * rows <= Z.of_nat fuel) :
  exists grid rng',
    carve fuel cols rows rng = Ok (grid, rng')
    /\ draws rng' = draws rng
    /\ Z.of_nat (cursor rng') = Z.of_nat (cursor rng) + cols * rows - 1
    /\ forall p, inGrid cols rows p ->
         exists c,
           deref grid p = Some c /\ x c = snd p /\ y c = fst p
           /\ visited c = true
           /\ forall s,
                (wallFlag s c = false <-> open grid p (across s p))
                /\ (~ inGrid cols rows (across s p) -> wallFlag s c = true).
Proof.
  destruct (carve_ends fuel cols rows rng Hcols Hrows Hrng Hfuel)
    as (grid & vs & rng' & Hrun & I & HS & _ & Hd & Hk).
  exists grid, rng'. split; [exact Hrun|]. split; [exact Hd|].
  split; [rewrite <- Z2Nat.inj_mul in Hk by lia; lia|].
  intros p Hp. pose proof (inv_wf _ _ _ _ _ I) as Hwf.
  destruct (proj1 Hwf p Hp) as (c & Ec & Hx & Hy).
  exists c. split; [exact Ec|]. split; [exact Hx|]. split; [exact Hy|].
  split.
  - pose proof (Inv_all_visited _ _ _ _ I p Hp) as Hv.
    apply (inv_visited _ _ _ _ _ I) in Hv. destruct Hv as (c' & Ec' & Hv).
    congruence.
  - intros s.
    assert (Hflag : wallFlag s c = false <-> open grid p (across s p)).
    { rewrite <- passageOn_open. split; [apply HS, Ec|].
      intros H. apply passageOn_true in H.
      destruct H as (cp & _ & Ep & _ & F & _). congruence. }
    split; [exact Hflag|].
    intros Hout. apply not_false_iff_true. intros F.
    apply Hflag, passageOn_open, passageOn_true in F.
    destruct F as (_ & cq & _ & Eq & _). exact (Hout (proj2 Hwf _ _ Eq)).
Qed.

(** The theorem for a grid of two by two, every draw being zero. *)
Lemma carve_flags_follow_passages_witness :
  exists grid rng',
    carve 8 2 2 (mkRng (fun _ => 0%Q) 0) = Ok (grid, rng')
    /\ draws rng' = (fun _ => 0%Q)
    /\ Z.of_nat (cursor rng') = 0 + 2 * 2 - 1
    /\ forall p, inGrid 2 2 p ->
         exists c,
           deref grid p = Some c /\ x c = snd p /\ y c = fst p
           /\ visited c = true
           /\ forall s,
                (wallFlag s c = false <-> open grid p (across s p))
                /\ (~ inGrid 2 2 (across s p) -> wallFlag s c = true).
Proof.
  apply (carve_flags_follow_passages 8 2 2 (mkRng (fun _ => 0%Q) 0)).
  - lia.
  - lia.
  - intros k _. split; [apply Qle_refl|reflexivity].
  - simpl. lia.
Defined.

(** X22.  Under the same conditions [generate] returns a list of lines.
    Each line is the one drawn for the right or the bottom wall of a
    cell that has a neighbour across it, is a mirror or glass, and lies
    where the carve phase left no passage; and there are at most
    [(cols - 1) * (rows - 1)] lines. *)
Theorem generate_lines_off_passages (fuel : nat) (cols rows : Z) (rng : Rng)
  (Hcols : 1 <= cols) (Hrows : 1 <= rows) (Hrng : unitDraws rng)
  (Hfuel : 2 * cols * rows <= Z.of_nat fuel) :
  exists grid rng1 lines rng',
    carve fuel cols rows rng = Ok (grid, rng1)
    /\ generate fuel cols rows rng = Ok (lines, rng')
    /\ Z.of_nat (length lines) <= (cols - 1) * (rows - 1)
    /\ forall l, l ∈ lines ->
         exists p s ty,
           (s = Right \/ s = Bottom)
           /\ inGrid cols rows p /\ inGrid cols rows (across s p)
           /\ ~ open grid p (across s p)
           /\ (ty = "mirror"%string \/ ty = "glass"%string)
           /\ l = lineOn cols rows p s ty.
Proof.
  destruct (carve_ends fuel cols rows rng Hcols Hrows Hrng Hfuel)
    as (grid & vs & rng1 & Hrun & I & HS & HG & _ & _).
  pose proof (inv_wf _ _ _ _ _ I) as Hwf.
  destruct (convert_adds cols rows grid Hwf [] rng1)
    as (lines & rng' & Hconv & _ & HQ & Hlen & _).
  exists grid, rng1, lines, rng'. split; [exact Hrun|]. split.
  { unfold generate. rewrite (gbind_Ok _ _ _ _ _ Hrun). exact Hconv. }
  split.
  { rewrite <- (kept_count cols rows grid Hcols Hrows Hwf HS HG). lia. }
  intros l Hl. rewrite Forall_forall in HQ.
  destruct (HQ l Hl) as (p & s & ty & Hs & Gp & Gq & Hst & Hty & ->).
  exists p, s, ty. split; [exact Hs|]. split; [exact Gp|].
  split; [exact Gq|]. split; [|auto].
  intros Ho. apply passageOn_open, passageOn_true in Ho.
  destruct Ho as (cp & _ & Ep & _ & F & _).
  unfold standing in Hst. rewrite Ep in Hst. congruence.
Qed.

(** The theorem for a grid of two by two, every draw being zero. *)
Lemma generate_lines_off_passages_witness :
  exists grid rng1 lines rng',
    carve 8 2 2 (mkRng (fun _ => 0%Q) 0) = Ok (grid, rng1)
    /\ generate 8 2 2 (mkRng (fun _ => 0%Q) 0) = Ok (lines, rng')
    /\ Z.of_nat (length lines) <= (2 - 1) * (2 - 1)
    /\ forall l, l ∈ lines ->
         exists p s ty,
           (s = Right \/ s = Bottom)
           /\ inGrid 2 2 p /\ inGrid 2 2 (across s p)
           /\ ~ open grid p (across s p)
           /\ (ty = "mirror"%string \/ ty = "glass"%string)
           /\ l = lineOn 2 2 p s ty.
Proof.
  apply (generate_lines_off_passages 8 2 2 (mkRng (fun _ => 0%Q) 0)).
  - lia.
  - lia.
  - intros k _. split; [apply Qle_refl|reflexivity].
  - simpl. lia.
Defined.

(** X23.  When every draw of [Math.random] lies above [breakChance] and
    not above 0.9, no wall is broken and none is made of glass:
    [generate] returns [(cols - 1) * (rows - 1)] lines, all of them
    mirrors. *)
Theorem generate_keen_draws (fuel : nat) (cols rows : Z) (rng : Rng)
  (Hcols : 1 <= cols) (Hrows : 1 <= rows) (Hrng : keen rng)
  (Hfuel : 2 * cols * rows <= Z.of_nat fuel) :
  exists lines rng',
    generate fuel cols rows rng = Ok (lines, rng')
    /\ Z.of_nat (length lines) = (cols - 1) * (rows - 1)
    /\ forall l, l ∈ lines -> type l = "mirror"%string.
Proof.
  destruct (carve_ends fuel cols rows rng Hcols Hrows (keen_unit _ Hrng) Hfuel)
    as (grid & vs & rng1 & Hrun & I & HS & HG & Hd & _).
  pose proof (inv_wf _ _ _ _ _ I) as Hwf.
  destruct (convert_adds cols rows grid Hwf [] rng1)
    as (lines & rng' & Hconv & _ & _ & _ & HK).
  destruct (HK (keen_next _ _ Hd Hrng)) as [Hlen Hty].
  exists lines, rng'. split.
  { unfold generate. rewrite (gbind_Ok _ _ _ _ _ Hrun). exact Hconv. }
  split.
  { rewrite Hlen. apply kept_count; assumption. }
  rewrite Forall_forall in Hty. exact Hty.
Qed.

(** The theorem for a grid of three by two, every draw being one half. *)
Lemma generate_keen_draws_witness :
  exists lines rng',
    generate 12 3 2 (mkRng (fun _ => (1 # 2)%Q) 0) = Ok (lines, rng')
    /\ Z.of_nat (length lines) = (3 - 1) * (2 - 1)
    /\ forall l, l ∈ lines -> type l = "mirror"%string.
Proof.
  apply (generate_keen_draws 12 3 2 (mkRng (fun _ => (1 # 2)%Q) 0)).
  - lia.
  - lia.
  - intros k. split; [reflexivity|discriminate].
  - simpl. lia.
Defined.

(** X24.  For a grid with a cell at every place, the conversion returns
    a list of lines that all lie in the unit square and off its border:
    a line is either upright, at an abscissa strictly between 0 and 1,
    or level, at an ordinate strictly between 0 and 1, and runs in the
    direction of growing coordinates. *)
Theorem convert_lines_inside (cols rows : Z) (grid : Grid) (rng : Rng)
  (Hcols : 1 <= cols) (Hrows : 1 <= rows) (Hwf : wfGrid cols rows grid) :
  exists lines rng',
    convert cols rows grid rng = Ok (lines, rng')
    /\ forall l, l ∈ lines ->
         (x1 l = x2 l /\ 0 < x1 l /\ x1 l < 1
          /\ 0 <= y1 l /\ y1 l < y2 l /\ y2 l <= 1)%Q
         \/ (y1 l = y2 l /\ 0 < y1 l /\ y1 l < 1
             /\ 0 <= x1 l /\ x1 l < x2 l /\ x2 l <= 1)%Q.
Proof.
  destruct (convert_adds cols rows grid Hwf [] rng)
    as (lines & rng' & Hconv & _ & HQ & _).
  exists lines, rng'. split; [exact Hconv|].
  intros l Hl. rewrite Forall_forall in HQ.
  destruct (HQ l Hl) as ([r c] & s & ty & Hs & [Gr Gc] & [Gr' Gc'] & _ & _ & ->).
  cbn [fst snd] in Gr, Gc.
  assert (Z0 : forall n d, 0 < d -> 0 < n -> (0 < div n d)%Q).
  { intros n d Hd Hn. rewrite <- (div_zero d). apply div_lt; assumption. }
  assert (Z0' : forall n d, 0 < d -> 0 <= n -> (0 <= div n d)%Q).
  { intros n d Hd Hn. rewrite <- (div_zero d). apply div_le; assumption. }
  assert (Z1 : forall n d, 0 < d -> n < d -> (div n d < 1)%Q).
  { intros n d Hd Hn. rewrite <- (div_one d Hd). apply div_lt; assumption. }
  assert (Z1' : forall n d, 0 < d -> n <= d -> (div n d <= 1)%Q).
  { intros n d Hd Hn. rewrite <- (div_one d Hd). apply div_le; assumption. }
  destruct Hs as [-> | ->]; cbn [across fst snd] in Gr', Gc';
    cbn [lineOn x1 x2 y1 y2 fst snd]; [left|right].
  - split; [reflexivity|]. split; [apply Z0; lia|]. split; [apply Z1; lia|].
    split; [apply Z0'; lia|]. split; [apply div_lt; lia|apply Z1'; lia].
  - split; [reflexivity|]. split; [apply Z0; lia|]. split; [apply Z1; lia|].
    split; [apply Z0'; lia|]. split; [apply div_lt; lia|apply Z1'; lia].
Qed.

(** The theorem for the grid of two by two as it is built, no wall
    removed. *)
Lemma convert_lines_inside_witness :
  exists lines rng',
    convert 2 2 (newGrid 2 2) (mkRng (fun _ => (1 # 2)%Q) 0) = Ok (lines, rng')
    /\ forall l, l ∈ lines ->
         (x1 l = x2 l /\ 0 < x1 l /\ x1 l < 1
          /\ 0 <= y1 l /\ y1 l < y2 l /\ y2 l <= 1)%Q
         \/ (y1 l = y2 l /\ 0 < y1 l /\ y1 l < 1
             /\ 0 <= x1 l /\ x1 l < x2 l /\ x2 l <= 1)%Q.
Proof.
  apply (convert_lines_inside 2 2 (newGrid 2 2)).
  - lia.
  - lia.
  - apply wfGrid_newGrid.
Defined.
End MazeMore.
(* ====================================================================== *)
(** * Levels and shots *)

Module SessionFacts.
Import Game Scene Plane Levels Session Vec2Facts Geometry LoopFacts.
Local Open Scope R_scope.

(** ** The walls of a level *)

Lemma forEach_addScaled {A} (f : A -> Spec.t) w h ls : forall wld,
  snd (forEach ls (fun a => addScaled w h (f a)) wld)
  = mkWorld (withWalls (this wld)
                       (walls (this wld)
                        ++ ((fun a => scaled w h (f a)) <$> ls)))
            (random wld).
Proof.
  induction ls as [|l ls IH]; intros [[mb ws ps em tg at_] rng].
  - simpl. unfold withWalls; simpl. rewrite app_nil_r. reflexivity.
  - change (snd (forEach (l :: ls) (fun a => addScaled w h (f a))
                         (mkWorld (mkGame mb ws ps em tg at_) rng)))
      with (snd (forEach ls (fun a => addScaled w h (f a))
                   (mkWorld (mkGame mb (ws ++ [scaled w h (f l)]) ps em tg at_)
                            rng))).
    rewrite IH. unfold withWalls; simpl. rewrite <- app_assoc. reflexivity.
Qed.

Lemma scaled_built w h l : builtByAddWall (scaled w h l).
Proof. reflexivity. Qed.

Lemma border_built w h : Forall builtByAddWall (border w h).
Proof. repeat constructor. Qed.

Lemma border_optical w h : Forall optical (border w h).
Proof. repeat (constructor; [left; reflexivity|]). constructor. Qed.


Lemma onWall_optical cols rows grid w h l :
  Lines.onWall cols rows grid l -> optical (scaled w h (ofLine l)).
Proof.
  intros (p & s & ty & Hs & _ & _ & _ & Hty & ->).
  unfold optical. destruct Hs as [-> | ->]; exact Hty.
Qed.

Lemma mazeSize_cases c :
  mazeSize c = (10, 6)%Z \/ mazeSize c = (16, 9)%Z \/ mazeSize c = (22, 14)%Z.
Proof.
  unfold mazeSize. destruct (2 <=? c)%Z; [auto|].
  destruct (1 <=? c)%Z; auto.
Qed.

Lemma border_run w h wld :
  snd (bind (setWalls []) (fun _ => addBorder w h) wld)
  = mkWorld (withWalls (this wld) (border w h)) (random wld).
Proof. reflexivity. Qed.

Lemma loadStatic_run w h L wld :
  snd (loadStatic w h L wld)
  = mkWorld (mkGame CONFIG.defaultMaxBounces
                    (walls (this wld) ++ (scaled w h <$> Static.walls L))
                    (particles (this wld))
                    (Vec2.mk (Vec2.x (Static.emitter L) * w)
                             (Vec2.y (Static.emitter L) * h))
                    (Circle.mk (Vec2.x (Static.target L) * w)
                               (Vec2.y (Static.target L) * h) 15)
                    (attempts (this wld)))
            (random wld).
Proof.
  unfold loadStatic, bind. cbn [snd setMaxBounces setEmitter setTarget].
  rewrite (forEach_addScaled (fun a => a) w h (Static.walls L)).
  reflexivity.
Qed.

Lemma loadMaze_run w h cols rows maze wld :
  snd (loadMaze w h cols rows maze wld)
  = mkWorld (mkGame (maxBounces (this wld))
                    (walls (this wld)
                     ++ ((fun l => scaled w h (ofLine l)) <$> maze))
                    (particles (this wld))
                    (Vec2.mk (w / IZR cols * (5 / 10))
                             (h / IZR rows * (5 / 10)))
                    (Circle.mk (w - w / IZR cols * (5 / 10))
                               (h - h / IZR rows * (5 / 10))
                               (Rmin (w / IZR cols) (h / IZR rows) * (3 / 10)))
                    (attempts (this wld)))
            (random wld).
Proof.
  unfold loadMaze, bind. cbn [snd setEmitter setTarget].
  rewrite (forEach_addScaled ofLine w h maze). reflexivity.
Qed.

(** The levels of the campaign hold mirrors and glass only; their
    emitter is at a tenth of the width and at half or four fifths of the
    height, their target at nine tenths of the width and at a half, two
    fifths or a fifth of the height. *)
Lemma static_level (index : Z) (L : Static.t) :
  MazeGenerator.index staticLevels index = Some L ->
  Forall (fun wl => Spec.type wl = "mirror"%string
                    \/ Spec.type wl = "glass"%string) (Static.walls L)
  /\ Vec2.x (Static.emitter L) = 1 / 10
  /\ (Vec2.y (Static.emitter L) = 5 / 10
      \/ Vec2.y (Static.emitter L) = 8 / 10)
  /\ Vec2.x (Static.target L) = 9 / 10
  /\ (Vec2.y (Static.target L) = 5 / 10
      \/ Vec2.y (Static.target L) = 4 / 10
      \/ Vec2.y (Static.target L) = 2 / 10).
Proof.
  unfold MazeGenerator.index. destruct (index <? 0)%Z; [discriminate|].
  unfold staticLevels.
  destruct (Z.to_nat index) as [|[|[|n]]]; cbn [lookup list_lookup];
    intros E; try discriminate; injection E as <-; cbn [Static.walls
      Static.emitter Static.target Vec2.x Vec2.y].
  - split; [|auto 6]. repeat (constructor; [cbn [Spec.type]; auto|]).
    constructor.
  - split; [|auto 6]. repeat (constructor; [cbn [Spec.type]; auto|]).
    constructor.
  - split; [|auto 6]. repeat (constructor; [cbn [Spec.type]; auto|]).
    constructor.
Qed.

(** The map [loadLevel] builds: the border, then mirrors and glass, each
    wall with the normal [addWall] computes; the emitter and the centre
    of the target are well inside a canvas of one by one or more. *)
Lemma buildMap_run (fuel : nat) (w h : R) (index : Z) (wld : World) :
  (0 <= index)%Z -> MazeSpec.unitDraws (random wld) -> (616 <= fuel)%nat ->
  exists ws em tg rng',
    buildMap fuel w h index wld
    = MazeGenerator.Ok
        (mkWorld (mkGame (if (index <? 3)%Z then 20%Z else 150%Z)
                         (border w h ++ ws) (particles (this wld)) em tg
                         (attempts (this wld)))
                 rng')
    /\ draws rng' = draws (random wld)
    /\ Forall optical ws /\ Forall builtByAddWall ws
    /\ (1 <= w -> 1 <= h ->
        inside w h epsilon em /\ inside w h epsilon (Circle.pos tg)
        /\ 0 < Circle.r tg).
Proof.
  intros Hidx Hrng Hfuel. unfold buildMap. rewrite border_run.
  change (Z.of_nat (length staticLevels)) with 3%Z.
  destruct (Z.ltb_spec index 3) as [Hs|Hm].
  - destruct (MazeGenerator.index staticLevels index) as [L|] eqn:EL.
    2:{ exfalso. unfold MazeGenerator.index in EL.
        destruct (Z.ltb_spec index 0); [lia|].
        apply lookup_ge_None in EL. simpl in EL. lia. }
    destruct (static_level index L EL) as (Hty & Hex & Hey & Htx & Hty').
    rewrite loadStatic_run.
    exists (scaled w h <$> Static.walls L),
      (Vec2.mk (Vec2.x (Static.emitter L) * w) (Vec2.y (Static.emitter L) * h)),
      (Circle.mk (Vec2.x (Static.target L) * w)
                 (Vec2.y (Static.target L) * h) 15),
      (random wld).
    split; [reflexivity|]. split; [reflexivity|].
    split; [apply Forall_fmap; exact Hty|].
    split; [apply Forall_fmap, Forall_forall; intros l _; apply scaled_built|].
    intros Hw Hh. unfold inside, epsilon, Circle.pos;
      cbn [Vec2.x Vec2.y Circle.x Circle.y Circle.r].
    rewrite Hex, Htx.
    destruct Hey as [-> | ->], Hty' as [-> |[-> | ->]]; lra.
  - destruct (mazeSize (index - 3)) as [cols rows] eqn:E.
    assert (B : (1 <= cols /\ 1 <= rows /\ 2 * cols * rows <= 616)%Z
                /\ (cols = 10 \/ cols = 16 \/ cols = 22)%Z
                /\ (rows = 6 \/ rows = 9 \/ rows = 14)%Z).
    { destruct (mazeSize_cases (index - 3))
        as [C|[C|C]]; rewrite C in E; injection E as <- <-; lia. }
    destruct B as ((B1 & B2 & B3) & Bc & Br).
    cbn [snd setMaxBounces random this].
    destruct (CarveMore.generate_ends fuel cols rows (random wld))
      as (grid & lines & rng' & Hgen & Hd & HQ);
      [exact B1|exact B2|exact Hrng|lia|].
    rewrite Hgen.
    exists ((fun l => scaled w h (ofLine l)) <$> lines),
      (Vec2.mk (w / IZR cols * (5 / 10)) (h / IZR rows * (5 / 10))),
      (Circle.mk (w - w / IZR cols * (5 / 10)) (h - h / IZR rows * (5 / 10))
                 (Rmin (w / IZR cols) (h / IZR rows) * (3 / 10))),
      rng'.
    split.
    { unfold bind. cbn [snd setRandom]. rewrite loadMaze_run. reflexivity. }
    split; [exact Hd|].
    split.
    { apply Forall_fmap. eapply Forall_impl; [exact HQ|].
      intros l Hl. eapply onWall_optical, Hl. }
    split.
    { apply Forall_fmap, Forall_forall. intros l _. apply scaled_built. }
    intros Hw Hh. unfold inside, epsilon, Circle.pos;
      cbn [Vec2.x Vec2.y Circle.x Circle.y Circle.r].
    destruct Bc as [-> |[-> | ->]], Br as [-> |[-> | ->]];
      (split; [lra|]); (split; [lra|]);
      (apply Rmult_lt_0_compat; [apply Rmin_glb_lt; lra|lra]).
Qed.

Lemma loadLevel_run (fuel : nat) (w h : R) (index : Z) (s : Session.t) :
  (0 <= index)%Z -> MazeSpec.unitDraws (random (world s)) ->
  (616 <= fuel)%nat ->
  exists ws em tg rng',
    loadLevel fuel w h index false s
    = MazeGenerator.Ok
        (mk (mkWorld (mkGame (if (index <? 3)%Z then 20%Z else 150%Z)
                             (border w h ++ ws) [] em tg 0)
                     rng')
            index [] (mouse s) (totalSessionDistance s)
            (recordOf (levelRecords s) index) (levelRecords s))
    /\ draws rng' = draws (random (world s))
    /\ Forall optical ws /\ Forall builtByAddWall ws
    /\ (1 <= w -> 1 <= h ->
        inside w h epsilon em /\ inside w h epsilon (Circle.pos tg)
        /\ 0 < Circle.r tg).
Proof.
  intros Hidx Hrng Hfuel. unfold loadLevel.
  set (wld := snd (bind (setAttempts 0) (fun _ => setParticles []) (world s))).
  destruct (buildMap_run fuel w h index wld Hidx Hrng Hfuel)
    as (ws & em & tg & rng' & E & Hd & Ho & Hb & Hi).
  exists ws, em, tg, rng'. rewrite E. split; [reflexivity|].
  split; [exact Hd|]. auto.
Qed.

(** ** Traces among mirrors and glass *)

Lemma optical_step ws tg st fin site :
  Forall optical ws -> stepIn ws tg st = (fin, Break site) ->
  site <> AtAbsorb.
Proof.
  intros Ho S.
  destruct (nearestHit ws (currPos st) (currDir st)) as [n|] eqn:E.
  - rewrite (stepIn_hit ws tg st n E) in S. cbn zeta in S.
    destruct (nearestHit_some _ _ _ _ E) as (Hin & _).
    rewrite Forall_forall in Ho.
    assert (Hty : String.eqb (Wall.type (hitWall n)) "absorb" = false).
    { destruct (Ho _ (proj2 (list_elem_of_In _ _) Hin)) as [-> | ->];
        reflexivity. }
    rewrite Hty in S. injection S as _ S.
    destruct (_ || _); [|discriminate]. injection S as <-. discriminate.
  - rewrite (stepIn_escape ws tg st E) in S. injection S as _ <-.
    discriminate.
Qed.

Lemma optical_loop ws tg :
  Forall optical ws ->
  forall n i st, exit (loopIn ws tg n i st) <> Broke AtAbsorb.
Proof.
  intros Ho n i st.
  destruct (TraceMore.loopIn_last ws tg (fun _ => True) (fun _ _ _ => I)
              n i st I)
    as [[Hx _]|(st' & site & _ & S & Hx)]; rewrite Hx; [discriminate|].
  intros X. injection X as X. exact (optical_step ws tg st' _ site Ho S X).
Qed.

(** ** A shot *)

Lemma handleWin_run wld : grown 50 wld (snd (handleWin wld)).
Proof.
  unfold handleWin.
  assert (G : forall n w, grown n w
                (snd (times n (bind (gets target) (fun tg =>
                        spawnParticles (Circle.pos tg) "#0f0" 15)) w))).
  { induction n as [|n IH]; intros w; [apply grown_refl|].
    cbn [times]. unfold bind at 1.
    destruct (bind (gets target) _ w) as [u w1] eqn:E1.
    assert (G1 : grown 1 w w1).
    { unfold bind, gets in E1. cbn [fst snd] in E1.
      pose proof (spawnParticles_run (Circle.pos (target (this w)))
                                     "#0f0" 15 w) as [_ G].
      destruct (spawnParticles _ _ _ w) as [u' w']. injection E1 as _ <-.
      exact G. }
    replace (S n) with (1 + n)%nat by lia.
    eapply grown_trans; [exact G1|apply IH]. }
  apply G.
Qed.

(** The value of a trace is the same in a world with other counters,
    particles and draws. *)
Lemma traceRay_same start dir w w' :
  walls (this w') = walls (this w) -> target (this w') = target (this w) ->
  maxBounces (this w') = maxBounces (this w) ->
  fst (traceRay start dir w') = fst (traceRay start dir w).
Proof.
  intros Hw Ht Hm.
  destruct (traceRay_run start dir w) as (_ & -> & _).
  destruct (traceRay_run start dir w') as (_ & -> & _).
  rewrite Hw, Ht, Hm. reflexivity.
Qed.

(** The fields after a shot. *)
Lemma shootRay_run (now : Z) (s : Session.t) :
  let rayLen := Score.calculatePathLength (path (shot s)) in
  let improved := success (shot s) && beats rayLen (currentLevelBest s) in
  let s' := snd (shootRay now s) in
  history s'
  = (let h := entry now s :: history s in
     if (10 <? length h)%nat then removelast h else h)
  /\ (exists k : nat,
        (k <= Z.to_nat (maxBounces (this (world s))) + 50)%nat
        /\ grown k (snd (setAttempts (attempts (this (world s)) + 1) (world s)))
                 (world s'))
  /\ levelIndex s' = levelIndex s /\ mouse s' = mouse s
  /\ totalSessionDistance s' = (totalSessionDistance s + rayLen)%Z
  /\ currentLevelBest s'
     = (if improved then Some rayLen else currentLevelBest s)
  /\ levelRecords s'
     = (if improved then <[levelIndex s := rayLen]> (levelRecords s)
        else levelRecords s)
  /\ fst (shootRay now s)
     = negb (success (shot s))
       && (10 <=? attempts (this (world s)) + 1)%Z.
Proof.
  cbn zeta. unfold shootRay.
  set (wld1 := snd (setAttempts (attempts (this (world s)) + 1) (world s))).
  change (emitter (this wld1)) with (emitter (this (world s))).
  fold (aim s).
  assert (Er : fst (traceRay (emitter (this (world s))) (aim s) wld1) = shot s)
    by (apply traceRay_same; reflexivity).
  pose proof (traceRay_run (emitter (this (world s))) (aim s) wld1) as Hrun.
  cbn zeta in Hrun. destruct Hrun as (_ & _ & k & Hk & Hg).
  destruct (traceRay (emitter (this (world s))) (aim s) wld1)
    as [result wld2]. cbn [fst snd] in Er, Hg. subst result.
  fold (entry now s).
  assert (Hg' : exists k' : nat,
             (k' <= Z.to_nat (maxBounces (this (world s))) + 50)%nat
             /\ grown k' wld1
                      (if success (shot s) then snd (handleWin wld2)
                       else wld2)).
  { change (maxBounces (this wld1)) with (maxBounces (this (world s))) in Hk.
    destruct (success (shot s)).
    - exists (k + 50)%nat. split; [lia|].
      eapply grown_trans; [exact Hg|apply handleWin_run].
    - exists k. split; [lia|exact Hg]. }
  destruct Hg' as (k' & Hk' & Hg').
  cbn [snd fst history world levelIndex mouse totalSessionDistance
       currentLevelBest levelRecords].
  split; [reflexivity|]. split; [exists k'; auto|].
  split; [reflexivity|]. split; [reflexivity|]. split; [reflexivity|].
  split; [reflexivity|]. split; [reflexivity|].
  destruct (grown_scene _ _ _ Hg') as (_ & _ & _ & _ & ->). reflexivity.
Qed.


Lemma removelast_len {A} (l : list A) :
  length (removelast l) = Nat.pred (length l).
Proof. rewrite removelast_firstn_len, length_take. lia. Qed.

End SessionFacts.
(* ====================================================================== *)
(** * Levels and shots: what the code shows *)

Module SessionMore.
Import Game Scene Plane Levels Session Vec2Facts Geometry LoopFacts.
Import SessionFacts.
Local Open Scope R_scope.

(** X25.  For an index that is not negative, draws of [Math.random] in
    [0, 1) and a loop budget that covers the largest maze,
    [loadLevel(index)] returns.  The level has the four mirrors of the
    border as its first walls; every wall is a mirror or glass and
    carries the normal [addWall] computes; the bounce limit is 20 in the
    campaign and 150 in a maze; the attempts, the particles and the
    history are reset; and the session is in order. *)
Theorem loadLevel_builds_level (fuel : nat) (w h : R) (index : Z)
  (s : Session.t)
  (Hidx : (0 <= index)%Z) (Hrng : MazeSpec.unitDraws (random (world s)))
  (Hfuel : (616 <= fuel)%nat) :
  exists s',
    loadLevel fuel w h index false s = MazeGenerator.Ok s'
    /\ levelIndex s' = index /\ history s' = []
    /\ attempts (this (world s')) = 0%Z /\ particles (this (world s')) = []
    /\ maxBounces (this (world s'))
       = (if (index <? 3)%Z then CONFIG.defaultMaxBounces
          else CONFIG.complexMaxBounces)
    /\ (exists ws, walls (this (world s')) = border w h ++ ws)
    /\ Forall optical (walls (this (world s')))
    /\ Forall builtByAddWall (walls (this (world s')))
    /\ tidy s'.
Proof.
  destruct (loadLevel_run fuel w h index s Hidx Hrng Hfuel)
    as (ws & em & tg & rng' & E & _ & Ho & Hb & _).
  eexists. split; [exact E|].
  cbn [levelIndex history world this attempts particles maxBounces walls].
  split; [reflexivity|]. split; [reflexivity|]. split; [reflexivity|].
  split; [reflexivity|]. split; [reflexivity|].
  split; [exists ws; reflexivity|].
  split; [apply Forall_app; split; [apply border_optical|exact Ho]|].
  split; [apply Forall_app; split; [apply border_built|exact Hb]|].
  unfold tidy. cbn [history world this attempts currentLevelBest
                    levelRecords levelIndex length].
  split; [lia|]. split; [lia|].
  intros b. unfold recordOf.
  destruct (levelRecords s !! index) as [v|]; [|discriminate].
  destruct (v =? 0)%Z; [discriminate|]. auto.
Qed.

(** The theorem for the first level on a canvas of 100 by 100, in a
    session as the constructor leaves it. *)
Lemma loadLevel_builds_level_witness :
  exists s',
    loadLevel 616 100 100 0 false (initial (mkRng (fun _ => 0%Q) 0))
    = MazeGenerator.Ok s'
    /\ levelIndex s' = 0%Z /\ history s' = []
    /\ attempts (this (world s')) = 0%Z /\ particles (this (world s')) = []
    /\ maxBounces (this (world s'))
       = (if (0 <? 3)%Z then CONFIG.defaultMaxBounces
          else CONFIG.complexMaxBounces)
    /\ (exists ws, walls (this (world s')) = border 100 100 ++ ws)
    /\ Forall optical (walls (this (world s')))
    /\ Forall builtByAddWall (walls (this (world s')))
    /\ tidy s'.
Proof.
  apply (loadLevel_builds_level 616 100 100 0
           (initial (mkRng (fun _ => 0%Q) 0))).
  - lia.
  - intros k _. split; [apply Qle_refl|reflexivity].
  - lia.
Defined.

(** X26.  No trace in a loaded level stops at an absorbing wall: the
    levels hold none, so whatever the start and the direction the loop
    of [traceRay] ends at the bounce limit, on the target or in the
    escape branch. *)
Theorem loaded_level_never_absorbs (fuel : nat) (w h : R) (index : Z)
  (s : Session.t)
  (Hidx : (0 <= index)%Z) (Hrng : MazeSpec.unitDraws (random (world s)))
  (Hfuel : (616 <= fuel)%nat) :
  exists s',
    loadLevel fuel w h index false s = MazeGenerator.Ok s'
    /\ forall wld start dir,
         walls (this wld) = walls (this (world s')) ->
         exit (fst (traceLoop start dir wld)) <> Broke AtAbsorb.
Proof.
  destruct (loadLevel_run fuel w h index s Hidx Hrng Hfuel)
    as (ws & em & tg & rng' & E & _ & Ho & _ & _).
  eexists. split; [exact E|]. cbn [world this walls].
  intros wld start dir Hw.
  pose proof (traceRay_run start dir wld) as Hrun. cbn zeta in Hrun.
  destruct Hrun as (-> & _ & _). cbn [fst]. rewrite Hw.
  apply optical_loop, Forall_app. split; [apply border_optical|exact Ho].
Qed.

(** The theorem for the first maze on a canvas of 100 by 100. *)
Lemma loaded_level_never_absorbs_witness :
  exists s',
    loadLevel 616 100 100 3 false (initial (mkRng (fun _ => 0%Q) 0))
    = MazeGenerator.Ok s'
    /\ forall wld start dir,
         walls (this wld) = walls (this (world s')) ->
         exit (fst (traceLoop start dir wld)) <> Broke AtAbsorb.
Proof.
  apply (loaded_level_never_absorbs 616 100 100 3
           (initial (mkRng (fun _ => 0%Q) 0))).
  - lia.
  - intros k _. split; [apply Qle_refl|reflexivity].
  - lia.
Defined.

(** X28.  In a level loaded on a canvas at least one wide and one high,
    whichever the level, the emitter and the centre of the target both
    stand more than [epsilon] inside the canvas, and the target has a
    positive radius. *)
Theorem loaded_level_inside (fuel : nat) (w h : R) (index : Z)
  (s : Session.t)
  (Hidx : (0 <= index)%Z) (Hrng : MazeSpec.unitDraws (random (world s)))
  (Hfuel : (616 <= fuel)%nat) (Hw : 1 <= w) (Hh : 1 <= h) :
  exists s',
    loadLevel fuel w h index false s = MazeGenerator.Ok s'
    /\ inside w h epsilon (emitter (this (world s')))
    /\ inside w h epsilon (Circle.pos (target (this (world s'))))
    /\ 0 < Circle.r (target (this (world s'))).
Proof.
  destruct (loadLevel_run fuel w h index s Hidx Hrng Hfuel)
    as (ws & em & tg & rng' & E & _ & _ & _ & Hi).
  eexists. split; [exact E|]. cbn [world this emitter target].
  exact (Hi Hw Hh).
Qed.

(** The theorem for the second maze on a canvas of 100 by 100. *)
Lemma loaded_level_inside_witness :
  exists s',
    loadLevel 616 100 100 4 false (initial (mkRng (fun _ => 0%Q) 0))
    = MazeGenerator.Ok s'
    /\ inside 100 100 epsilon (emitter (this (world s')))
    /\ inside 100 100 epsilon (Circle.pos (target (this (world s'))))
    /\ 0 < Circle.r (target (this (world s'))).
Proof.
  apply (loaded_level_inside 616 100 100 4
           (initial (mkRng (fun _ => 0%Q) 0))).
  - lia.
  - intros k _. split; [apply Qle_refl|reflexivity].
  - lia.
  - lra.
  - lra.
Defined.

(** X29.  A shot keeps the session in order: after [shootRay] the
    history still holds at most ten shots and no more than the attempts
    count, and a best score is still the record stored for the level.
    The shot counts as one attempt, adds a length that is not negative
    to the session total, and never raises the best score; the page is
    left exactly when the shot failed and it was the tenth attempt or
    later. *)
Theorem shootRay_keeps_order (now : Z) (s : Session.t) (H : tidy s) :
  let s' := snd (shootRay now s) in
  tidy s'
  /\ attempts (this (world s')) = (attempts (this (world s)) + 1)%Z
  /\ (totalSessionDistance s <= totalSessionDistance s')%Z
  /\ (forall b, currentLevelBest s = Some b ->
                exists b', currentLevelBest s' = Some b' /\ (b' <= b)%Z)
  /\ (fst (shootRay now s) = true
      <-> success (shot s) = false
          /\ (10 <= attempts (this (world s')))%Z).
Proof.
  cbn zeta. destruct H as (H1 & H2 & H3).
  pose proof (shootRay_run now s) as R. cbn zeta in R.
  destruct R as (Eh & (k & _ & Hg) & Ei & _ & Et & Eb & Er & Ef).
  destruct (grown_scene _ _ _ Hg) as (_ & _ & _ & _ & Ea).
  cbn [snd setAttempts this attempts] in Ea.
  assert (Hlen : (length (history (snd (shootRay now s)))
                  <= S (length (history s)))%nat
                 /\ (length (history (snd (shootRay now s))) <= 10)%nat).
  { rewrite Eh. cbn zeta.
    destruct (Nat.ltb_spec 10 (length (entry now s :: history s))) as [L|L].
    - rewrite removelast_len. simpl in *. lia.
    - simpl in *. lia. }
  assert (Hpos : (0 <= Score.calculatePathLength (path (shot s)))%Z).
  { unfold Score.calculatePathLength. apply Zfloor_lub.
    apply TraceMore.lengthLoop_nonneg. }
  split; [|split; [exact Ea|split; [lia|split]]].
  - split; [tauto|]. split; [lia|].
    intros b. rewrite Eb, Er, Ei.
    destruct (success (shot s) && beats _ _).
    + intros E. injection E as <-. apply lookup_insert_eq.
    + apply H3.
  - intros b Hb. rewrite Eb, Hb.
    destruct (success (shot s) && beats _ (Some b)) eqn:E.
    + apply andb_true_iff in E. destruct E as [_ E]. simpl in E.
      apply Z.ltb_lt in E. eexists. split; [reflexivity|lia].
    + exists b. split; [reflexivity|lia].
  - rewrite Ef, Ea, andb_true_iff, negb_true_iff, Z.leb_le. tauto.
Qed.

(** The theorem for the session as the constructor leaves it. *)
Lemma shootRay_keeps_order_witness :
  let s := initial (mkRng (fun _ => 0%Q) 0) in
  let s' := snd (shootRay 0 s) in
  tidy s'
  /\ attempts (this (world s')) = (attempts (this (world s)) + 1)%Z
  /\ (totalSessionDistance s <= totalSessionDistance s')%Z
  /\ (forall b, currentLevelBest s = Some b ->
                exists b', currentLevelBest s' = Some b' /\ (b' <= b)%Z)
  /\ (fst (shootRay 0 s) = true
      <-> success (shot s) = false
          /\ (10 <= attempts (this (world s')))%Z).
Proof.
  apply (shootRay_keeps_order 0 (initial (mkRng (fun _ => 0%Q) 0))).
  split; [simpl; lia|]. split; [simpl; lia|]. intros b E. discriminate E.
Defined.


End SessionMore.

(* ====================================================================== *)
(** * The tracer as it runs: facts on doubles *)

Module DoubleFacts.
Import PrimFloat.
#[local] Set Warnings "-inexact-float".

(** The value of a double, as a quotient of two integers. *)
Lemma toR_value (f : float) (n : Z) (d : positive) :
  Double.toQ f = Qmake n d -> Double.toR f = (IZR n / IZR (Z.pos d))%R.
Proof. intros E. unfold Double.toR. rewrite E. reflexivity. Qed.

(** Over the real numbers, what the refraction case does to the length
    of the direction: with a normal of length one, the squared length of
    the refracted vector exceeds one by [n * n] times what the squared
    length of the incoming direction exceeds one by.  A direction of
    length one stays so; any other is carried further from it when the
    ray leaves the glass, where [n] = 1.5. *)
Lemma snell_excess (d N : Vec2.t) (n : R) :
  Vec2.mag N = 1%R ->
  (n * n * (1 - Vec2.dot N d * Vec2.dot N d) <= 1)%R ->
  (Vec2.dot (Plane.snell d N n) (Plane.snell d N n) - 1
   = n * n * (Vec2.dot d d - 1))%R.
Proof.
  intros HN Hs. apply Vec2Facts.mag_one_dot in HN. unfold Plane.snell.
  set (cosI := (- Vec2.dot N d)%R).
  assert (Hs' : (n * n * (1 - cosI * cosI) <= 1)%R)
    by (unfold cosI; replace (- Vec2.dot N d * - Vec2.dot N d)%R
          with (Vec2.dot N d * Vec2.dot N d)%R by ring; exact Hs).
  set (cosT := R_sqrt.sqrt (1 - n * n * (1 - cosI * cosI))%R).
  assert (HT : (cosT * cosT = 1 - n * n * (1 - cosI * cosI))%R)
    by (apply sqrt_sqrt; lra).
  assert (HI : Vec2.dot d N = (- cosI)%R)
    by (unfold cosI; rewrite Geometry.dot_comm; ring).
  set (k := (n * cosI - cosT)%R).
  replace (Vec2.dot (Vec2.add (Vec2.mult d n) (Vec2.mult N k))
                    (Vec2.add (Vec2.mult d n) (Vec2.mult N k)))
    with (n * n * Vec2.dot d d + 2 * n * k * Vec2.dot d N
          + k * k * Vec2.dot N N)%R
    by (unfold Vec2.dot, Vec2.add, Vec2.mult; simpl; ring).
  rewrite HN, HI.
  replace (n * n * Vec2.dot d d + 2 * n * k * - cosI + k * k * 1 - 1)%R
    with (n * n * Vec2.dot d d - n * n * cosI * cosI + cosT * cosT - 1)%R
    by (unfold k; ring).
  rewrite HT. ring.
Qed.

Local Open Scope float_scope.

(** C1.  The refraction does not renormalize.  Fifty-one glass walls
    stand upright, ten apart, each with its stored normal along the ray,
    so that every hit takes the refraction case with n = 1.5.  The shot
    starts at the origin with the direction (1, 1e-9), which
    [Vec2.normalize] leaves as it is and whose length is 1 in doubles.
    The trace crosses the 51 walls and escapes: the path has 53 points.
    The direction it ends with is (1, 0.956...), of squared length 1.91
    and length above 1.38: no refraction brought it back to length one,
    and the escape segment, drawn as 2000 times the direction, is more
    than 2767 long. *)
Theorem refraction_not_renormalized :
  let dir := Double.Vec2.mk 1 1e-9 in
  let e := Double.Game.traceLoop 150 (Double.GlassRow.walls 51 10)
             Double.GlassRow.target (Double.Vec2.mk 0 0) dir in
  let p := Double.Vec2.mk 510 19.128644986421484 in
  let q := Double.Vec2.mk 2510 1931.9931456285699 in
  Double.Vec2.normalize dir = dir /\ Double.Vec2.mag dir = 1
  /\ length (Double.Game.points e) = 53%nat
  /\ Double.Game.hitTarget e = false
  /\ Double.Game.currDir e = Double.Vec2.mk 1 0.95643225032107426
  /\ Double.Vec2.dot (Double.Game.currDir e) (Double.Game.currDir e)
     = 1.914762649454234
  /\ (1.38 <? Double.Vec2.mag (Double.Game.currDir e)) = true
  /\ List.skipn 51 (Double.Game.points e) = [p; q]
  /\ (2767 <? Double.Vec2.dist p q) = true.
Proof. vm_compute. repeat split; reflexivity. Qed.

(** X6.  [getLineIntersection] can miss a wall the ray does meet.  From
    (120, 360), along the unit vector [Vec2.normalize] gives for
    (-21, 63), the ray runs into the end (0, 720) of the wall from
    (1200, 720) to (0, 720).  On doubles the parameter [t2] comes out
    above 1 and the function returns [null]; on the same four points
    the function over the real numbers returns a hit, between 379 and
    380 ahead. *)
Theorem getLineIntersection_misses_wall_end :
  let p := Double.Vec2.mk 120 360 in
  let d := Double.Vec2.mk (-0.31622776601683794) 0.94868329805051388 in
  let a := Double.Vec2.mk 1200 720 in
  let b := Double.Vec2.mk 0 720 in
  Double.Vec2.normalize (Double.Vec2.mk (-21) 63) = d
  /\ Double.Game.getLineIntersection p d a b = None
  /\ exists hit,
       Game.getLineIntersection (Exact.real p) (Exact.real d)
                                (Exact.real a) (Exact.real b) = Some hit
       /\ (379 < Game.t hit < 380)%R.
Proof.
  cbn zeta. split; [vm_compute; reflexivity|].
  split; [vm_compute; reflexivity|].
  assert (Dx : Double.toR (-0.31622776601683794)
               = (-5696652996790543 / 18014398509481984)%R)
    by (apply (toR_value _ (-5696652996790543) 18014398509481984);
        vm_compute; reflexivity).
  assert (Dy : Double.toR 0.94868329805051388
               = (8544979495185815 / 9007199254740992)%R)
    by (apply (toR_value _ 8544979495185815 9007199254740992);
        vm_compute; reflexivity).
  assert (N0 : Double.toR 0 = 0%R)
    by (unfold Double.toR; vm_compute Double.toQ; apply RMicromega.Q2R_0).
  assert (N1 : Double.toR 120 = 120%R).
  { rewrite (toR_value _ 8444249301319680 70368744177664)
      by (vm_compute; reflexivity). lra. }
  assert (N2 : Double.toR 360 = 360%R).
  { rewrite (toR_value _ 6333186975989760 17592186044416)
      by (vm_compute; reflexivity). lra. }
  assert (N3 : Double.toR 720 = 720%R).
  { rewrite (toR_value _ 6333186975989760 8796093022208)
      by (vm_compute; reflexivity). lra. }
  assert (N4 : Double.toR 1200 = 1200%R).
  { rewrite (toR_value _ 5277655813324800 4398046511104)
      by (vm_compute; reflexivity). lra. }
  unfold Exact.real. cbn [Double.Vec2.x Double.Vec2.y].
  rewrite Dx, Dy, N0, N1, N2, N3, N4.
  set (dx := (-5696652996790543 / 18014398509481984)%R).
  set (dy := (8544979495185815 / 9007199254740992)%R).
  rewrite (Scenario.getLineIntersection_value _ _ _ _
             (1200 * dy)%R (360 / dy)%R
             ((1080 * dy - 360 * dx) / (1200 * dy))%R);
    cbn [Vec2.x Vec2.y]; unfold dx, dy.
  - Rdecide. cbn [andb]. eexists. split; [reflexivity|].
    cbn [Game.t]. lra.
  - lra.
  - rewrite Rabs_pos_eq; lra.
  - field.
  - field.
Qed.

(** X19.  The result of a trace depends on how far the pointer is.  In
    the first level on a canvas of 1200 by 720 the emitter is at
    (120, 360).  The direction (-1, 3) and the same direction 21 times
    as long, (-21, 63), both aim at the corner (0, 720) of the canvas;
    the unit vectors [Vec2.normalize] makes of them differ in the last
    bit.  The first shot hits the wall at the corner and gives a path of
    three points, the second finds no wall and gives a path of two. *)
Theorem trace_depends_on_scale :
  let m := Double.Level.loadLevel 1200 720 Double.Level.RICOCHET in
  Double.Level.mapEmitter m = Double.Vec2.mk 120 360
  /\ Double.Vec2.mult (Double.Vec2.mk (-1) 3) 21 = Double.Vec2.mk (-21) 63
  /\ Double.Vec2.normalize (Double.Vec2.mk (-1) 3)
     = Double.Vec2.mk (-0.31622776601683794) 0.94868329805051377
  /\ Double.Vec2.normalize (Double.Vec2.mk (-21) 63)
     = Double.Vec2.mk (-0.31622776601683794) 0.94868329805051388
  /\ length (Double.Game.path (Double.Level.shot m (Double.Vec2.mk (-1) 3)))
     = 3%nat
  /\ List.firstn 2
       (Double.Game.path (Double.Level.shot m (Double.Vec2.mk (-1) 3)))
     = [Double.Vec2.mk 120 360; Double.Vec2.mk 0 720]
  /\ Double.Game.path (Double.Level.shot m (Double.Vec2.mk (-21) 63))
     = [Double.Vec2.mk 120 360;
        Double.Vec2.mk (-512.45553203367592) 2257.3665961010274].
Proof. vm_compute. repeat split; reflexivity. Qed.

(** X27.  The border does not enclose the canvas at its corners.  In the
    first level, on a canvas of 1200 by 720 and on one of 290 by 840,
    the emitter stands inside the four mirrors of the border, and a shot
    from it aimed at the corner (0, h) finds no wall at its first scan:
    the trace takes the escape branch at once, fails, and its path ends
    outside the canvas. *)
Theorem border_open_at_corner :
  let m1 := Double.Level.loadLevel 1200 720 Double.Level.RICOCHET in
  let m2 := Double.Level.loadLevel 290 840 Double.Level.RICOCHET in
  (Double.Level.mapEmitter m1 = Double.Vec2.mk 120 360
   /\ Double.Level.firstScan m1 (Double.Vec2.mk (-21) 63) = None
   /\ Double.Level.shot m1 (Double.Vec2.mk (-21) 63)
      = Double.Game.mkResult
          [Double.Vec2.mk 120 360;
           Double.Vec2.mk (-512.45553203367592) 2257.3665961010274] false)
  /\ (Double.Level.mapEmitter m2 = Double.Vec2.mk 29 420
      /\ Double.Level.firstScan m2 (Double.Vec2.mk (-29) 420) = None
      /\ Double.Level.shot m2 (Double.Vec2.mk (-29) 420)
         = Double.Game.mkResult
             [Double.Vec2.mk 29 420;
              Double.Vec2.mk (-108.76722090261282) 2415.249406175772] false).
Proof. vm_compute. repeat split; reflexivity. Qed.
End DoubleFacts.
